(** * Hash tables of [hashes.hpp]: hash functions and the four dictionaries

    A shallow embedding of [src/hashes.hpp] (namespace [hashes]) and of the
    driver [src/benchmark.cpp].

    - [uint32_t] and [int] values are integers of [Z]; the wrap-around of
      unsigned arithmetic and the conversion of an [int] to [uint32_t] are
      written out with [to_u32].
    - [std::vector] is a [list]; an index comes from [Z.to_nat]; a slot of
      type [entry<T>*] is an [option (entry T)], [NULL] being [None].
    - The process-wide generator behind [rand()] is the sequence of the
      values it is still to return.
    - A member function is a computation over the state of its object that
      returns a value, throws, or is still looping when its fuel is used up.
    - Reading a vector outside its bounds, which C++ leaves undefined, reads
      a default ([NULL], an empty bucket, 0), and writing there does nothing;
      the results are about capacities for which every access is in bounds. *)

From Stdlib Require Import ZArith Lia Permutation.
From stdpp Require Import base tactics option list numbers strings.

Local Open Scope Z_scope.

(** * Part I: the program *)

(** ** Machine integers *)

(** Conversion to [uint32_t], and unsigned wrap-around. *)
Definition to_u32 (x : Z) : Z := x mod 2 ^ 32.

(** Conversion to [int] (32 bits, two's complement). *)
Definition to_int (x : Z) : Z := (x + 2 ^ 31) mod 2 ^ 32 - 2 ^ 31.

(** [const uint32_t LARGE_PRIME = 2147483647] *)
Definition LARGE_PRIME : Z := 2147483647.

(** ** The random source *)

(** The state of [rand()]: the values the next calls return, in order. *)
Definition rand_state : Type := nat → Z.

(** [rand()] returns the next value and advances the generator. *)
Definition rand (g : rand_state) : Z * rand_state := (g 0%nat, λ n, g (S n)).

(** [rand() % (LARGE_PRIME - 1)]: the right operand is a [uint32_t], so the
    [int] that [rand()] returns is converted to [uint32_t] first. *)
Definition draw (g : rand_state) : Z * rand_state :=
  let '(r, g') := rand g in (to_u32 r mod (LARGE_PRIME - 1), g').

(** [n] successive draws, first one first. *)
Fixpoint draws (n : nat) (g : rand_state) : list Z * rand_state :=
  match n with
  | O => ([], g)
  | S n' =>
      let '(x, g1) := draw g in
      let '(xs, g2) := draws n' g1 in
      (x :: xs, g2)
  end.

(** ** Hash functions *)

(** [abstract_hash_func]: the one virtual member [hash]. *)
Class abstract_hash_func (H : Type) := hash : H → Z → Z.

(** [poly2_hash_func]: the fields [int a0, a1]. *)
Record poly2_hash_func := Poly2 { p2_a0 : Z; p2_a1 : Z }.

(** The constructor draws [a0], then [a1]. *)
Definition new_poly2 (g : rand_state) : poly2_hash_func * rand_state :=
  let '(a0, g1) := draw g in
  let '(a1, g2) := draw g1 in
  (Poly2 a0 a1, g2).

(** [return a0 + key * a1;] in [uint32_t] arithmetic. *)
#[global] Instance poly2_hash : abstract_hash_func poly2_hash_func :=
  λ h key, to_u32 (to_u32 (p2_a0 h) + to_u32 (key * to_u32 (p2_a1 h))).

(** [poly5_hash_func]: the field [vector<int> a], of size 5. *)
Record poly5_hash_func := Poly5 { p5_a : list Z }.

Definition new_poly5 (g : rand_state) : poly5_hash_func * rand_state :=
  let '(a, g') := draws 5 g in (Poly5 a, g').

(** [a[i]] as a [uint32_t] operand. *)
Definition coeff (a : list Z) (i : nat) : Z := to_u32 (a !!! i).

(** [return a[0] + key * (a[1] + key * (a[2] + key * (a[3] + key * a[4])));] *)
#[global] Instance poly5_hash : abstract_hash_func poly5_hash_func :=
  λ h key,
    let a := p5_a h in
    let s4 := to_u32 (key * coeff a 4) in
    let s3 := to_u32 (key * to_u32 (coeff a 3 + s4)) in
    let s2 := to_u32 (key * to_u32 (coeff a 2 + s3)) in
    let s1 := to_u32 (key * to_u32 (coeff a 1 + s2)) in
    to_u32 (coeff a 0 + s1).

(** [tabular_hash_func]: the field [vector<vector<int> > t], 4 rows of 256. *)
Record tabular_hash_func := Tabular { tab_t : list (list Z) }.

(** The rows are filled in order, each from 256 successive draws. *)
Fixpoint fill_rows (rows : nat) (g : rand_state) : list (list Z) * rand_state :=
  match rows with
  | O => ([], g)
  | S rows' =>
      let '(row, g1) := draws 256 g in
      let '(rest, g2) := fill_rows rows' g1 in
      (row :: rest, g2)
  end.

Definition new_tabular (g : rand_state) : tabular_hash_func * rand_state :=
  let '(t, g') := fill_rows 4 g in (Tabular t, g').

(** [t[i][(key >> i * 8) & 0xFF]], converted to [uint32_t] for the XOR. *)
Definition tab_word (t : list (list Z)) (i : nat) (key : Z) : Z :=
  to_u32 ((t !!! i) !!! Z.to_nat (Z.land (Z.shiftr key (Z.of_nat i * 8)) 255)).

(** One round of the loop: [hashValue ^= t[i][...]]. *)
Definition tab_round (t : list (list Z)) (key : Z) (hashValue : Z) (i : nat) : Z :=
  Z.lxor hashValue (tab_word t i key).

(** [for (int i = 0; i < 4; i++)] from [hashValue = 0]. *)
#[global] Instance tabular_hash : abstract_hash_func tabular_hash_func :=
  λ h key, foldl (tab_round (tab_t h) key) 0 (seq 0 4).

(** [new tabular_hash_func[2]]: element 0 is constructed before element 1. *)
Definition new_tabular_pair (g : rand_state)
  : (tabular_hash_func * tabular_hash_func) * rand_state :=
  let '(h0, g1) := new_tabular g in
  let '(h1, g2) := new_tabular g1 in
  ((h0, h1), g2).

(** ** Computations of member functions *)

(** [std::out_of_range] and [std::length_error]. *)
Inductive exn : Type := out_of_range | length_error.

(** How a call ends: it returns, it throws, or its loop is still running when
    the fuel is used up. *)
Inductive result (A : Type) : Type :=
  | Val (a : A)
  | Throw (e : exn)
  | Spin.
Arguments Val {A} a.
Arguments Throw {A} e.
Arguments Spin {A}.

(** A member function on an object of state [S]. *)
Definition M (S A : Type) : Type := S → result A * S.

Definition ret {S A} (a : A) : M S A := λ s, (Val a, s).

Definition bind {S A B} (c : M S A) (k : A → M S B) : M S B :=
  λ s, match c s with
       | (Val a, s') => k a s'
       | (Throw e, s') => (Throw e, s')
       | (Spin, s') => (Spin, s')
       end.

Definition get {S} : M S S := λ s, (Val s, s).
Definition put {S} (s : S) : M S unit := λ _, (Val tt, s).
Definition throw {S A} (e : exn) : M S A := λ s, (Throw e, s).
Definition spin {S A} : M S A := λ s, (Spin, s).

Notation "'let*' x ':=' c 'in' k" := (bind c (λ x, k))
  (at level 10, x name, c at level 100, k at level 200).
Notation "c ';;' k" := (bind c (λ _, k))
  (at level 100, k at level 200, right associativity).

(** [for (...) f(x)] over the elements of a list, in order. *)
Fixpoint for_each {S A} (f : A → M S unit) (l : list A) : M S unit :=
  match l with
  | [] => ret tt
  | x :: l' => f x ;; for_each f l'
  end.

(** ** Entries *)

(** [entry<T>]: the fields [uint32_t key_] and [T value_]. *)
Record entry (T : Type) : Type := Entry { key_ : Z; value_ : T }.
Arguments Entry {T} key_ value_.
Arguments key_ {T} e.
Arguments value_ {T} e.

(** [void set_value(T &&value)] *)
Definition set_value {T} (value : T) (e : entry T) : entry T :=
  Entry (key_ e) value.

(** ** [naive_dict] *)

Module naive_dict.
Section naive_dict.
Context {T : Type}.

(** The field [std::vector<entry<T> > entries_]. *)
Record t : Type := mk { entries_ : list (entry T) }.

(** [naive_dict(size_t capacity)] has an empty body. *)
Definition new (capacity : Z) : t := mk [].

(** [std::find_if]: the position of the first element that satisfies
    [pred], or the length of the vector, which is [end()]. *)
Fixpoint find_if {A} (pred : A → bool) (l : list A) : nat :=
  match l with
  | [] => O
  | x :: l' => if pred x then O else S (find_if pred l')
  end.

Definition search_iterator (key : Z) : M t nat :=
  let* d := get in
  ret (find_if (λ e, key_ e =? key) (entries_ d)).

(** [iter != entries_.end()] holds exactly when [iter] is a position of the
    vector. *)
Definition search (key : Z) : M t T :=
  let* iter := search_iterator key in
  let* d := get in
  match entries_ d !! iter with
  | Some e => ret (value_ e)
  | None => throw out_of_range
  end.

Definition set (key : Z) (val : T) : M t unit :=
  let* iter := search_iterator key in
  let* d := get in
  match entries_ d !! iter with
  | Some e => put (mk (<[iter := set_value val e]> (entries_ d)))
  | None => put (mk (entries_ d ++ [Entry key val]))
  end.
End naive_dict.
Arguments t T : clear implicits.
End naive_dict.

(** ** [chain_dict] *)

Module chain_dict.
Section chain_dict.
Context {T : Type}.

(** The fields [entries], [hashFunction] and [int capacity_]. *)
Record t : Type := mk {
  entries : list (list (entry T));
  hashFunction : poly2_hash_func;
  capacity_ : Z
}.

(** [chain_dict(size_t capacity)]: the member [hashFunction] is constructed
    first, from the generator; then [entries.resize(capacity)] and
    [capacity_ = capacity]. *)
Definition new (capacity : Z) (g : rand_state) : t * rand_state :=
  let '(h, g') := new_poly2 g in
  (mk (replicate (Z.to_nat capacity) []) h (to_int capacity), g').

(** [hashFunction.hash(key) % capacity_]: a [uint32_t] by an [int], so the
    [int] is converted and the remainder is unsigned. *)
Definition bucket_index (d : t) (key : Z) : Z :=
  hash (hashFunction d) key mod to_u32 (capacity_ d).

(** [entries[index]] *)
Definition bucket (d : t) (index : Z) : list (entry T) :=
  entries d !!! Z.to_nat index.

(** The loop of [search] over one bucket: the value of the first entry
    with the key. *)
Fixpoint scan (key : Z) (b : list (entry T)) : option T :=
  match b with
  | [] => None
  | e :: b' => if key_ e =? key then Some (value_ e) else scan key b'
  end.

Definition search (key : Z) : M t T :=
  let* d := get in
  let index := bucket_index d key in
  match scan key (bucket d index) with
  | Some v => ret v
  | None => throw out_of_range
  end.

(** [entries[index].emplace_back(key, std::move(val));] and nothing else. *)
Definition set (key : Z) (val : T) : M t unit :=
  let* d := get in
  let index := bucket_index d key in
  put (mk (alter (λ b, b ++ [Entry key val]) (Z.to_nat index) (entries d))
          (hashFunction d) (capacity_ d)).
End chain_dict.
Arguments t T : clear implicits.
End chain_dict.

(** ** [lp_dict] *)

Module lp_dict.
Section lp_dict.
Context {T : Type}.

(** The fields [vector<entry<T>*> entries], [hashFunction] and
    [int capacity_]. *)
Record t : Type := mk {
  entries : list (option (entry T));
  hashFunction : poly5_hash_func;
  capacity_ : Z
}.

(** [lp_dict(size_t capacity)]: the member [hashFunction] is constructed
    first; then [entries.resize(2 * capacity, NULL)] and
    [capacity_ = 2 * capacity]. *)
Definition new (capacity : Z) (g : rand_state) : t * rand_state :=
  let '(h, g') := new_poly5 g in
  (mk (replicate (Z.to_nat (2 * capacity)) None) h (to_int (2 * capacity)), g').

(** [int index = hashFunction.hash(key) % capacity_;] *)
Definition home (d : t) (key : Z) : Z :=
  to_int (hash (hashFunction d) key mod to_u32 (capacity_ d)).

(** [entries[index]] *)
Definition slot (d : t) (index : Z) : option (entry T) :=
  entries d !!! Z.to_nat index.

(** The loop
    [while (entries[index] != NULL && entries[index]->key() != key)
       index = (index + 1) % capacity_;]
    of [search] and of [set]; it returns the index it stops at. One unit
    of fuel pays for one test of the condition. *)
Fixpoint probe (fuel : nat) (key index : Z) : M t Z :=
  match fuel with
  | O => spin
  | S fuel' =>
      let* d := get in
      match slot d index with
      | Some e =>
          if bool_decide (key_ e ≠ key)
          then probe fuel' key (Z.rem (index + 1) (capacity_ d))
          else ret index
      | None => ret index
      end
  end.

Definition search (fuel : nat) (key : Z) : M t T :=
  let* d := get in
  let* index := probe fuel key (home d key) in
  let* d := get in
  match slot d index with
  | Some e =>
      if bool_decide (key_ e = key) then ret (value_ e)
      else throw out_of_range
  | None => throw out_of_range
  end.

Definition set (fuel : nat) (key : Z) (val : T) : M t unit :=
  let* d := get in
  let* index := probe fuel key (home d key) in
  let* d := get in
  put (mk (<[Z.to_nat index := Some (Entry key val)]> (entries d))
          (hashFunction d) (capacity_ d)).
End lp_dict.
Arguments t T : clear implicits.
End lp_dict.

(** ** [cuckoo_dict] *)

Module cuckoo_dict.

(** The fields [tables] (two vectors of [capacity] slots), [hashFunctions]
    (an array of two [tabular_hash_func]) and [int capacity_]. The values are
    [uint32_t]: [set] and [rehash] carry them in [int] and [uint32_t]
    variables. *)
Record t : Type := mk {
  tables : list (list (option (entry Z)));
  hashFunctions : list tabular_hash_func;
  capacity_ : Z
}.

(** [rehash] calls [rand()], so a member function runs on the generator and
    the object together. *)
Definition world : Type := rand_state * t.

#[global] Instance tabular_inhabited : Inhabited tabular_hash_func :=
  populate (Tabular []).

(** [cuckoo_dict(size_t capacity)]: [tables.resize(2, vector(capacity, NULL))],
    then [hashFunctions = new tabular_hash_func[2]], then
    [capacity_ = capacity]. *)
Definition new (capacity : Z) (g : rand_state) : world :=
  let '((h0, h1), g') := new_tabular_pair g in
  (g', mk (replicate 2 (replicate (Z.to_nat capacity) None)) [h0; h1]
          (to_int capacity)).

(** [index = hashFunctions[i].hash(key) % capacity_;] with [int index]. *)
Definition index_of (d : t) (i : nat) (key : Z) : Z :=
  to_int (hash (hashFunctions d !!! i) key mod to_u32 (capacity_ d)).

(** [tables[i][index]] *)
Definition slot (d : t) (i : nat) (index : Z) : option (entry Z) :=
  (tables d !!! i) !!! Z.to_nat index.

(** [tables[i][index] = p;] *)
Definition store (d : t) (i : nat) (index : Z) (p : option (entry Z)) : t :=
  mk (alter (λ row, <[Z.to_nat index := p]> row) i (tables d))
     (hashFunctions d) (capacity_ d).

(** The loop [for (int i = 0; i < 2; i++)] of [search], over the table
    numbers still to visit. *)
Fixpoint search_tables (todo : list nat) (key : Z) : M world Z :=
  match todo with
  | [] => throw out_of_range
  | i :: todo' =>
      let* w := get in
      match slot w.2 i (index_of w.2 i key) with
      | Some e =>
          if bool_decide (key_ e = key) then ret (value_ e)
          else search_tables todo' key
      | None => search_tables todo' key
      end
  end.

Definition search (key : Z) : M world Z := search_tables (seq 0 2) key.

(** One slot of the two loops of [rehash] that empty the tables:
    [if (hashTable[i][j] != NULL) { previousKeys.push_back(hashTable[i][j]);
    hashTable[i][j] = NULL; }] *)
Definition collect_slot (i : nat) (st : list (entry Z) * t) (j : nat)
  : list (entry Z) * t :=
  let '(previousKeys, d) := st in
  match slot d i (Z.of_nat j) with
  | Some e => (previousKeys ++ [e], store d i (Z.of_nat j) None)
  | None => st
  end.

(** [for (int j = 0; j < capacity_; j++)] inside [for (int i = 0; i < 2; i++)]. *)
Definition collect (d : t) : list (entry Z) * t :=
  foldl (λ st i, foldl (collect_slot i) st (seq 0 (Z.to_nat (capacity_ d))))
        ([], d) (seq 0 2).

(** [rehash(hashTable, key, val)], where [hashTable] is [tables] itself. The
    calls of [set] at its end go to [set_], which [set] below supplies. *)
Definition rehash (set_ : Z → Z → M world unit) (key val : Z) : M world unit :=
  let* w := get in
  let '(hs, g') := new_tabular_pair w.1 in
  let d := mk (tables w.2) [hs.1; hs.2] (capacity_ w.2) in
  let '(previousKeys, d') := collect d in
  put (g', d') ;;
  for_each (λ e, set_ (key_ e) (value_ e)) (previousKeys ++ [Entry key val]).

(** The loop [while (true)] of [set]; [key] and [val] are the pair in hand,
    [i] the current table and [temp] the [int] copy of the key [set] was
    called with. One unit of fuel pays for one round of the loop; a call
    of [set] from [rehash] gets what is left.

    An occupied slot gives up its pair through the [int] variables [key_]
    and [val_], hence the conversions. The test [key == temp] compares a
    [uint32_t] with an [int], which is converted. *)
Fixpoint set_loop (fuel : nat) (key val : Z) (i : nat) (temp : Z) : M world unit :=
  match fuel with
  | O => spin
  | S fuel' =>
      let* w := get in
      let index := index_of w.2 i key in
      match slot w.2 i index with
      | None => put (w.1, store w.2 i index (Some (Entry key val)))
      | Some e =>
          let key_ := to_int (key_ e) in
          let val_ := to_int (value_ e) in
          put (w.1, store w.2 i index (Some (Entry key val))) ;;
          let key := to_u32 key_ in
          let val := to_u32 val_ in
          if bool_decide (key = to_u32 temp) && bool_decide (i = 1%nat)
          then rehash (λ k v, set_loop fuel' k v 0%nat (to_int k)) key val
          else set_loop fuel' key val (1 - i)%nat temp
      end
  end.

(** [set(key, val)]: [int i = 0, temp = key]. *)
Definition set (fuel : nat) (key val : Z) : M world unit :=
  set_loop fuel key val 0%nat (to_int key).

End cuckoo_dict.

(** ** [abstract_dict] *)

(** The two virtual member functions. A call runs on the generator and the
    object, with the fuel for the loops of the function. *)
Class abstract_dict (D : Type) : Type := {
  search : nat → Z → M (rand_state * D) Z;
  set : nat → Z → Z → M (rand_state * D) unit
}.

(** A member function that does not call [rand()]. *)
Definition on_object {D A} (c : M D A) : M (rand_state * D) A :=
  λ w, let '(r, d) := c w.2 in (r, (w.1, d)).

#[global] Instance naive_abstract_dict : abstract_dict (naive_dict.t Z) := {|
  search _ key := on_object (naive_dict.search key);
  set _ key val := on_object (naive_dict.set key val)
|}.

#[global] Instance chain_abstract_dict : abstract_dict (chain_dict.t Z) := {|
  search _ key := on_object (chain_dict.search key);
  set _ key val := on_object (chain_dict.set key val)
|}.

#[global] Instance lp_abstract_dict : abstract_dict (lp_dict.t Z) := {|
  search fuel key := on_object (lp_dict.search fuel key);
  set fuel key val := on_object (lp_dict.set fuel key val)
|}.

#[global] Instance cuckoo_abstract_dict : abstract_dict cuckoo_dict.t := {|
  search _ key := cuckoo_dict.search key;
  set fuel key val := cuckoo_dict.set fuel key val
|}.

(** ** The driver, [benchmark.cpp] *)

Module benchmark.

(** [const uint32_t SEED{0}] *)
Definition SEED : Z := 0.

(** What [stoi] does with a string. *)
Inductive stoi_result : Type :=
  | parsed_int (parsed : Z)
  | invalid_argument
  | stoi_out_of_range.

(** [try { body } catch (std::out_of_range e) { handler }] *)
Definition try_catch_out_of_range {S A} (body handler : M S A) : M S A :=
  λ s, match body s with
       | (Throw out_of_range, s') => handler s'
       | r => r
       end.

Section benchmark.
(** [std::shuffle] with a [mt19937] constructed from a seed, a library
    function: a function of the seed and of the vector. *)
Context (shuffle : Z → list Z → list Z).

(** The elements from position [first] up to position [last]. *)
Definition sub_vector (v : list Z) (first last : Z) : list Z :=
  take (Z.to_nat (last - first)) (drop (Z.to_nat first) v).

(** The block that fills [first_half], [second_half] and [absent]. *)
Definition workload (n : Z) : list Z * list Z * list Z :=
  let half_n := n / 2 in
  let total_n := to_u32 (half_n * 3) in
  let randoms := shuffle SEED (seqZ 0 total_n) in
  (sub_vector randoms 0 half_n,
   sub_vector randoms half_n (to_u32 (half_n * 2)),
   sub_vector randoms (to_u32 (half_n * 2)) (Z.of_nat (length randoms))).

Context {D : Type} `{abstract_dict D}.

(** The lambda [check_all_present]; the body of its loop answers [Some b]
    when it returns [b] and [None] when it goes on. *)
Fixpoint check_all_present (fuel : nat) (vec : list Z) : M (rand_state * D) bool :=
  match vec with
  | [] => ret false
  | x :: vec' =>
      let* r :=
        try_catch_out_of_range
          (let* searched_value := search fuel x in
           let expected_value := to_u32 (x + 1) in
           if bool_decide (searched_value ≠ expected_value)
           then ret (Some true) else ret None)
          (ret (Some true)) in
      match r with
      | Some b => ret b
      | None => check_all_present fuel vec'
      end
  end.

(** The lambda [check_all_absent]. *)
Fixpoint check_all_absent (fuel : nat) (vec : list Z) : M (rand_state * D) bool :=
  match vec with
  | [] => ret false
  | x :: vec' =>
      let* r :=
        try_catch_out_of_range
          (let* searched_value := search fuel x in ret (Some true))
          (ret None) in
      match r with
      | Some b => ret b
      | None => check_all_absent fuel vec'
      end
  end.

(** [if (check(vec)) { return 1; }], followed by the rest of [main]. *)
Definition return_1_if (check : M (rand_state * D) bool)
    (rest : M (rand_state * D) Z) : M (rand_state * D) Z :=
  let* failed := check in if failed then ret 1 else rest.

(** [for (auto x : vec) { dict->set(x, x + 1); }] *)
Definition insert_all (fuel : nat) (vec : list Z) : M (rand_state * D) unit :=
  for_each (λ x, set fuel x (to_u32 (x + 1))) vec.

(** [main] from the start of the clock to [return 0]. *)
Definition insert_and_search (fuel : nat) (n : Z) : M (rand_state * D) Z :=
  let '(first_half, second_half, absent) := workload n in
  return_1_if (check_all_absent fuel first_half)
  (return_1_if (check_all_absent fuel second_half)
  (return_1_if (check_all_absent fuel absent)
  (insert_all fuel first_half ;;
   return_1_if (check_all_present fuel first_half)
  (return_1_if (check_all_absent fuel second_half)
  (return_1_if (check_all_absent fuel absent)
  (insert_all fuel second_half ;;
   return_1_if (check_all_present fuel first_half)
  (return_1_if (check_all_present fuel second_half)
  (return_1_if (check_all_absent fuel absent)
  (ret 0))))))))).
End benchmark.

Section main.
(** The other library functions that [main] calls: [stoi], and [srand],
    given as the generator it leaves for [rand()]. *)
Context (stoi : string → stoi_result).
Context (shuffle : Z → list Z → list Z).
Context (srand : Z → rand_state).

(** [main], from [srand(time(0))] on: [now] is what [time(0)] returns,
    [structure] and [n] are the parsed arguments. The value is the exit
    code. *)
Definition run (fuel : nat) (now : Z) (structure : string) (n : Z) : result Z :=
  let g := srand now in
  if bool_decide (structure = "naive"%string) then
    (insert_and_search shuffle fuel n (g, naive_dict.new (T:=Z) n)).1
  else if bool_decide (structure = "chain"%string) then
    let '(d, g') := chain_dict.new (T:=Z) n g in
    (insert_and_search shuffle fuel n (g', d)).1
  else if bool_decide (structure = "lp"%string) then
    let '(d, g') := lp_dict.new (T:=Z) n g in
    (insert_and_search shuffle fuel n (g', d)).1
  else if bool_decide (structure = "cuckoo"%string) then
    (insert_and_search shuffle fuel n (cuckoo_dict.new n g)).1
  else Val 1.

(** [main]: the program name and two arguments; [stoi] may throw
    [invalid_argument], which [main] catches, or [out_of_range], which it
    does not. *)
Definition main (fuel : nat) (now : Z) (arguments : list string) : result Z :=
  match arguments with
  | [_; structure; n_string] =>
      match stoi n_string with
      | parsed_int parsed =>
          if bool_decide (parsed ≤ 0) then Val 1
          else run fuel now structure parsed
      | invalid_argument => Val 1
      | stoi_out_of_range => Throw out_of_range
      end
  | _ => Val 1
  end.
End main.

End benchmark.

(** * Part II: the vocabulary of the specification *)

(** A capacity that [int capacity_] holds unchanged and that is not zero. *)
Definition capacity_ok (c : Z) : Prop := 0 < c < 2 ^ 31.

(** A value of type [uint32_t]. *)
Definition is_u32 (x : Z) : Prop := 0 ≤ x < 2 ^ 32.

(** *** [chain_dict] *)

(** Every entry sits in the bucket its key hashes to. *)
Definition chain_placed {T} (d : chain_dict.t T) : Prop :=
  ∀ (i j : nat) b e,
    chain_dict.entries d !! i = Some b → b !! j = Some e →
    Z.of_nat i = chain_dict.bucket_index d (key_ e).

(** The dictionary after a sequence of calls of [set]. *)
Definition chain_sets {T} (ops : list (Z * T)) (d : chain_dict.t T) : chain_dict.t T :=
  foldl (λ d op, (chain_dict.set op.1 op.2 d).2) d ops.

(** *** [lp_dict] *)

(** The shape the constructor gives and [set] keeps. *)
Definition lp_wf {T} (d : lp_dict.t T) : Prop :=
  capacity_ok (lp_dict.capacity_ d)
  ∧ Z.of_nat (length (lp_dict.entries d)) = lp_dict.capacity_ d.

(** Every slot holds an entry: the live entries are as many as the slots. *)
Definition lp_full {T} (d : lp_dict.t T) : Prop :=
  Forall is_Some (lp_dict.entries d).

(** No entry has the key. *)
Definition lp_absent {T} (d : lp_dict.t T) (key : Z) : Prop :=
  Forall (λ s, ∀ e, s = Some e → key_ e ≠ key) (lp_dict.entries d).

(** The table of [lp_dict(1)] after [set(0, 1)] and [set(1, 2)], with the
    fuel each call gets and the generator the constructor draws from. *)
Definition lp_two_sets (fuel : nat) (g : rand_state) : lp_dict.t Z :=
  let d0 := (lp_dict.new 1 g).1 in
  let d1 := (lp_dict.set fuel 0 1 d0).2 in
  (lp_dict.set fuel 1 2 d1).2.

(** A generator to run examples with. *)
Definition example_rand : rand_state := λ n, Z.of_nat n * 7919 + 13.

(** *** [cuckoo_dict] *)

(** What [search] answers from the two slots it reads, [s0] in table 0 and
    [s1] in table 1. *)
Definition two_probe (s0 s1 : option (entry Z)) (key : Z) : result Z :=
  match s0 with
  | Some e0 =>
      if bool_decide (key_ e0 = key) then Val (value_ e0)
      else match s1 with
           | Some e1 => if bool_decide (key_ e1 = key) then Val (value_ e1)
                        else Throw out_of_range
           | None => Throw out_of_range
           end
  | None =>
      match s1 with
      | Some e1 => if bool_decide (key_ e1 = key) then Val (value_ e1)
                   else Throw out_of_range
      | None => Throw out_of_range
      end
  end.

(** The slot of table [i] that [search] reads for [key]. *)
Definition candidate (d : cuckoo_dict.t) (i : nat) (key : Z) : option (entry Z) :=
  cuckoo_dict.slot d i (cuckoo_dict.index_of d i key).

(** The content of slot [j] of table [i]; nothing outside the tables. *)
Definition cell (d : cuckoo_dict.t) (i j : nat) : option (entry Z) :=
  match cuckoo_dict.tables d !! i with
  | Some row => match row !! j with Some p => p | None => None end
  | None => None
  end.

(** The shape the constructor gives and [set] keeps: two tables of
    [capacity_] slots. *)
Definition cuckoo_wf (d : cuckoo_dict.t) : Prop :=
  capacity_ok (cuckoo_dict.capacity_ d)
  ∧ length (cuckoo_dict.tables d) = 2%nat
  ∧ Forall (λ row, Z.of_nat (length row) = cuckoo_dict.capacity_ d)
      (cuckoo_dict.tables d).

(** [e] is a live entry. *)
Definition cuckoo_stored (d : cuckoo_dict.t) (e : entry Z) : Prop :=
  ∃ i j, cell d i j = Some e.

(** Every live entry is in the slot that the hash function of its table
    gives for its key. *)
Definition cuckoo_placed (d : cuckoo_dict.t) : Prop :=
  ∀ i j e, cell d i j = Some e → Z.of_nat j = cuckoo_dict.index_of d i (key_ e).

(** Keys and values are [uint32_t]. *)
Definition cuckoo_u32 (d : cuckoo_dict.t) : Prop :=
  ∀ e, cuckoo_stored d e → is_u32 (key_ e) ∧ is_u32 (value_ e).

Definition cuckoo_inv (d : cuckoo_dict.t) : Prop :=
  cuckoo_wf d ∧ cuckoo_placed d ∧ cuckoo_u32 d.

(** What a call [set_ k v] that returns has done: the table is well formed
    again, with the capacity it had, and holds what it held and the new
    pair. *)
Definition cuckoo_set_spec (set_ : Z → Z → M cuckoo_dict.world unit) : Prop :=
  ∀ k v (w w' : cuckoo_dict.world),
    cuckoo_inv w.2 → is_u32 k → is_u32 v →
    set_ k v w = (Val tt, w') →
    cuckoo_inv w'.2
    ∧ cuckoo_dict.capacity_ w'.2 = cuckoo_dict.capacity_ w.2
    ∧ ∀ x, cuckoo_stored w'.2 x ↔ cuckoo_stored w.2 x ∨ x = Entry k v.

(** A generator whose first 2048 values are 0: the two hash functions that
    the constructor of [cuckoo_dict] draws send every key to slot 0. *)
Definition colliding_rand : rand_state :=
  λ n, if (n <? 2048)%nat then 0 else Z.of_nat n * 7919 + 13.

(** [cuckoo_dict(2)] after [set(7, 70)] and [set(8, 80)], all four hash
    values colliding. *)
Definition two_colliding_keys : cuckoo_dict.world :=
  let w0 := cuckoo_dict.new 2 colliding_rand in
  let w1 := (cuckoo_dict.set 50 7 70 w0).2 in
  (cuckoo_dict.set 50 8 80 w1).2.

(** *** The contract of [abstract_dict], for calls that end *)

(** [inv] is what the constructor establishes and [set] keeps; [stored d e]
    says that [e] is a live entry of [d].

    A [search] that ends has changed nothing; it returns the value of a live
    entry with the key, or throws [out_of_range] when no live entry has the
    key. A [set] of a key that no live entry has, when it ends, has returned
    and added the pair to the live entries. *)
Class dict_laws (D : Type) `{abstract_dict D} : Type := {
  inv : D → Prop;
  stored : D → entry Z → Prop;
  search_sound : ∀ fuel k g d r w',
    inv d → search fuel k (g, d) = (r, w') → r ≠ Spin →
    w' = (g, d)
    ∧ match r with
      | Val v => stored d (Entry k v)
      | Throw e => e = out_of_range ∧ ∀ x, stored d x → key_ x ≠ k
      | Spin => False
      end;
  set_sound : ∀ fuel k v g d r w',
    inv d → is_u32 k → is_u32 v → (∀ x, stored d x → key_ x ≠ k) →
    set fuel k v (g, d) = (r, w') → r ≠ Spin →
    r = Val tt ∧ inv w'.2 ∧ ∀ x, stored w'.2 x ↔ stored d x ∨ x = Entry k v
}.

(** What the driver expects of the dictionary once the keys of [L] are
    inserted: the live entries are the pairs [(x, x + 1)] for [x] in [L]. *)
Definition holds {D : Type} `{dict_laws D} (d : D) (L : list Z) : Prop :=
  inv d ∧ ∀ e, stored d e ↔ key_ e ∈ L ∧ value_ e = to_u32 (key_ e + 1).

(** The exit code of a run that ends, as a function of the arguments alone:
    1 for a wrong number of arguments, a string that is not an integer, a
    size that is not positive or an unknown structure, 0 otherwise; a size
    that does not fit an [int] ends [main] with the exception of [stoi]. *)
Definition expected_exit (stoi : string → benchmark.stoi_result)
    (arguments : list string) : result Z :=
  match arguments with
  | [_; structure; n_string] =>
      match stoi n_string with
      | benchmark.parsed_int parsed =>
          if bool_decide (parsed ≤ 0) then Val 1
          else if bool_decide (structure ∈ ["naive"; "chain"; "lp"; "cuckoo"]%string)
               then Val 0 else Val 1
      | benchmark.invalid_argument => Val 1
      | benchmark.stoi_out_of_range => Throw out_of_range
      end
  | _ => Val 1
  end.

(** The size argument, when it is an integer, is below [2^30]: twice the
    size, the number of slots of [lp_dict], fits an [int]. *)
Definition size_fits (stoi : string → benchmark.stoi_result)
    (arguments : list string) : Prop :=
  ∀ n_string parsed,
    arguments !! 2%nat = Some n_string →
    stoi n_string = benchmark.parsed_int parsed → parsed < 2 ^ 30.

(** Library functions to run examples with: a [stoi] that knows one string,
    a shuffle that reverses, and a generator that depends on its seed. *)
Definition example_stoi (s : string) : benchmark.stoi_result :=
  if bool_decide (s = "6"%string) then benchmark.parsed_int 6
  else benchmark.invalid_argument.

Definition example_shuffle (seed : Z) (l : list Z) : list Z := reverse l.

Definition example_srand (seed : Z) : rand_state :=
  λ n, seed * 31 + Z.of_nat n * 7919 + 13.

(** *** [naive_dict] *)

Definition naive_stored (d : naive_dict.t Z) (e : entry Z) : Prop :=
  e ∈ naive_dict.entries_ d.

(** *** [chain_dict], continued *)

Definition chain_inv (d : chain_dict.t Z) : Prop :=
  0 < to_u32 (chain_dict.capacity_ d)
  ∧ Z.of_nat (length (chain_dict.entries d)) = to_u32 (chain_dict.capacity_ d)
  ∧ chain_placed d.

Definition chain_stored (d : chain_dict.t Z) (e : entry Z) : Prop :=
  ∃ (i j : nat) b, chain_dict.entries d !! i = Some b ∧ b !! j = Some e.

(** *** [lp_dict], continued *)

(** [lp_walk d key i j]: the probe for [key] that is at slot [i] gets to
    slot [j], every slot on the way holding an entry with another key. *)
Inductive lp_walk (d : lp_dict.t Z) (key : Z) : Z → Z → Prop :=
  | lp_walk_here i : lp_walk d key i i
  | lp_walk_step i j e :
      lp_dict.slot d i = Some e → key_ e ≠ key →
      lp_walk d key (Z.rem (i + 1) (lp_dict.capacity_ d)) j →
      lp_walk d key i j.

(** The probe for [key] stops at slot [j]. *)
Definition lp_stop (d : lp_dict.t Z) (key j : Z) : Prop :=
  ∀ e, lp_dict.slot d j = Some e → key_ e = key.

Definition lp_stored (d : lp_dict.t Z) (e : entry Z) : Prop :=
  ∃ i, 0 ≤ i < lp_dict.capacity_ d ∧ lp_dict.slot d i = Some e.

(** Every live entry is where the probe for its key, from the home slot of
    the key, gets to. *)
Definition lp_inv (d : lp_dict.t Z) : Prop :=
  lp_wf d
  ∧ ∀ i e, 0 ≤ i < lp_dict.capacity_ d → lp_dict.slot d i = Some e →
      lp_walk d (key_ e) (lp_dict.home d (key_ e)) i.

(** *** Calls that end *)

(** [can_take d m]: [d] has room for [m] more keys, and then still answers
    every [search]; [enough d fuel]: the fuel pays for the longest loop of one
    call on [d]. *)
Class dict_ends (D : Type) `{dict_laws D} : Type := {
  can_take : D → nat → Prop;
  enough : D → nat → Prop;
  can_take_less : ∀ d m, can_take d (S m) → can_take d m;
  search_ends : ∀ fuel k g d,
    inv d → can_take d 0 → enough d fuel → (search fuel k (g, d)).1 ≠ Spin;
  set_ends : ∀ fuel k v g d m,
    inv d → can_take d (S m) → enough d fuel →
    (∀ x, stored d x → key_ x ≠ k) →
    (set fuel k v (g, d)).1 ≠ Spin
    ∧ can_take (set fuel k v (g, d)).2.2 m
    ∧ enough (set fuel k v (g, d)).2.2 fuel
}.

(** The number of occupied slots of [lp_dict]. *)
Definition lp_occupied (d : lp_dict.t Z) : nat :=
  length (omap id (lp_dict.entries d)).

(** More than [m] slots are empty. *)
Definition lp_can_take (d : lp_dict.t Z) (m : nat) : Prop :=
  (m + lp_occupied d < length (lp_dict.entries d))%nat.

(** One test for each slot. *)
Definition lp_enough (d : lp_dict.t Z) (fuel : nat) : Prop :=
  lp_dict.capacity_ d < Z.of_nat fuel.

(** How many steps the probe takes from slot [i] to slot [j]. *)
Definition lp_distance (c i j : Z) : Z :=
  if decide (i ≤ j) then j - i else j - i + c.

(** The structures whose calls always end. *)
Definition always_ends (structure : string) : Prop :=
  structure ∈ ["naive"; "chain"; "lp"]%string.

(** The fuel pays for one test of each of the [2 * n] slots of [lp_dict],
    and one more. *)
Definition fuel_covers (stoi : string → benchmark.stoi_result)
    (arguments : list string) (fuel : nat) : Prop :=
  ∀ n_string parsed,
    arguments !! 2%nat = Some n_string →
    stoi n_string = benchmark.parsed_int parsed → 2 * parsed < Z.of_nat fuel.

(** The structure argument names a dictionary whose calls always end. *)
Definition structure_always_ends (arguments : list string) : Prop :=
  ∀ structure, arguments !! 1%nat = Some structure → always_ends structure.

(** *** Dictionaries as maps *)

(** What [search] answers when the dictionary maps the key to [o]. *)
Definition answer (o : option Z) : result Z :=
  match o with
  | Some v => Val v
  | None => Throw out_of_range
  end.

(** The value of the first pair with key [k] in a list of calls
    [set(k', v)]; the value of the last one. *)
Fixpoint first_value (k : Z) (ops : list (Z * Z)) : option Z :=
  match ops with
  | [] => None
  | op :: ops' => if op.1 =? k then Some op.2 else first_value k ops'
  end.

Definition last_value (k : Z) (ops : list (Z * Z)) : option Z :=
  first_value k (reverse ops).

(** The value of the first entry with key [k]. *)
Fixpoint first_entry (k : Z) (l : list (entry Z)) : option Z :=
  match l with
  | [] => None
  | e :: l' => if key_ e =? k then Some (value_ e) else first_entry k l'
  end.

(** What [naive_dict::set] makes of the vector: the first entry with the
    key gets the value, or a new entry is appended. *)
Fixpoint naive_update (k v : Z) (l : list (entry Z)) : list (entry Z) :=
  match l with
  | [] => [Entry k v]
  | e :: l' => if key_ e =? k then set_value v e :: l' else e :: naive_update k v l'
  end.

(** The dictionaries after a sequence of calls of [set], each with the
    same fuel. *)
Definition naive_sets (ops : list (Z * Z)) (d : naive_dict.t Z) : naive_dict.t Z :=
  foldl (λ d op, (naive_dict.set op.1 op.2 d).2) d ops.

Definition lp_sets (fuel : nat) (ops : list (Z * Z)) (d : lp_dict.t Z) : lp_dict.t Z :=
  foldl (λ d op, (lp_dict.set fuel op.1 op.2 d).2) d ops.

(** The number of entries in all the buckets of [chain_dict]. *)
Definition chain_size (d : chain_dict.t Z) : nat :=
  length (concat (chain_dict.entries d)).

(** The live entries of [cuckoo_dict], slot by slot: an entry that is in
    two slots is listed twice. *)
Definition cuckoo_entries (d : cuckoo_dict.t) : list (entry Z) :=
  omap id (concat (cuckoo_dict.tables d)).

(** The world after a sequence of calls of [cuckoo_dict::set]. *)
Definition cuckoo_sets (fuel : nat) (ops : list (Z * Z)) : M cuckoo_dict.world unit :=
  for_each (λ op, cuckoo_dict.set fuel op.1 op.2) ops.

(** A call [set_ k v] that returns has added one entry and lost none. *)
Definition cuckoo_adds_one (set_ : Z → Z → M cuckoo_dict.world unit) : Prop :=
  ∀ k v (w w' : cuckoo_dict.world),
    cuckoo_inv w.2 → is_u32 k → is_u32 v →
    set_ k v w = (Val tt, w') →
    cuckoo_entries w'.2 ≡ₚ Entry k v :: cuckoo_entries w.2.

(** The entry that a call [set(k, v)] brings. *)
Definition to_entry (op : Z * Z) : entry Z := Entry op.1 op.2.

(** [cuckoo_dict(1)] after [set(7, 70)] and [set(8, 80)]: both slots are
    occupied. *)
Definition full_cuckoo : cuckoo_dict.world :=
  (cuckoo_sets 10 [(7, 70); (8, 80)] (cuckoo_dict.new 1 example_rand)).2.

(** *** The hash functions and the generator *)

(** What a constructor stores when [rand()] returns [r]:
    [r % (LARGE_PRIME - 1)], with [r] converted to [uint32_t]. *)
Definition draw_of (r : Z) : Z := to_u32 r mod (LARGE_PRIME - 1).

(** Byte [i] of a key, counted from the low end. *)
Definition byte_of (key : Z) (i : nat) : nat :=
  Z.to_nat ((key / 256 ^ Z.of_nat i) mod 256).

(** The table of a [tabular_hash_func] whose constructor runs when [rand()]
    is about to return [g offset]: word [j] of row [i] comes from the value
    number [offset + 256 * i + j]. *)
Definition table_of (g : rand_state) (offset : nat) : list (list Z) :=
  (λ i, (λ j, draw_of (g (offset + i * 256 + j)%nat)) <$> seq 0 256) <$> seq 0 4.

(** [cuckoo_dict(4)] after [set(7, 70)], [set(8, 80)] and [set(9, 90)], with
    hash functions that spread the keys. *)
Definition spread_keys : cuckoo_dict.world :=
  (cuckoo_sets 10 [(7, 70); (8, 80); (9, 90)] (cuckoo_dict.new 4 example_rand)).2.

(** The calls [set(k, v)] of a list, in order, on an [lp_dict]. *)
Definition lp_run_sets (fuel : nat) (ops : list (Z * Z)) : M (lp_dict.t Z) unit :=
  for_each (λ op, lp_dict.set fuel op.1 op.2) ops.

(** * Part III: results *)

(** ** Machine integers and hash functions *)

Lemma to_u32_range x : 0 ≤ to_u32 x < 2 ^ 32.
Proof. unfold to_u32. apply Z.mod_pos_bound. lia. Qed.

Lemma to_u32_small x : 0 ≤ x < 2 ^ 32 → to_u32 x = x.
Proof. intros. unfold to_u32. by apply Z.mod_small. Qed.

(** What a draw can be: [[0, LARGE_PRIME - 1)], that is at most [2147483645]. *)
Definition drawn (x : Z) : Prop := 0 ≤ x ≤ 2147483645.

(** A word is small when it fits in 31 bits. *)
Definition small31 (x : Z) : Prop := 0 ≤ x < 2 ^ 31.

Lemma drawn_small31 x : drawn x → small31 x.
Proof. unfold drawn, small31. lia. Qed.

Lemma draw_drawn g : drawn (draw g).1.
Proof.
  unfold draw, rand, drawn, LARGE_PRIME. simpl.
  pose proof (Z.mod_pos_bound (to_u32 (g 0%nat)) (2147483647 - 1)). lia.
Qed.

Lemma draws_drawn n : ∀ g, Forall drawn (draws n g).1.
Proof.
  induction n as [|n IH]; intros g; cbn [draws]; [constructor|].
  pose proof (draw_drawn g) as Hd. destruct (draw g) as [x g1]. simpl in Hd.
  specialize (IH g1). destruct (draws n g1) as [xs g2]. simpl in *.
  by constructor.
Qed.

Lemma draws_length n : ∀ g, length (draws n g).1 = n.
Proof.
  induction n as [|n IH]; intros g; cbn [draws]; [done|].
  destruct (draw g) as [x g1]. specialize (IH g1).
  destruct (draws n g1) as [xs g2]. simpl in *. by rewrite IH.
Qed.

Lemma fill_rows_drawn rows : ∀ g, Forall (Forall drawn) (fill_rows rows g).1.
Proof.
  induction rows as [|rows IH]; intros g; cbn [fill_rows]; [constructor|].
  pose proof (draws_drawn 256 g) as Hd. destruct (draws 256 g) as [row g1].
  specialize (IH g1). destruct (fill_rows rows g1) as [rest g2]. simpl in *.
  by constructor.
Qed.

Lemma fill_rows_shape rows : ∀ g,
  length (fill_rows rows g).1 = rows
  ∧ Forall (λ row, length row = 256%nat) (fill_rows rows g).1.
Proof.
  induction rows as [|rows IH]; intros g; cbn [fill_rows]; [by split; constructor|].
  pose proof (draws_length 256 g) as Hd. destruct (draws 256 g) as [row g1].
  specialize (IH g1). destruct (fill_rows rows g1) as [rest g2]. simpl in *.
  destruct IH as [IH1 IH2]. split; [by rewrite IH1|by constructor].
Qed.

Lemma lookup_total_small (l : list Z) i : Forall small31 l → small31 (l !!! i).
Proof.
  intros Hl. destruct (l !! i) as [x|] eqn:E.
  - rewrite (list_lookup_total_correct _ _ _ E).
    eapply Forall_lookup_1; eauto.
  - rewrite list_lookup_total_alt, E. simpl. unfold small31. change (inhabitant) with 0. lia.
Qed.

Lemma tab_word_small t i key : Forall (Forall small31) t → small31 (tab_word t i key).
Proof.
  intros Ht. unfold tab_word.
  assert (small31 ((t !!! i) !!! Z.to_nat (Z.land (Z.shiftr key (Z.of_nat i * 8)) 255))) as Hs.
  { apply lookup_total_small. destruct (t !! i) as [row|] eqn:E.
    - rewrite (list_lookup_total_correct _ _ _ E). eapply Forall_lookup_1; eauto.
    - rewrite list_lookup_total_alt, E. simpl. constructor. }
  unfold small31 in *. rewrite to_u32_small; lia.
Qed.

Lemma lxor_small a b : small31 a → small31 b → small31 (Z.lxor a b).
Proof.
  unfold small31. intros [Ha1 Ha2] [Hb1 Hb2].
  split; [by apply Z.lxor_nonneg|].
  destruct (Z.eq_dec (Z.lxor a b) 0) as [->|Hne]; [lia|].
  assert (0 < Z.lxor a b) as Hpos by (pose proof (proj2 (Z.lxor_nonneg a b)); lia).
  apply Z.log2_lt_pow2; [done|].
  pose proof (Z.log2_lxor a b Ha1 Hb1) as Hl.
  assert (Z.log2 a < 31).
  { destruct (Z.eq_dec a 0) as [->|]; [simpl; lia|]. apply Z.log2_lt_pow2; lia. }
  assert (Z.log2 b < 31).
  { destruct (Z.eq_dec b 0) as [->|]; [simpl; lia|]. apply Z.log2_lt_pow2; lia. }
  lia.
Qed.

Lemma tabular_rounds_small t key l : ∀ acc,
  Forall (Forall small31) t → small31 acc → small31 (foldl (tab_round t key) acc l).
Proof.
  induction l as [|i l IH]; intros acc Ht Hacc; simpl; [done|].
  apply IH; [done|]. unfold tab_round. apply lxor_small; [done|].
  by apply tab_word_small.
Qed.

(** C10: whatever the generator returns and whatever the key, the hash of a
    constructed [tabular_hash_func] is below [2^31]: each of the 1024 table
    words is [rand() % (LARGE_PRIME - 1)], hence in [[0, 2147483645]], and the
    XOR of words with a clear top bit has a clear top bit. *)
Theorem tabular_hash_below_2_31 (g : rand_state) (key : Z) :
  let h := (new_tabular g).1 in
  length (tab_t h) = 4%nat
  ∧ Forall (λ row, length row = 256%nat ∧ Forall (λ w, 0 ≤ w ≤ 2147483645) row) (tab_t h)
  ∧ 0 ≤ hash h key < 2 ^ 31
  ∧ Z.testbit (hash h key) 31 = false.
Proof.
  intros h. subst h. unfold new_tabular.
  pose proof (fill_rows_drawn 4 g) as Hd. pose proof (fill_rows_shape 4 g) as [Hl Hs].
  destruct (fill_rows 4 g) as [t g']. cbn [fst tab_t] in *.
  assert (small31 (hash (Tabular t) key)) as Hh.
  { unfold hash, tabular_hash. cbn [tab_t]. apply tabular_rounds_small.
    - eapply List.Forall_impl; [|exact Hd]. intros row Hrow.
      eapply List.Forall_impl; [|exact Hrow]. apply drawn_small31.
    - unfold small31. lia. }
  split; [done|]. split.
  { apply List.Forall_forall. intros row Hin. split.
    - by eapply (proj1 (List.Forall_forall _ _) Hs).
    - by eapply (proj1 (List.Forall_forall _ _) Hd). }
  split; [exact Hh|].
  unfold small31 in Hh. apply Z.bits_above_log2; [lia|].
  destruct (Z.eq_dec (hash (Tabular t) key) 0) as [->|Hne]; [simpl; lia|].
  apply Z.log2_lt_pow2; lia.
Qed.

Lemma to_int_small x : 0 ≤ x < 2 ^ 31 → to_int x = x.
Proof. intros. unfold to_int. rewrite Z.mod_small; lia. Qed.

Lemma to_u32_to_int x : to_u32 (to_int x) = to_u32 x.
Proof.
  unfold to_u32, to_int.
  rewrite Zminus_mod_idemp_l. f_equal. lia.
Qed.

(** ** [search] leaves the dictionary as it is *)

Lemma naive_search_pure {T} (d : naive_dict.t T) key :
  (naive_dict.search key d).2 = d.
Proof.
  unfold naive_dict.search, naive_dict.search_iterator, bind, get, ret, throw.
  by destruct (naive_dict.entries_ d !! _).
Qed.

Lemma chain_search_pure {T} (d : chain_dict.t T) key :
  (chain_dict.search key d).2 = d.
Proof.
  unfold chain_dict.search, bind, get, ret, throw.
  by destruct (chain_dict.scan _ _).
Qed.

Lemma lp_probe_pure {T} fuel : ∀ (d : lp_dict.t T) key index,
  (lp_dict.probe fuel key index d).2 = d.
Proof.
  induction fuel as [|fuel IH]; intros d key index; cbn [lp_dict.probe]; [done|].
  unfold bind, get, ret. destruct (lp_dict.slot d index) as [e|]; [|done].
  destruct (bool_decide _); [apply IH|done].
Qed.

Lemma lp_search_pure {T} fuel (d : lp_dict.t T) key :
  (lp_dict.search fuel key d).2 = d.
Proof.
  unfold lp_dict.search, bind, get.
  pose proof (lp_probe_pure fuel d key (lp_dict.home d key)) as Hp.
  destruct (lp_dict.probe fuel key (lp_dict.home d key) d) as [[index|e|] d'];
    simpl in Hp; subst d'; try done.
  unfold ret, throw. destruct (lp_dict.slot d index) as [e|]; [|done].
  by destruct (bool_decide _).
Qed.

Lemma cuckoo_search_tables_pure todo : ∀ w key,
  (cuckoo_dict.search_tables todo key w).2 = w.
Proof.
  induction todo as [|i todo IH]; intros w key; cbn [cuckoo_dict.search_tables]; [done|].
  unfold bind, get, ret. destruct (cuckoo_dict.slot _ _ _) as [e|]; [|apply IH].
  destruct (bool_decide _); [done|apply IH].
Qed.

(** C9: in each of the four dictionaries [search] returns the object (and,
    for the cuckoo table, the generator) exactly as it found it, whether it
    returns a value, throws [out_of_range], or is still probing. *)
Theorem search_does_not_mutate :
  (∀ (d : naive_dict.t Z) key, (naive_dict.search key d).2 = d)
  ∧ (∀ (d : chain_dict.t Z) key, (chain_dict.search key d).2 = d)
  ∧ (∀ fuel (d : lp_dict.t Z) key, (lp_dict.search fuel key d).2 = d)
  ∧ (∀ (w : cuckoo_dict.world) key, (cuckoo_dict.search key w).2 = w).
Proof.
  split; [|split; [|split]].
  - intros. apply naive_search_pure.
  - intros. apply chain_search_pure.
  - intros. apply lp_search_pure.
  - intros. apply cuckoo_search_tables_pure.
Qed.

(** ** [cuckoo_dict::search] reads two slots *)

Lemma cuckoo_search_two_probe (w : cuckoo_dict.world) key :
  cuckoo_dict.search key w = (two_probe (candidate w.2 0 key) (candidate w.2 1 key) key, w).
Proof.
  unfold cuckoo_dict.search, candidate, two_probe. cbn [seq cuckoo_dict.search_tables].
  unfold bind, get, ret, throw.
  destruct (cuckoo_dict.slot w.2 0 _) as [e0|];
    [destruct (bool_decide (key_ e0 = key)); [done|]|];
    (destruct (cuckoo_dict.slot w.2 1 _) as [e1|];
      [by destruct (bool_decide (key_ e1 = key))|done]).
Qed.

(** The slot that [search] reads in table [i] is slot
    [hashFunctions[i].hash(key) mod capacity_] of that table. *)
Lemma cuckoo_candidate_cell (d : cuckoo_dict.t) (i : nat) key :
  capacity_ok (cuckoo_dict.capacity_ d) →
  candidate d i key
  = cell d i (Z.to_nat (hash (cuckoo_dict.hashFunctions d !!! i) key
                        mod cuckoo_dict.capacity_ d)).
Proof.
  intros Hc. unfold capacity_ok in Hc.
  unfold candidate, cuckoo_dict.index_of, cuckoo_dict.slot, cell.
  rewrite (to_u32_small (cuckoo_dict.capacity_ d)) by lia.
  pose proof (Z.mod_pos_bound (hash (cuckoo_dict.hashFunctions d !!! i) key)
                (cuckoo_dict.capacity_ d)).
  rewrite to_int_small by lia.
  rewrite !list_lookup_total_alt.
  destruct (cuckoo_dict.tables d !! i) as [row|]; simpl; [|done].
  by destruct (row !! _).
Qed.

(** C6: in a well-formed [cuckoo_dict], [search(key)] answers from two
    slots alone: slot [hashFunctions[0].hash(key) mod capacity_] of table 0
    and slot [hashFunctions[1].hash(key) mod capacity_] of table 1. It
    returns the value of the first of the two that holds the key, and throws
    [out_of_range] when neither does; it changes nothing; and a table with
    the same capacity and hash functions that agrees on these two slots gets
    the same answer, whatever its other slots hold. *)
Theorem cuckoo_search_reads_two_slots (w : cuckoo_dict.world) (key : Z) :
  cuckoo_wf w.2 →
  let index i :=
    Z.to_nat (hash (cuckoo_dict.hashFunctions w.2 !!! i) key
              mod cuckoo_dict.capacity_ w.2) in
  let s0 := cell w.2 0 (index 0%nat) in
  let s1 := cell w.2 1 (index 1%nat) in
  cuckoo_dict.search key w = (two_probe s0 s1 key, w)
  ∧ (∀ e, s0 = Some e → key_ e = key →
       (cuckoo_dict.search key w).1 = Val (value_ e))
  ∧ (∀ e, (∀ e0, s0 = Some e0 → key_ e0 ≠ key) → s1 = Some e → key_ e = key →
       (cuckoo_dict.search key w).1 = Val (value_ e))
  ∧ ((∀ e, s0 = Some e → key_ e ≠ key) → (∀ e, s1 = Some e → key_ e ≠ key) →
     (cuckoo_dict.search key w).1 = Throw out_of_range)
  ∧ ∀ w' : cuckoo_dict.world,
      cuckoo_dict.capacity_ w'.2 = cuckoo_dict.capacity_ w.2 →
      cuckoo_dict.hashFunctions w'.2 = cuckoo_dict.hashFunctions w.2 →
      cell w'.2 0 (index 0%nat) = s0 → cell w'.2 1 (index 1%nat) = s1 →
      (cuckoo_dict.search key w').1 = (cuckoo_dict.search key w).1.
Proof.
  intros [Hc _] index s0 s1.
  assert (cuckoo_dict.search key w = (two_probe s0 s1 key, w)) as Hsearch.
  { rewrite cuckoo_search_two_probe.
    by rewrite !(cuckoo_candidate_cell w.2 _ key Hc). }
  split; [exact Hsearch|]. rewrite Hsearch. cbn [fst].
  split; [|split; [|split]].
  - intros e -> Hk. unfold two_probe. by rewrite bool_decide_true.
  - intros e Hnot -> Hk. unfold two_probe. destruct s0 as [e0|].
    + rewrite (bool_decide_false (key_ e0 = key)) by by apply Hnot.
      by rewrite bool_decide_true.
    + by rewrite bool_decide_true.
  - intros H0 H1. unfold two_probe.
    destruct s0 as [e0|]; [rewrite (bool_decide_false (key_ e0 = key)) by by apply H0|];
      (destruct s1 as [e1|]; [|done]);
      by rewrite (bool_decide_false (key_ e1 = key)) by by apply H1.
  - intros w' Hcap Hh H0 H1. rewrite cuckoo_search_two_probe. cbn [fst].
    rewrite <- Hcap in Hc.
    rewrite !(cuckoo_candidate_cell w'.2 _ key Hc), Hcap, Hh.
    fold (index 0%nat) (index 1%nat). by rewrite H0, H1.
Qed.

(** Three keys in [cuckoo_dict(4)]: key 7 is in slot 3 of table 0. *)
Lemma spread_keys_table :
  cuckoo_wf spread_keys.2
  ∧ cuckoo_dict.tables spread_keys.2
    = [[Some (Entry 8 80); Some (Entry 9 90); None; Some (Entry 7 70)];
       [None; None; None; None]].
Proof.
  split; [|vm_compute; reflexivity].
  split; [|split].
  - vm_compute. split; reflexivity.
  - vm_compute. reflexivity.
  - vm_compute. repeat constructor.
Qed.

Lemma cuckoo_search_reads_two_slots_witness :
  (cuckoo_dict.search 7 spread_keys).1 = Val 70.
Proof.
  apply (proj1 (proj2 (cuckoo_search_reads_two_slots spread_keys 7
                         (proj1 spread_keys_table))) (Entry 7 70)).
  - vm_compute. reflexivity.
  - reflexivity.
Defined.

(** ** [chain_dict] *)

Lemma to_u32_capacity c : capacity_ok c → to_u32 (to_int c) = c.
Proof.
  unfold capacity_ok. intros H. rewrite to_u32_to_int, to_u32_small; lia.
Qed.

Lemma poly2_hash_range (h : poly2_hash_func) key : 0 ≤ hash h key < 2 ^ 32.
Proof. unfold hash, poly2_hash. apply to_u32_range. Qed.

Lemma chain_new_shape {T} c g :
  let d := (chain_dict.new (T:=T) c g).1 in
  chain_dict.capacity_ d = to_int c
  ∧ chain_dict.entries d = replicate (Z.to_nat c) [].
Proof. unfold chain_dict.new. by destruct (new_poly2 g). Qed.

Lemma chain_bucket_index_range {T} (d : chain_dict.t T) key :
  0 < to_u32 (chain_dict.capacity_ d) →
  0 ≤ chain_dict.bucket_index d key < to_u32 (chain_dict.capacity_ d).
Proof.
  intros H. unfold chain_dict.bucket_index. by apply Z.mod_pos_bound.
Qed.

Lemma chain_set_fields {T} (d : chain_dict.t T) key val :
  let d' := (chain_dict.set key val d).2 in
  chain_dict.hashFunction d' = chain_dict.hashFunction d
  ∧ chain_dict.capacity_ d' = chain_dict.capacity_ d
  ∧ length (chain_dict.entries d') = length (chain_dict.entries d).
Proof.
  unfold chain_dict.set, bind, get, put. simpl. by rewrite length_alter.
Qed.

Lemma chain_set_placed {T} (d : chain_dict.t T) key val :
  0 < to_u32 (chain_dict.capacity_ d) →
  chain_placed d → chain_placed (chain_dict.set key val d).2.
Proof.
  intros Hc Hp i j b e Hb He.
  pose proof (chain_bucket_index_range d key Hc) as Hr.
  unfold chain_dict.set, bind, get, put in Hb. cbn in Hb.
  change (chain_dict.bucket_index (chain_dict.set key val d).2 (key_ e))
    with (chain_dict.bucket_index d (key_ e)).
  destruct (decide (i = Z.to_nat (chain_dict.bucket_index d key))) as [->|Hne].
  - rewrite list_lookup_alter_eq in Hb.
    destruct (chain_dict.entries d !! _) as [b0|] eqn:Hb0; [|done].
    injection Hb as <-. apply lookup_app_Some in He as [He|[_ He]].
    + by eapply Hp.
    + apply list_lookup_singleton_Some in He as [_ <-]. simpl. lia.
  - rewrite list_lookup_alter_ne in Hb by done. by eapply Hp.
Qed.

Lemma chain_sets_invariant {T} (ops : list (Z * T)) : ∀ d,
  0 < to_u32 (chain_dict.capacity_ d) → chain_placed d →
  let d' := chain_sets ops d in
  chain_dict.hashFunction d' = chain_dict.hashFunction d
  ∧ chain_dict.capacity_ d' = chain_dict.capacity_ d
  ∧ length (chain_dict.entries d') = length (chain_dict.entries d)
  ∧ chain_placed d'.
Proof.
  induction ops as [|[k v] ops IH]; intros d Hc Hp; [done|].
  cbn [chain_sets foldl]. cbn [fst snd].
  destruct (chain_set_fields d k v) as (Hh & Hcap & Hlen).
  destruct (IH (chain_dict.set k v d).2) as (Hh' & Hcap' & Hlen' & Hp').
  - by rewrite Hcap.
  - by apply chain_set_placed.
  - unfold chain_sets in *. cbn zeta in *.
    split; [congruence|]. split; [congruence|]. split; [congruence|done].
Qed.

(** C7: from the constructor on, after any sequence of calls of [set], the
    hash function and the capacity are the ones of the constructor, and
    every stored entry is in the bucket numbered [hash(key) % capacity]. *)
Theorem chain_entries_in_their_bucket (capacity : Z) (g : rand_state)
    (ops : list (Z * Z)) (i j : nat) (b : list (entry Z)) (e : entry Z) :
  capacity_ok capacity →
  let d0 := (chain_dict.new capacity g).1 in
  let d := chain_sets ops d0 in
  chain_dict.entries d !! i = Some b → b !! j = Some e →
  chain_dict.hashFunction d = chain_dict.hashFunction d0
  ∧ Z.of_nat (length (chain_dict.entries d)) = capacity
  ∧ Z.of_nat i = hash (chain_dict.hashFunction d0) (key_ e) mod capacity.
Proof.
  intros Hc d0 d Hb He.
  destruct (chain_new_shape (T:=Z) capacity g) as [Hcap Hent]. fold d0 in Hcap, Hent.
  assert (to_u32 (chain_dict.capacity_ d0) = capacity) as Hu
    by (rewrite Hcap; by apply to_u32_capacity).
  destruct (chain_sets_invariant ops d0) as (Hh & Hcap' & Hlen & Hp).
  - rewrite Hu. apply Hc.
  - intros i' j' b' e' Hb'. rewrite Hent in Hb'.
    apply lookup_replicate in Hb' as [-> _]. by rewrite lookup_nil.
  - fold d in Hh, Hcap', Hlen, Hp. split; [done|]. split.
    + rewrite Hlen, Hent, length_replicate. unfold capacity_ok in Hc. lia.
    + rewrite (Hp i j b e Hb He). unfold chain_dict.bucket_index.
      by rewrite Hh, Hcap', Hu.
Qed.

Lemma chain_scan_app {T} key (b1 b2 : list (entry T)) :
  chain_dict.scan key (b1 ++ b2)
  = match chain_dict.scan key b1 with
    | Some v => Some v
    | None => chain_dict.scan key b2
    end.
Proof.
  induction b1 as [|e b1 IH]; [done|]. simpl. by destruct (key_ e =? key).
Qed.

Lemma chain_set_entries {T} (d : chain_dict.t T) key val :
  chain_dict.entries (chain_dict.set key val d).2
  = alter (λ b, b ++ [Entry key val]) (Z.to_nat (chain_dict.bucket_index d key))
      (chain_dict.entries d).
Proof. done. Qed.

Lemma chain_set_bucket_index {T} (d : chain_dict.t T) key val key' :
  chain_dict.bucket_index (chain_dict.set key val d).2 key'
  = chain_dict.bucket_index d key'.
Proof. done. Qed.

Lemma chain_search_scan {T} (d : chain_dict.t T) key b :
  chain_dict.entries d !! Z.to_nat (chain_dict.bucket_index d key) = Some b →
  (chain_dict.search key d).1
  = match chain_dict.scan key b with
    | Some v => Val v
    | None => Throw out_of_range
    end.
Proof.
  intros Hb. unfold chain_dict.search, bind, get, chain_dict.bucket.
  rewrite (list_lookup_total_correct _ _ _ Hb).
  by destruct (chain_dict.scan key b).
Qed.

(** C1, as the code has it: [chain_dict::set] appends without looking for
    the key, and [search] returns the first match, so after [set(k, v)] and
    [set(k, v2)] on a new table [search(k)] still returns [v]. *)
Theorem chain_set_twice_keeps_first (capacity : Z) (g : rand_state) (k v v2 : Z) :
  capacity_ok capacity →
  let d0 := (chain_dict.new capacity g).1 in
  let d1 := (chain_dict.set k v d0).2 in
  let d2 := (chain_dict.set k v2 d1).2 in
  (chain_dict.search k d1).1 = Val v ∧ (chain_dict.search k d2).1 = Val v.
Proof.
  intros Hc d0 d1 d2.
  destruct (chain_new_shape (T:=Z) capacity g) as [Hcap Hent]. fold d0 in Hcap, Hent.
  clearbody d0.
  assert (to_u32 (chain_dict.capacity_ d0) = capacity) as Hu
    by (rewrite Hcap; by apply to_u32_capacity).
  pose proof (chain_bucket_index_range d0 k) as Hr. rewrite Hu in Hr.
  specialize (Hr (proj1 Hc)).
  assert (Z.to_nat (chain_dict.bucket_index d0 k) < Z.to_nat capacity)%nat as Hix by lia.
  assert (chain_dict.entries d1 !! Z.to_nat (chain_dict.bucket_index d1 k)
          = Some [Entry k v]) as H1.
  { subst d1. rewrite chain_set_bucket_index, chain_set_entries.
    by rewrite list_lookup_alter_eq, Hent, lookup_replicate_2. }
  assert (chain_dict.entries d2 !! Z.to_nat (chain_dict.bucket_index d2 k)
          = Some [Entry k v; Entry k v2]) as H2.
  { subst d2. rewrite chain_set_bucket_index, chain_set_entries.
    by rewrite list_lookup_alter_eq, H1. }
  rewrite (chain_search_scan _ _ _ H1), (chain_search_scan _ _ _ H2). simpl.
  by rewrite Z.eqb_refl.
Qed.

Lemma chain_set_twice_keeps_first_witness :
  let d0 := (chain_dict.new 4 example_rand).1 in
  let d1 := (chain_dict.set 1 10 d0).2 in
  let d2 := (chain_dict.set 1 20 d1).2 in
  (chain_dict.search 1 d1).1 = Val 10 ∧ (chain_dict.search 1 d2).1 = Val 10.
Proof.
  apply (chain_set_twice_keeps_first 4 example_rand 1 10 20).
  unfold capacity_ok. lia.
Defined.

Lemma chain_entries_in_their_bucket_witness :
  let d0 := (chain_dict.new 4 example_rand).1 in
  let d := chain_sets [(1, 10); (5, 50)] d0 in
  chain_dict.hashFunction d = chain_dict.hashFunction d0
  ∧ Z.of_nat (length (chain_dict.entries d)) = 4
  ∧ Z.of_nat 1 = hash (chain_dict.hashFunction d0) (key_ (Entry 5 50)) mod 4.
Proof.
  apply (chain_entries_in_their_bucket 4 example_rand [(1, 10); (5, 50)]
           1 1 [Entry 1 10; Entry 5 50] (Entry 5 50)).
  - unfold capacity_ok. lia.
  - vm_compute. reflexivity.
  - reflexivity.
Defined.

(** ** [lp_dict] on a full table *)

Lemma lp_new_shape c g :
  let d := (lp_dict.new (T:=Z) c g).1 in
  lp_dict.capacity_ d = to_int (2 * c)
  ∧ lp_dict.entries d = replicate (Z.to_nat (2 * c)) None.
Proof. unfold lp_dict.new. by destruct (new_poly5 g). Qed.

(** The table after [entries[index] = new entry<T>(key, val)]. *)
Lemma lp_set_result fuel key val (d : lp_dict.t Z) :
  lp_dict.set fuel key val d
  = match lp_dict.probe fuel key (lp_dict.home d key) d with
    | (Val index, d') =>
        (Val tt, lp_dict.mk (<[Z.to_nat index := Some (Entry key val)]> (lp_dict.entries d'))
                   (lp_dict.hashFunction d') (lp_dict.capacity_ d'))
    | (Throw e, d') => (Throw e, d')
    | (Spin, d') => (Spin, d')
    end.
Proof.
  unfold lp_dict.set, bind, get, put.
  by destruct (lp_dict.probe _ _ _ _) as [[index|e|] d'].
Qed.

Lemma lp_home_range {T} (d : lp_dict.t T) key :
  lp_wf d → 0 ≤ lp_dict.home d key < lp_dict.capacity_ d.
Proof.
  intros [Hc _]. unfold lp_dict.home. unfold capacity_ok in Hc.
  rewrite (to_u32_small (lp_dict.capacity_ d)) by lia.
  pose proof (Z.mod_pos_bound (hash (lp_dict.hashFunction d) key) (lp_dict.capacity_ d)).
  rewrite to_int_small; lia.
Qed.

Lemma lp_next_range c index : 0 < c → 0 ≤ index < c → 0 ≤ Z.rem (index + 1) c < c.
Proof. intros. apply Z.rem_bound_pos; lia. Qed.

Lemma lp_slot_lookup {T} (d : lp_dict.t T) index :
  lp_wf d → 0 ≤ index < lp_dict.capacity_ d →
  lp_dict.entries d !! Z.to_nat index = Some (lp_dict.slot d index).
Proof.
  intros [_ Hl] Hi. unfold lp_dict.slot.
  destruct (lookup_lt_is_Some_2 (lp_dict.entries d) (Z.to_nat index)) as [x Hx]; [lia|].
  by rewrite (list_lookup_total_correct _ _ _ Hx).
Qed.

Lemma lp_probe_full_spins {T} (d : lp_dict.t T) key :
  lp_wf d → lp_full d → lp_absent d key →
  ∀ fuel index, 0 ≤ index < lp_dict.capacity_ d →
    lp_dict.probe fuel key index d = (Spin, d).
Proof.
  intros Hwf Hfull Habs fuel.
  induction fuel as [|fuel IH]; intros index Hi; cbn [lp_dict.probe]; [done|].
  unfold bind, get. pose proof (lp_slot_lookup d index Hwf Hi) as Hs.
  destruct (Forall_lookup_1 _ _ _ _ Hfull Hs) as [e He].
  pose proof (Forall_lookup_1 _ _ _ _ Habs Hs e He) as Hne.
  rewrite He, bool_decide_true by done.
  apply IH. apply lp_next_range; [apply Hwf|done].
Qed.

(** C3, as the code has it: when every slot is occupied and the key is
    absent, [lp_dict::set] throws nothing and stores nothing; whatever the
    fuel, it is still probing. *)
Theorem lp_set_on_full_table_spins (fuel : nat) (d : lp_dict.t Z) (key val : Z) :
  lp_wf d → lp_full d → lp_absent d key →
  lp_dict.set fuel key val d = (Spin, d).
Proof.
  intros Hwf Hfull Habs. unfold lp_dict.set, bind, get.
  by rewrite (lp_probe_full_spins d key Hwf Hfull Habs fuel _ (lp_home_range d key Hwf)).
Qed.

(** C4, as the code has it: when every slot is occupied and the key is
    absent, [lp_dict::search] does not throw [out_of_range]; whatever the
    fuel, it is still probing. *)
Theorem lp_search_on_full_table_spins (fuel : nat) (d : lp_dict.t Z) (key : Z) :
  lp_wf d → lp_full d → lp_absent d key →
  lp_dict.search fuel key d = (Spin, d).
Proof.
  intros Hwf Hfull Habs. unfold lp_dict.search, bind, get.
  by rewrite (lp_probe_full_spins d key Hwf Hfull Habs fuel _ (lp_home_range d key Hwf)).
Qed.

(** [lp_dict(1)] is full after two keys, whatever its hash function. *)
Lemma lp_two_sets_fill (g : rand_state) :
  ∃ e0 e1 h,
    lp_two_sets 2 g = lp_dict.mk [Some e0; Some e1] h 2
    ∧ key_ e0 ≠ 2 ∧ key_ e1 ≠ 2.
Proof.
  unfold lp_two_sets.
  destruct (lp_new_shape 1 g) as [Hcap Hent]. cbn zeta in Hcap, Hent.
  destruct (lp_dict.new 1 g) as [[entries h c] g']. cbn [fst lp_dict.capacity_
    lp_dict.entries] in *. subst entries c.
  change (to_int (2 * 1)) with 2. change (Z.to_nat (2 * 1)) with 2%nat.
  cbn [replicate].
  set (d0 := lp_dict.mk [None; None] h 2).
  assert (∀ (d : lp_dict.t Z) key, lp_dict.capacity_ d = 2 →
            lp_dict.home d key = 0 ∨ lp_dict.home d key = 1) as Hhome.
  { intros d key Hc. unfold lp_dict.home. rewrite Hc.
    change (to_u32 2) with 2.
    pose proof (Z.mod_pos_bound (hash (lp_dict.hashFunction d) key) 2).
    rewrite to_int_small by lia. lia. }
  rewrite !lp_set_result.
  destruct (Hhome d0 0 eq_refl) as [Ha|Ha]; rewrite Ha;
    cbn [lp_dict.probe]; unfold bind, get, ret; cbn;
    match goal with
    | |- context [lp_dict.home ?d 1] =>
        destruct (Hhome d 1 eq_refl) as [Hb|Hb]; rewrite Hb
    end; cbn; eexists _, _, _; (split; [reflexivity|split; simpl; lia]).
Qed.

Lemma lp_two_sets_always_full (g : rand_state) :
  lp_wf (lp_two_sets 2 g) ∧ lp_full (lp_two_sets 2 g) ∧ lp_absent (lp_two_sets 2 g) 2.
Proof.
  destruct (lp_two_sets_fill g) as (e0 & e1 & h & -> & H0 & H1).
  split; [|split].
  - unfold lp_wf, capacity_ok. simpl. lia.
  - repeat constructor; by eexists.
  - repeat constructor; by intros e [= <-].
Qed.

Lemma lp_set_on_full_table_spins_witness :
  lp_dict.set 1000 2 3 (lp_two_sets 2 example_rand)
  = (Spin, lp_two_sets 2 example_rand).
Proof.
  apply lp_set_on_full_table_spins; apply lp_two_sets_always_full.
Defined.

Lemma lp_search_on_full_table_spins_witness :
  lp_dict.search 1000 2 (lp_two_sets 2 example_rand)
  = (Spin, lp_two_sets 2 example_rand).
Proof.
  apply lp_search_on_full_table_spins; apply lp_two_sets_always_full.
Defined.

(** ** [cuckoo_dict]: slots *)

Lemma tabular_hash_nonneg (h : tabular_hash_func) key : 0 ≤ hash h key.
Proof.
  unfold hash, tabular_hash.
  assert (∀ l acc, 0 ≤ acc → 0 ≤ foldl (tab_round (tab_t h) key) acc l) as H.
  { induction l as [|i l IH]; intros acc Hacc; simpl; [done|].
    apply IH. unfold tab_round. apply Z.lxor_nonneg.
    pose proof (to_u32_range
      ((tab_t h !!! i) !!! Z.to_nat (Z.land (Z.shiftr key (Z.of_nat i * 8)) 255))).
    unfold tab_word. lia. }
  by apply H.
Qed.

Lemma cuckoo_index_range d i key :
  cuckoo_wf d →
  0 ≤ cuckoo_dict.index_of d i key < cuckoo_dict.capacity_ d.
Proof.
  intros [Hc _]. unfold cuckoo_dict.index_of. unfold capacity_ok in Hc.
  rewrite (to_u32_small (cuckoo_dict.capacity_ d)) by lia.
  pose proof (Z.mod_pos_bound (hash (cuckoo_dict.hashFunctions d !!! i) key)
                (cuckoo_dict.capacity_ d)).
  rewrite to_int_small; lia.
Qed.

Lemma cuckoo_slot_cell d i index :
  cuckoo_dict.slot d i index = cell d i (Z.to_nat index).
Proof.
  unfold cuckoo_dict.slot, cell. rewrite !list_lookup_total_alt.
  destruct (cuckoo_dict.tables d !! i) as [row|]; simpl; [|done].
  by destruct (row !! Z.to_nat index).
Qed.

Lemma cuckoo_cell_range d i j e :
  cuckoo_wf d → cell d i j = Some e →
  (i < 2)%nat ∧ 0 ≤ Z.of_nat j < cuckoo_dict.capacity_ d.
Proof.
  intros (_ & Hl & Hrows) Hc. unfold cell in Hc.
  destruct (cuckoo_dict.tables d !! i) as [row|] eqn:Hrow; [|done].
  destruct (row !! j) as [p|] eqn:Hp; [|done].
  apply lookup_lt_Some in Hp. pose proof (lookup_lt_Some _ _ _ Hrow).
  pose proof (Forall_lookup_1 _ _ _ _ Hrows Hrow). simpl in *. lia.
Qed.

Lemma cuckoo_store_wf d i index p :
  cuckoo_wf d → cuckoo_wf (cuckoo_dict.store d i index p).
Proof.
  intros (Hc & Hl & Hrows). unfold cuckoo_wf, cuckoo_dict.store. simpl.
  split; [done|]. split; [by rewrite length_alter|].
  apply Forall_lookup_2. intros i' row Hrow.
  destruct (decide (i = i')) as [->|Hne].
  - rewrite list_lookup_alter_eq in Hrow.
    destruct (cuckoo_dict.tables d !! i') as [row0|] eqn:Hrow0; [|done].
    injection Hrow as <-. rewrite length_insert.
    apply (Forall_lookup_1 _ _ _ _ Hrows Hrow0).
  - rewrite list_lookup_alter_ne in Hrow by done.
    apply (Forall_lookup_1 _ _ _ _ Hrows Hrow).
Qed.

Lemma cuckoo_cell_store d i index p i' j' :
  cuckoo_wf d → (i < 2)%nat → 0 ≤ index < cuckoo_dict.capacity_ d →
  cell (cuckoo_dict.store d i index p) i' j'
  = if decide (i' = i ∧ j' = Z.to_nat index) then p else cell d i' j'.
Proof.
  intros (Hc & Hl & Hrows) Hi Hindex. unfold cell, cuckoo_dict.store. simpl.
  destruct (decide (i = i')) as [<-|Hne].
  - rewrite list_lookup_alter_eq.
    destruct (lookup_lt_is_Some_2 (cuckoo_dict.tables d) i) as [row Hrow]; [lia|].
    rewrite Hrow. simpl.
    pose proof (Forall_lookup_1 _ _ _ _ Hrows Hrow) as Hlen. simpl in Hlen.
    destruct (decide (j' = Z.to_nat index)) as [->|Hj].
    + rewrite list_lookup_insert_eq by lia. by rewrite decide_True.
    + rewrite list_lookup_insert_ne by done. rewrite decide_False; [done|].
      intros [_ ?]. done.
  - rewrite list_lookup_alter_ne by done. rewrite decide_False; [done|].
    intros [? _]. done.
Qed.

Lemma cuckoo_stored_store d i index e x :
  cuckoo_wf d → (i < 2)%nat → 0 ≤ index < cuckoo_dict.capacity_ d →
  cuckoo_stored (cuckoo_dict.store d i index (Some e)) x
  ↔ x = e ∨ ∃ i' j', ¬ (i' = i ∧ j' = Z.to_nat index) ∧ cell d i' j' = Some x.
Proof.
  intros Hwf Hi Hindex. unfold cuckoo_stored. split.
  - intros (i' & j' & Hc). rewrite cuckoo_cell_store in Hc by done.
    destruct (decide _) as [_|Hne]; [left; congruence|right; eauto].
  - intros [->|(i' & j' & Hne & Hc)].
    + exists i, (Z.to_nat index). rewrite cuckoo_cell_store by done.
      by rewrite decide_True.
    + exists i', j'. rewrite cuckoo_cell_store by done. by rewrite decide_False.
Qed.

Lemma cuckoo_placed_store d i index e :
  cuckoo_wf d → (i < 2)%nat → cuckoo_placed d →
  index = cuckoo_dict.index_of d i (key_ e) →
  cuckoo_placed (cuckoo_dict.store d i index (Some e)).
Proof.
  intros Hwf Hi Hp -> i' j' x Hc.
  pose proof (cuckoo_index_range d i (key_ e) Hwf) as Hr.
  rewrite cuckoo_cell_store in Hc by done.
  change (cuckoo_dict.index_of (cuckoo_dict.store _ _ _ _) i' (key_ x))
    with (cuckoo_dict.index_of d i' (key_ x)).
  destruct (decide _) as [[-> ->]|Hne].
  - injection Hc as <-. lia.
  - by apply Hp.
Qed.

Lemma cuckoo_inv_store d i e :
  cuckoo_inv d → (i < 2)%nat → is_u32 (key_ e) → is_u32 (value_ e) →
  cuckoo_inv (cuckoo_dict.store d i (cuckoo_dict.index_of d i (key_ e)) (Some e)).
Proof.
  intros (Hwf & Hp & Hu) Hi Hk Hv.
  pose proof (cuckoo_index_range d i (key_ e) Hwf) as Hr.
  split; [by apply cuckoo_store_wf|]. split; [by apply cuckoo_placed_store|].
  intros x Hx. apply cuckoo_stored_store in Hx as [->|(i' & j' & _ & Hc)]; try done.
  apply Hu. by exists i', j'.
Qed.

(** ** [cuckoo_dict]: emptying the tables in [rehash] *)

Lemma cuckoo_collect_row i js : ∀ prev d,
  cuckoo_wf d → (i < 2)%nat →
  (∀ j, j ∈ js → Z.of_nat j < cuckoo_dict.capacity_ d) →
  let st := foldl (cuckoo_dict.collect_slot i) (prev, d) js in
  cuckoo_wf st.2
  ∧ cuckoo_dict.hashFunctions st.2 = cuckoo_dict.hashFunctions d
  ∧ cuckoo_dict.capacity_ st.2 = cuckoo_dict.capacity_ d
  ∧ (∀ i' j', cell st.2 i' j'
              = if decide (i' = i ∧ j' ∈ js) then None else cell d i' j')
  ∧ (∀ x, x ∈ st.1 ↔ x ∈ prev ∨ ∃ j, j ∈ js ∧ cell d i j = Some x).
Proof.
  induction js as [|j js IH]; intros prev d Hwf Hi Hjs; cbn [foldl].
  - simpl. split; [done|]. split; [done|]. split; [done|]. split.
    + intros i' j'. rewrite decide_False; [done|]. intros [_ H]. by apply elem_of_nil in H.
    + intros x. split; [by left|]. intros [?|(j & H & _)]; [done|]. by apply elem_of_nil in H.
  - assert (0 ≤ Z.of_nat j < cuckoo_dict.capacity_ d) as Hj.
    { split; [lia|]. apply Hjs. by left. }
    assert (∃ prev1 d1,
      cuckoo_dict.collect_slot i (prev, d) j = (prev1, d1)
      ∧ cuckoo_wf d1
      ∧ cuckoo_dict.hashFunctions d1 = cuckoo_dict.hashFunctions d
      ∧ cuckoo_dict.capacity_ d1 = cuckoo_dict.capacity_ d
      ∧ (∀ i' j', cell d1 i' j' = if decide (i' = i ∧ j' = j) then None else cell d i' j')
      ∧ (∀ x, x ∈ prev1 ↔ x ∈ prev ∨ cell d i j = Some x)) as
      (prev1 & d1 & Hstep & Hwf1 & Hh1 & Hc1 & Hcell1 & Hprev1).
    { unfold cuckoo_dict.collect_slot. rewrite cuckoo_slot_cell, Nat2Z.id.
      destruct (cell d i j) as [e|] eqn:He.
      - eexists _, _. split; [done|]. split; [by apply cuckoo_store_wf|].
        split; [done|]. split; [done|]. split.
        + intros i' j'. rewrite cuckoo_cell_store by done. by rewrite Nat2Z.id.
        + intros x. rewrite elem_of_app, list_elem_of_singleton. split.
          * intros [? | ->]; [by left|by right].
          * intros [? | Hx]; [by left|right; congruence].
      - eexists _, _. split; [done|]. split; [done|]. split; [done|].
        split; [done|]. split.
        + intros i' j'. destruct (decide _) as [[-> ->]|]; done.
        + intros x. split; [by left|]. by intros [?|?]. }
    rewrite Hstep. destruct (IH prev1 d1 Hwf1 Hi) as (Hwf' & Hh' & Hc' & Hcell' & Hprev').
    { intros j' Hj'. rewrite Hc1. apply Hjs. by right. }
    cbn zeta in *. split; [done|]. split; [congruence|]. split; [congruence|]. split.
    + intros i' j'. rewrite Hcell', Hcell1.
      destruct (decide (i' = i ∧ j' ∈ js)) as [[-> Hin]|Hn1].
      * rewrite decide_True; [done|]. split; [done|by right].
      * destruct (decide (i' = i ∧ j' = j)) as [[-> ->]|Hn2].
        -- rewrite decide_True; [done|]. split; [done|by left].
        -- rewrite decide_False; [done|]. intros [-> Hin].
           apply elem_of_cons in Hin as [->|Hin]; [by apply Hn2|by apply Hn1].
    + intros x. rewrite Hprev', Hprev1. split.
      * intros [[?|?]|(j' & Hin & Hx)]; [by left|right; exists j; split; [by left|done]|].
        rewrite Hcell1 in Hx. destruct (decide _); [done|].
        right. exists j'. split; [by right|done].
      * intros [?|(j' & Hin & Hx)]; [by left; left|].
        apply elem_of_cons in Hin as [->|Hin]; [by left; right|].
        destruct (decide (j' = j)) as [->|Hne]; [by left; right|].
        right. exists j'. split; [done|]. rewrite Hcell1.
        rewrite decide_False; [done|]. intros [_ ?]. done.
Qed.

Lemma cuckoo_collect_spec d :
  cuckoo_wf d →
  let st := cuckoo_dict.collect d in
  cuckoo_wf st.2
  ∧ cuckoo_dict.hashFunctions st.2 = cuckoo_dict.hashFunctions d
  ∧ cuckoo_dict.capacity_ st.2 = cuckoo_dict.capacity_ d
  ∧ (∀ i j, cell st.2 i j = None)
  ∧ (∀ x, x ∈ st.1 ↔ cuckoo_stored d x).
Proof.
  intros Hwf. unfold cuckoo_dict.collect. cbn [seq foldl].
  set (js := seq 0 (Z.to_nat (cuckoo_dict.capacity_ d))).
  assert (∀ c j, j ∈ seq 0 (Z.to_nat c) ↔ Z.of_nat j < c) as Hseq.
  { intros c j. rewrite elem_of_seq. lia. }
  destruct (cuckoo_collect_row 0 js [] d Hwf) as (Hwf0 & Hh0 & Hc0 & Hcell0 & Hprev0); [lia| |].
  { intros j Hj. by apply Hseq. }
  destruct (foldl (cuckoo_dict.collect_slot 0) ([], d) js) as [prev0 d0]. cbn [fst snd] in *.
  destruct (cuckoo_collect_row 1 js prev0 d0 Hwf0) as (Hwf1 & Hh1 & Hc1 & Hcell1 & Hprev1); [lia| |].
  { intros j Hj. rewrite Hc0. by apply Hseq. }
  destruct (foldl (cuckoo_dict.collect_slot 1) (prev0, d0) js) as [prev1 d1]. cbn [fst snd] in *.
  split; [done|]. split; [congruence|]. split; [congruence|]. split.
  - intros i j. destruct (cell d1 i j) as [e|] eqn:He; [|done].
    destruct (cuckoo_cell_range d1 i j e Hwf1 He) as [Hi Hj].
    rewrite Hcell1, Hcell0 in He.
    assert (j ∈ js) as Hin by (apply Hseq; lia).
    destruct (decide (i = 1%nat ∧ j ∈ js)) as [|Hn1]; [done|].
    destruct (decide (i = 0%nat ∧ j ∈ js)) as [|Hn0]; [done|].
    assert (i = 0 ∨ i = 1)%nat as [->| ->] by lia; [by destruct Hn0|by destruct Hn1].
  - intros x. rewrite Hprev1, Hprev0. unfold cuckoo_stored. split.
    + intros [[H|(j & _ & Hx)]|(j & _ & Hx)].
      * by apply elem_of_nil in H.
      * by exists 0%nat, j.
      * rewrite Hcell0 in Hx. destruct (decide _); [done|]. by exists 1%nat, j.
    + intros (i & j & Hx).
      destruct (cuckoo_cell_range d i j x Hwf Hx) as [Hi Hj].
      assert (j ∈ js) as Hin by (apply Hseq; lia).
      assert (i = 0 ∨ i = 1)%nat as [->| ->] by lia.
      * left. right. by exists j.
      * right. exists j. split; [done|]. rewrite Hcell0.
        rewrite decide_False; [done|]. intros [? _]. done.
Qed.

(** ** [cuckoo_dict]: what [set] and [rehash] keep *)

Lemma entry_eta {T} (e : entry T) : Entry (key_ e) (value_ e) = e.
Proof. by destruct e. Qed.

Lemma u32_via_int x : is_u32 x → to_u32 (to_int x) = x.
Proof. intros H. rewrite to_u32_to_int. by apply to_u32_small. Qed.

Lemma cuckoo_for_each_spec set_ :
  cuckoo_set_spec set_ →
  ∀ l (w w' : cuckoo_dict.world),
    cuckoo_inv w.2 →
    Forall (λ e, is_u32 (key_ e) ∧ is_u32 (value_ e)) l →
    for_each (λ e, set_ (key_ e) (value_ e)) l w = (Val tt, w') →
    cuckoo_inv w'.2
    ∧ cuckoo_dict.capacity_ w'.2 = cuckoo_dict.capacity_ w.2
    ∧ ∀ x, cuckoo_stored w'.2 x ↔ cuckoo_stored w.2 x ∨ x ∈ l.
Proof.
  intros Hset. induction l as [|e l IH]; intros w w' Hinv Hl Hrun.
  - injection Hrun as <-. split; [done|]. split; [done|].
    intros x. split; [by left|]. intros [?|H]; [done|]. by apply elem_of_nil in H.
  - cbn [for_each] in Hrun. unfold bind in Hrun.
    destruct (set_ (key_ e) (value_ e) w) as [[[]|?|] w1] eqn:Hstep; try done.
    inversion Hl as [|? ? [Hk Hv] Hl']; subst.
    destruct (Hset _ _ _ _ Hinv Hk Hv Hstep) as (Hinv1 & Hc1 & Hs1).
    destruct (IH _ _ Hinv1 Hl' Hrun) as (Hinv' & Hc' & Hs').
    split; [done|]. split; [congruence|].
    intros x. rewrite Hs', Hs1, entry_eta, elem_of_cons. tauto.
Qed.

Lemma cuckoo_rehash_spec set_ :
  cuckoo_set_spec set_ →
  ∀ key val (w w' : cuckoo_dict.world),
    cuckoo_wf w.2 → cuckoo_u32 w.2 → is_u32 key → is_u32 val →
    cuckoo_dict.rehash set_ key val w = (Val tt, w') →
    cuckoo_inv w'.2
    ∧ cuckoo_dict.capacity_ w'.2 = cuckoo_dict.capacity_ w.2
    ∧ ∀ x, cuckoo_stored w'.2 x ↔ cuckoo_stored w.2 x ∨ x = Entry key val.
Proof.
  intros Hset key val [g d] w' Hwf Hu Hk Hv Hrun. cbn [fst snd] in *.
  unfold cuckoo_dict.rehash, bind, get in Hrun. cbn [fst snd] in Hrun.
  destruct (new_tabular_pair g) as [hs g'].
  set (d1 := cuckoo_dict.mk (cuckoo_dict.tables d) [hs.1; hs.2]
               (cuckoo_dict.capacity_ d)) in *.
  assert (cuckoo_wf d1) as Hwf1 by done.
  destruct (cuckoo_collect_spec d1 Hwf1) as (Hwf2 & _ & Hc2 & Hcell2 & Hprev).
  destruct (cuckoo_dict.collect d1) as [previousKeys d2]. cbn [fst snd] in *.
  unfold put in Hrun.
  assert (cuckoo_inv d2) as Hinv2.
  { split; [done|]. split.
    - intros i j e He. by rewrite Hcell2 in He.
    - intros e (i & j & He). by rewrite Hcell2 in He. }
  assert (Forall (λ e, is_u32 (key_ e) ∧ is_u32 (value_ e))
            (previousKeys ++ [Entry key val])) as Hall.
  { apply Forall_app. split; [|constructor; [by split|constructor]].
    apply List.Forall_forall. intros e He. apply Hu.
    apply list_elem_of_In in He. by apply Hprev. }
  destruct (cuckoo_for_each_spec set_ Hset _ (g', d2) w' Hinv2 Hall Hrun)
    as (Hinv' & Hc' & Hs').
  cbn [fst snd] in *. split; [done|]. split; [by rewrite Hc', Hc2|].
  intros x. rewrite Hs', elem_of_app, list_elem_of_singleton, Hprev.
  split.
  - intros [(i & j & He)|[?|?]]; [by rewrite Hcell2 in He|by left|by right].
  - intros [?|?]; [by right; left|by right; right].
Qed.

Lemma cuckoo_set_loop_spec fuel : ∀ key val i temp (w w' : cuckoo_dict.world),
  cuckoo_inv w.2 → (i < 2)%nat → is_u32 key → is_u32 val →
  cuckoo_dict.set_loop fuel key val i temp w = (Val tt, w') →
  cuckoo_inv w'.2
  ∧ cuckoo_dict.capacity_ w'.2 = cuckoo_dict.capacity_ w.2
  ∧ ∀ x, cuckoo_stored w'.2 x ↔ cuckoo_stored w.2 x ∨ x = Entry key val.
Proof.
  induction fuel as [|fuel IH]; intros key val i temp [g d] w' Hinv Hi Hk Hv Hrun;
    cbn [cuckoo_dict.set_loop] in Hrun; [done|].
  unfold bind, get, put in Hrun. cbn [fst snd] in *.
  pose proof Hinv as (Hwf & Hp & Hu).
  pose proof (cuckoo_index_range d i key Hwf) as Hr.
  pose proof (cuckoo_inv_store d i (Entry key val) Hinv Hi Hk Hv) as Hinv1.
  pose proof (λ x, cuckoo_stored_store d i _ (Entry key val) x Hwf Hi Hr) as Hs1.
  cbn [key_ value_] in Hinv1.
  set (index := cuckoo_dict.index_of d i key) in *.
  set (d1 := cuckoo_dict.store d i index (Some (Entry key val))) in *.
  rewrite cuckoo_slot_cell in Hrun.
  destruct (cell d i (Z.to_nat index)) as [e|] eqn:He.
  - assert (cuckoo_stored d e) as Hst by (by exists i, (Z.to_nat index)).
    destruct (Hu e Hst) as [Hke Hve].
    rewrite !u32_via_int in Hrun by done.
    assert (∀ x, cuckoo_stored d1 x ∨ x = Entry (key_ e) (value_ e)
                 ↔ cuckoo_stored d x ∨ x = Entry key val) as Hcomb.
    { intros x. rewrite Hs1, entry_eta. split.
      - intros [[?|(i' & j' & _ & Hx)] | ->]; [by right|left; by exists i', j'|by left].
      - intros [(i' & j' & Hx)|?]; [|by left; left].
        destruct (decide (i' = i ∧ j' = Z.to_nat index)) as [[-> ->]|Hne].
        + right. congruence.
        + left. right. by exists i', j'. }
    destruct (bool_decide (key_ e = to_u32 temp) && bool_decide (i = 1%nat)).
    + assert (cuckoo_set_spec (λ k v, cuckoo_dict.set_loop fuel k v 0%nat (to_int k)))
        as Hrec.
      { intros k v w0 w0' ? ? ? ?. eapply (IH k v 0%nat); eauto; lia. }
      destruct (cuckoo_rehash_spec _ Hrec _ _ (g, d1) w' (proj1 Hinv1)
                  (proj2 (proj2 Hinv1)) Hke Hve Hrun) as (Hinv' & Hc' & Hs').
      split; [done|]. split; [done|]. intros x. by rewrite Hs', <- Hcomb.
    + destruct (IH _ _ _ _ (g, d1) w' Hinv1 (ltac:(lia) : (1 - i < 2)%nat) Hke Hve Hrun)
        as (Hinv' & Hc' & Hs').
      split; [done|]. split; [done|]. intros x. by rewrite Hs', <- Hcomb.
  - injection Hrun as <-. cbn [fst snd]. split; [done|]. split; [done|].
    intros x. rewrite Hs1. split.
    + intros [?|(i' & j' & _ & Hx)]; [by right|left; by exists i', j'].
    + intros [(i' & j' & Hx)|?]; [|by left].
      right. exists i', j'. split; [|done]. intros [-> ->]. congruence.
Qed.

Lemma cuckoo_set_spec_holds fuel : cuckoo_set_spec (cuckoo_dict.set fuel).
Proof.
  intros k v w w' Hinv Hk Hv Hrun.
  eapply (cuckoo_set_loop_spec fuel k v 0%nat); eauto; lia.
Qed.

(** ** [cuckoo_dict]: [rehash] *)

Lemma cuckoo_new_shape c g :
  let d := (cuckoo_dict.new c g).2 in
  cuckoo_dict.tables d = replicate 2 (replicate (Z.to_nat c) None)
  ∧ cuckoo_dict.capacity_ d = to_int c.
Proof.
  unfold cuckoo_dict.new. destruct (new_tabular_pair g) as [[h0 h1] g']. done.
Qed.

Lemma cuckoo_new_empty c g i j : cell (cuckoo_dict.new c g).2 i j = None.
Proof.
  destruct (cuckoo_new_shape c g) as [Ht _]. unfold cell. rewrite Ht.
  destruct (replicate 2 _ !! i) as [row|] eqn:Hrow; [|done].
  apply lookup_replicate in Hrow as [-> _].
  destruct (replicate _ _ !! j) as [p|] eqn:Hp; [|done].
  by apply lookup_replicate in Hp as [-> _].
Qed.

Lemma cuckoo_new_inv c g : capacity_ok c → cuckoo_inv (cuckoo_dict.new c g).2.
Proof.
  intros Hc. destruct (cuckoo_new_shape c g) as [Ht Hcap].
  split; [|split].
  - unfold cuckoo_wf. rewrite Ht, Hcap, to_int_small by (unfold capacity_ok in Hc; lia).
    split; [done|]. split; [done|].
    apply List.Forall_forall. intros row Hrow. apply list_elem_of_In in Hrow.
    apply elem_of_replicate in Hrow as [-> _]. rewrite length_replicate.
    unfold capacity_ok in Hc. lia.
  - intros i j e He. by rewrite cuckoo_new_empty in He.
  - intros e (i & j & He). by rewrite cuckoo_new_empty in He.
Qed.

Lemma cuckoo_candidate_stored d i j x :
  cuckoo_placed d → cell d i j = Some x → candidate d i (key_ x) = Some x.
Proof.
  intros Hp Hc. unfold candidate. rewrite cuckoo_slot_cell.
  by rewrite <- (Hp i j x Hc), Nat2Z.id.
Qed.

Lemma cuckoo_search_finds (w : cuckoo_dict.world) x :
  cuckoo_inv w.2 → cuckoo_stored w.2 x →
  ∃ v, cuckoo_dict.search (key_ x) w = (Val v, w).
Proof.
  intros (Hwf & Hp & _) (i & j & Hc). rewrite cuckoo_search_two_probe.
  destruct (cuckoo_cell_range _ _ _ _ Hwf Hc) as [Hi _].
  pose proof (cuckoo_candidate_stored _ _ _ _ Hp Hc) as Hcand.
  unfold two_probe.
  assert (i = 0 ∨ i = 1)%nat as [-> | ->] by lia; rewrite Hcand.
  - rewrite bool_decide_true by done. eauto.
  - destruct (candidate w.2 0 (key_ x)) as [e0|];
      [destruct (bool_decide (key_ e0 = key_ x)); [eauto|]|];
      rewrite bool_decide_true by done; eauto.
Qed.

(** The round of [set] that detects the cycle calls [rehash] with the pair
    it has just taken out, and [rehash] re-inserts through [set]. *)
Lemma cuckoo_set_loop_detects fuel key val temp (w : cuckoo_dict.world) e :
  candidate w.2 1 key = Some e → is_u32 (key_ e) → is_u32 (value_ e) →
  key_ e = to_u32 temp →
  cuckoo_dict.set_loop (S fuel) key val 1 temp w
  = cuckoo_dict.rehash (cuckoo_dict.set fuel) (key_ e) (value_ e)
      (w.1, cuckoo_dict.store w.2 1 (cuckoo_dict.index_of w.2 1 key)
              (Some (Entry key val))).
Proof.
  intros Hc Hk Hv Ht. cbn [cuckoo_dict.set_loop]. unfold bind, get, put.
  unfold candidate in Hc. rewrite Hc, !u32_via_int by done.
  by rewrite !bool_decide_true by done.
Qed.

(** C5: a call of [rehash] that returns has drawn two new tabular hash
    functions from the generator, kept the capacity, taken every stored
    entry out of both tables, leaving them empty, and called [set] on each
    of them and then on the pair it was given; afterwards [search] finds
    every key that was stored and the key of that pair. *)
Theorem cuckoo_rehash_keeps_every_key (fuel : nat) (w w' : cuckoo_dict.world)
    (key val : Z) :
  cuckoo_wf w.2 → cuckoo_u32 w.2 → is_u32 key → is_u32 val →
  cuckoo_dict.rehash (cuckoo_dict.set fuel) key val w = (Val tt, w') →
  let hs := (new_tabular_pair w.1).1 in
  let g' := (new_tabular_pair w.1).2 in
  let fresh := cuckoo_dict.mk (cuckoo_dict.tables w.2) [hs.1; hs.2]
                 (cuckoo_dict.capacity_ w.2) in
  let previousKeys := (cuckoo_dict.collect fresh).1 in
  let emptied := (cuckoo_dict.collect fresh).2 in
  cuckoo_dict.rehash (cuckoo_dict.set fuel) key val w
    = for_each (λ e, cuckoo_dict.set fuel (key_ e) (value_ e))
        (previousKeys ++ [Entry key val]) (g', emptied)
  ∧ (∀ x, x ∈ previousKeys ↔ cuckoo_stored w.2 x)
  ∧ (∀ i j, cell emptied i j = None)
  ∧ cuckoo_dict.hashFunctions emptied = [hs.1; hs.2]
  ∧ cuckoo_dict.capacity_ w'.2 = cuckoo_dict.capacity_ w.2
  ∧ ∀ x, cuckoo_stored w.2 x ∨ x = Entry key val →
         ∃ v, cuckoo_dict.search (key_ x) w' = (Val v, w').
Proof.
  intros Hwf Hu Hk Hv Hrun hs g' fresh previousKeys emptied.
  destruct (cuckoo_rehash_spec _ (cuckoo_set_spec_holds fuel) _ _ _ _ Hwf Hu Hk Hv Hrun)
    as (Hinv' & Hc' & Hs').
  assert (cuckoo_wf fresh) as Hwf1 by done.
  destruct (cuckoo_collect_spec fresh Hwf1) as (_ & Hh & _ & Hcell & Hprev).
  split; [|split; [exact Hprev|split; [exact Hcell|split; [exact Hh|split; [exact Hc'|]]]]].
  - subst hs g' previousKeys emptied fresh.
    unfold cuckoo_dict.rehash at 1. unfold bind, get, put.
    destruct (new_tabular_pair w.1) as [hs g']. cbn [fst snd].
    by destruct (cuckoo_dict.collect _).
  - intros x Hx. apply cuckoo_search_finds; [exact Hinv'|]. by apply Hs'.
Qed.

Lemma two_colliding_keys_run :
  (cuckoo_dict.set 50 7 70 (cuckoo_dict.new 2 colliding_rand)).1 = Val tt
  ∧ (cuckoo_dict.set 50 8 80
       (cuckoo_dict.set 50 7 70 (cuckoo_dict.new 2 colliding_rand)).2).1 = Val tt
  ∧ cuckoo_dict.tables two_colliding_keys.2
    = [[Some (Entry 8 80); None]; [Some (Entry 7 70); None]].
Proof. vm_compute. done. Qed.

Lemma two_colliding_keys_inv : cuckoo_inv two_colliding_keys.2.
Proof.
  destruct two_colliding_keys_run as (H1 & H2 & _).
  unfold two_colliding_keys.
  set (w0 := cuckoo_dict.new 2 colliding_rand) in *.
  destruct (cuckoo_dict.set 50 7 70 w0) as [r1 w1] eqn:E1.
  simpl in H1, H2. subst r1.
  destruct (cuckoo_dict.set 50 8 80 w1) as [r2 w2] eqn:E2.
  simpl in H2. subst r2.
  assert (cuckoo_inv w0.2) as Hinv0 by (apply cuckoo_new_inv; unfold capacity_ok; lia).
  assert (is_u32 7 ∧ is_u32 70 ∧ is_u32 8 ∧ is_u32 80) as (H7 & H70 & H8 & H80)
    by (unfold is_u32; lia).
  destruct (cuckoo_set_spec_holds 50 7 70 w0 w1 Hinv0 H7 H70 E1) as (Hinv1 & _).
  destruct (cuckoo_set_spec_holds 50 8 80 w1 w2 Hinv1 H8 H80 E2) as (Hinv2 & _).
  cbn [snd]. rewrite E2. exact Hinv2.
Qed.

(** The scenario of the specification: with capacity 2 and three keys that
    collide in both tables, the third [set] goes through [rehash] (six
    rounds of evictions do not place the key) and then all three keys are
    found. *)
Example three_colliding_keys :
  let '(r, w) := cuckoo_dict.set 50 9 90 two_colliding_keys in
  (cuckoo_dict.set_loop 6 9 90 0 (to_int 9) two_colliding_keys).1 = Spin
  ∧ r = Val tt
  ∧ (cuckoo_dict.search 7 w).1 = Val 70
  ∧ (cuckoo_dict.search 8 w).1 = Val 80
  ∧ (cuckoo_dict.search 9 w).1 = Val 90.
Proof. vm_compute. done. Qed.

Lemma cuckoo_rehash_example :
  (cuckoo_dict.rehash (cuckoo_dict.set 50) 9 90 two_colliding_keys).1 = Val tt.
Proof. vm_compute. done. Qed.

Lemma cuckoo_rehash_keeps_every_key_witness :
  ∃ v, cuckoo_dict.search 7
         (cuckoo_dict.rehash (cuckoo_dict.set 50) 9 90 two_colliding_keys).2
       = (Val v, (cuckoo_dict.rehash (cuckoo_dict.set 50) 9 90 two_colliding_keys).2).
Proof.
  pose proof two_colliding_keys_inv as (Hwf & Hp & Hu).
  assert (is_u32 9 ∧ is_u32 90) as [H9 H90] by (unfold is_u32; lia).
  assert (cuckoo_dict.rehash (cuckoo_dict.set 50) 9 90 two_colliding_keys
          = (Val tt, (cuckoo_dict.rehash (cuckoo_dict.set 50) 9 90 two_colliding_keys).2))
    as Hrun.
  { rewrite <- cuckoo_rehash_example. apply surjective_pairing. }
  destruct (cuckoo_rehash_keeps_every_key 50 two_colliding_keys _ 9 90 Hwf Hu H9 H90 Hrun)
    as (_ & _ & _ & _ & _ & Hfind).
  apply (Hfind (Entry 7 70)). left. exists 1%nat, 0%nat.
  unfold cell. destruct two_colliding_keys_run as (_ & _ & ->). done.
Defined.

(** ** [cuckoo_dict]: setting a key twice *)

Lemma cuckoo_set_loop_empty_slot fuel key val i temp (w : cuckoo_dict.world) :
  candidate w.2 i key = None →
  cuckoo_dict.set_loop (S fuel) key val i temp w
  = (Val tt, (w.1, cuckoo_dict.store w.2 i (cuckoo_dict.index_of w.2 i key)
                     (Some (Entry key val)))).
Proof.
  intros Hc. cbn [cuckoo_dict.set_loop]. unfold bind, get, put.
  unfold candidate in Hc. by rewrite Hc.
Qed.

Lemma cuckoo_set_loop_evicts fuel key val temp (w : cuckoo_dict.world) e :
  candidate w.2 0 key = Some e → is_u32 (key_ e) → is_u32 (value_ e) →
  cuckoo_dict.set_loop (S fuel) key val 0 temp w
  = cuckoo_dict.set_loop fuel (key_ e) (value_ e) 1 temp
      (w.1, cuckoo_dict.store w.2 0 (cuckoo_dict.index_of w.2 0 key)
              (Some (Entry key val))).
Proof.
  intros Hc Hk Hv. cbn [cuckoo_dict.set_loop]. unfold bind, get, put.
  unfold candidate in Hc. rewrite Hc, !u32_via_int by done.
  by rewrite andb_false_r.
Qed.

Lemma cuckoo_candidate_store d i i' key e :
  cuckoo_wf d → (i < 2)%nat →
  candidate (cuckoo_dict.store d i (cuckoo_dict.index_of d i key) (Some e)) i' key
  = if decide (i' = i) then Some e else candidate d i' key.
Proof.
  intros Hwf Hi. unfold candidate. rewrite !cuckoo_slot_cell.
  change (cuckoo_dict.index_of (cuckoo_dict.store _ _ _ _) i' key)
    with (cuckoo_dict.index_of d i' key).
  pose proof (cuckoo_index_range d i key Hwf) as Hr.
  rewrite cuckoo_cell_store by done.
  destruct (decide (i' = i)) as [->|Hne].
  - by rewrite decide_True.
  - rewrite decide_False; [done|]. by intros [? _].
Qed.

(** C2, as the code has it: [cuckoo_dict::set] does not look for the key.
    On a new table, after [set(k, v1)] and [set(k, v2)] the key is live in
    two slots: with [v2] in its slot of table 0 and with [v1] in its slot of
    table 1. *)
Theorem cuckoo_set_twice_duplicates (capacity : Z) (g : rand_state)
    (fuel1 fuel2 : nat) (k v1 v2 : Z) :
  capacity_ok capacity → is_u32 k → is_u32 v1 →
  let w0 := cuckoo_dict.new capacity g in
  let w1 := (cuckoo_dict.set (S fuel1) k v1 w0).2 in
  let r2 := cuckoo_dict.set (S (S fuel2)) k v2 w1 in
  (cuckoo_dict.set (S fuel1) k v1 w0).1 = Val tt
  ∧ r2.1 = Val tt
  ∧ candidate r2.2.2 0 k = Some (Entry k v2)
  ∧ candidate r2.2.2 1 k = Some (Entry k v1).
Proof.
  intros Hc Hk Hv1 w0 w1 r2.
  pose proof (cuckoo_new_inv capacity g Hc) as (Hwf0 & _). fold w0 in Hwf0.
  assert (∀ i, candidate w0.2 i k = None) as Hempty.
  { intros i. unfold candidate. rewrite cuckoo_slot_cell. apply cuckoo_new_empty. }
  assert (cuckoo_dict.set (S fuel1) k v1 w0
          = (Val tt, (w0.1, cuckoo_dict.store w0.2 0 (cuckoo_dict.index_of w0.2 0 k)
                              (Some (Entry k v1))))) as E1.
  { unfold cuckoo_dict.set. by apply cuckoo_set_loop_empty_slot. }
  subst r2 w1. rewrite E1. cbn [fst snd]. clearbody w0.
  set (d1 := cuckoo_dict.store w0.2 0 _ _).
  assert (cuckoo_wf d1) as Hwf1 by (by apply cuckoo_store_wf).
  assert (candidate d1 0 k = Some (Entry k v1)) as H0.
  { unfold d1. by rewrite cuckoo_candidate_store, decide_True by (done || lia). }
  assert (candidate d1 1 k = None) as H1.
  { unfold d1. by rewrite cuckoo_candidate_store, decide_False by (done || lia). }
  unfold cuckoo_dict.set.
  rewrite (cuckoo_set_loop_evicts _ _ _ _ (w0.1, d1) _ H0) by done. cbn [fst snd key_ value_].
  set (d2 := cuckoo_dict.store d1 0 _ _).
  assert (cuckoo_wf d2) as Hwf2 by (by apply cuckoo_store_wf).
  assert (candidate d2 0 k = Some (Entry k v2)) as H20.
  { unfold d2. by rewrite cuckoo_candidate_store, decide_True by (done || lia). }
  assert (candidate d2 1 k = None) as H21.
  { unfold d2. by rewrite cuckoo_candidate_store, decide_False by (done || lia). }
  rewrite (cuckoo_set_loop_empty_slot _ _ _ _ _ (w0.1, d2) H21). cbn [fst snd].
  split; [done|]. split; [done|].
  rewrite !cuckoo_candidate_store by (done || lia).
  rewrite decide_False by lia. by rewrite decide_True.
Qed.

Lemma cuckoo_set_twice_duplicates_witness :
  let w0 := cuckoo_dict.new 2 example_rand in
  let w1 := (cuckoo_dict.set 1 7 70 w0).2 in
  let r2 := cuckoo_dict.set 2 7 71 w1 in
  (cuckoo_dict.set 1 7 70 w0).1 = Val tt
  ∧ r2.1 = Val tt
  ∧ candidate r2.2.2 0 7 = Some (Entry 7 71)
  ∧ candidate r2.2.2 1 7 = Some (Entry 7 70).
Proof.
  apply (cuckoo_set_twice_duplicates 2 example_rand 0 0 7 70 71);
    unfold capacity_ok, is_u32; lia.
Defined.

(** ** The contract of [abstract_dict]: [naive_dict] *)

Lemma find_if_spec {A} (pred : A → bool) (l : list A) :
  (∀ x, l !! naive_dict.find_if pred l = Some x → pred x = true)
  ∧ (l !! naive_dict.find_if pred l = None → ∀ x, x ∈ l → pred x = false).
Proof.
  induction l as [|a l [IH1 IH2]]; simpl.
  - split; [done|]. intros _ x Hx. by apply elem_of_nil in Hx.
  - destruct (pred a) eqn:Ha; simpl.
    + split; [by intros x [= <-]|done].
    + split; [done|]. intros Hn x Hx.
      apply elem_of_cons in Hx as [->|Hx]; [done|by apply IH2].
Qed.

Lemma naive_search_sound fuel k g (d : naive_dict.t Z) r w' :
  search fuel k (g, d) = (r, w') → r ≠ Spin →
  w' = (g, d)
  ∧ match r with
    | Val v => naive_stored d (Entry k v)
    | Throw e => e = out_of_range ∧ ∀ x, naive_stored d x → key_ x ≠ k
    | Spin => False
    end.
Proof.
  cbn [search naive_abstract_dict]. unfold on_object, naive_dict.search,
    naive_dict.search_iterator, bind, get, ret, throw. cbn [fst snd].
  destruct (find_if_spec (λ e : entry Z, key_ e =? k) (naive_dict.entries_ d)) as [H1 H2].
  destruct (naive_dict.entries_ d !! _) as [e|] eqn:He; intros [= <- <-] _.
  - split; [done|]. specialize (H1 e eq_refl). apply Z.eqb_eq in H1 as <-.
    rewrite entry_eta. unfold naive_stored. by eapply list_elem_of_lookup_2.
  - split; [done|]. split; [done|]. intros x Hx Hk.
    specialize (H2 eq_refl x Hx). simpl in H2. apply Z.eqb_neq in H2. done.
Qed.

Lemma naive_set_sound fuel k v g (d : naive_dict.t Z) r w' :
  (∀ x, naive_stored d x → key_ x ≠ k) →
  set fuel k v (g, d) = (r, w') → r ≠ Spin →
  r = Val tt ∧ ∀ x, naive_stored w'.2 x ↔ naive_stored d x ∨ x = Entry k v.
Proof.
  intros Hfresh. cbn [set naive_abstract_dict]. unfold on_object, naive_dict.set,
    naive_dict.search_iterator, bind, get, ret, put. cbn [fst snd].
  destruct (find_if_spec (λ e : entry Z, key_ e =? k) (naive_dict.entries_ d)) as [H1 _].
  destruct (naive_dict.entries_ d !! _) as [e|] eqn:He; intros [= <- <-] _.
  - exfalso. specialize (H1 e eq_refl). apply Z.eqb_eq in H1.
    apply (Hfresh e); [|done]. by eapply list_elem_of_lookup_2.
  - split; [done|]. intros x. unfold naive_stored. cbn [snd naive_dict.entries_].
    by rewrite elem_of_app, list_elem_of_singleton.
Qed.

(** ** The contract of [abstract_dict]: [chain_dict] *)

Lemma chain_scan_spec key (b : list (entry Z)) :
  match chain_dict.scan key b with
  | Some v => Entry key v ∈ b
  | None => ∀ x, x ∈ b → key_ x ≠ key
  end.
Proof.
  induction b as [|e b IH]; simpl.
  - intros x Hx. by apply elem_of_nil in Hx.
  - destruct (key_ e =? key) eqn:Hk.
    + apply Z.eqb_eq in Hk as <-. rewrite entry_eta. by left.
    + apply Z.eqb_neq in Hk. destruct (chain_dict.scan key b) as [v|].
      * by right.
      * intros x Hx. apply elem_of_cons in Hx as [->|Hx]; [done|by apply IH].
Qed.

Lemma chain_bucket_lookup (d : chain_dict.t Z) key :
  chain_inv d →
  chain_dict.entries d !! Z.to_nat (chain_dict.bucket_index d key)
  = Some (chain_dict.bucket d (chain_dict.bucket_index d key)).
Proof.
  intros (Hc & Hl & _). pose proof (chain_bucket_index_range d key Hc) as Hr.
  destruct (lookup_lt_is_Some_2 (chain_dict.entries d)
              (Z.to_nat (chain_dict.bucket_index d key))) as [b Hb]; [lia|].
  unfold chain_dict.bucket. by rewrite (list_lookup_total_correct _ _ _ Hb).
Qed.

Lemma chain_search_sound fuel k g (d : chain_dict.t Z) r w' :
  chain_inv d → search fuel k (g, d) = (r, w') → r ≠ Spin →
  w' = (g, d)
  ∧ match r with
    | Val v => chain_stored d (Entry k v)
    | Throw e => e = out_of_range ∧ ∀ x, chain_stored d x → key_ x ≠ k
    | Spin => False
    end.
Proof.
  intros Hinv. pose proof (chain_bucket_lookup d k Hinv) as Hb.
  cbn [search chain_abstract_dict]. unfold on_object, chain_dict.search,
    bind, get, ret, throw. cbn [fst snd].
  pose proof (chain_scan_spec k (chain_dict.bucket d (chain_dict.bucket_index d k))) as Hs.
  destruct (chain_dict.scan k _) as [v|]; intros [= <- <-] _.
  - split; [done|]. apply list_elem_of_lookup in Hs as [j Hj].
    eexists (Z.to_nat (chain_dict.bucket_index d k)), j, _. by split.
  - split; [done|]. split; [done|]. intros x (i & j & b & Hbi & Hbj).
    destruct Hinv as (Hc & _ & Hp).
    pose proof (chain_bucket_index_range d (key_ x) Hc) as Hr.
    specialize (Hp i j b x Hbi Hbj). intros Hk. rewrite Hk in Hp.
    rewrite <- Hp in Hs, Hb. rewrite Nat2Z.id, Hbi in Hb. injection Hb as Hb.
    apply (Hs x); [|done]. rewrite <- Hb. by eapply list_elem_of_lookup_2.
Qed.

Lemma chain_set_sound fuel k v g (d : chain_dict.t Z) r w' :
  chain_inv d → set fuel k v (g, d) = (r, w') → r ≠ Spin →
  r = Val tt ∧ chain_inv w'.2
  ∧ ∀ x, chain_stored w'.2 x ↔ chain_stored d x ∨ x = Entry k v.
Proof.
  intros Hinv. pose proof (chain_bucket_lookup d k Hinv) as Hb.
  destruct Hinv as (Hc & Hl & Hp).
  cbn [set chain_abstract_dict]. unfold on_object. cbn [fst snd].
  pose proof (chain_set_fields d k v) as (_ & Hcap & Hlen). cbn zeta in Hcap, Hlen.
  pose proof (chain_set_placed d k v Hc Hp) as Hp'.
  pose proof (chain_set_entries d k v) as Hent.
  assert ((chain_dict.set k v d).1 = Val tt) as Hr by done.
  destruct (chain_dict.set k v d) as [r0 d']. cbn [fst snd] in *. subst r0.
  intros [= <- <-] _. cbn [snd]. split; [done|]. split.
  - split; [by rewrite Hcap|]. split; [by rewrite Hcap, Hlen|done].
  - intros x. unfold chain_stored. rewrite Hent. split.
    + intros (i & j & b & Hbi & Hbj).
      destruct (decide (i = Z.to_nat (chain_dict.bucket_index d k))) as [->|Hne].
      * rewrite list_lookup_alter_eq, Hb in Hbi. injection Hbi as <-.
        apply lookup_app_Some in Hbj as [Hbj|[_ Hbj]].
        -- left. eauto.
        -- right. by apply list_lookup_singleton_Some in Hbj as [_ <-].
      * rewrite list_lookup_alter_ne in Hbi by done. left. eauto.
    + intros [(i & j & b & Hbi & Hbj) | ->].
      * destruct (decide (i = Z.to_nat (chain_dict.bucket_index d k))) as [->|Hne].
        -- exists (Z.to_nat (chain_dict.bucket_index d k)), j, (b ++ [Entry k v]).
           rewrite list_lookup_alter_eq, Hbi. split; [done|].
           by apply lookup_app_l_Some.
        -- exists i, j, b. by rewrite list_lookup_alter_ne.
      * eexists (Z.to_nat (chain_dict.bucket_index d k)), _, _.
        rewrite list_lookup_alter_eq, Hb. split; [done|].
        by apply list_lookup_middle.
Qed.

(** ** The contract of [abstract_dict]: [lp_dict] *)

Lemma lp_slot_insert (d : lp_dict.t Z) i j p :
  lp_wf d → 0 ≤ j < lp_dict.capacity_ d → 0 ≤ i →
  lp_dict.slot (lp_dict.mk (<[Z.to_nat j := p]> (lp_dict.entries d))
                  (lp_dict.hashFunction d) (lp_dict.capacity_ d)) i
  = if decide (i = j) then p else lp_dict.slot d i.
Proof.
  intros [_ Hl] Hj Hi. unfold lp_dict.slot. cbn [lp_dict.entries].
  destruct (decide (i = j)) as [->|Hne].
  - rewrite list_lookup_total_insert_eq by lia. done.
  - rewrite list_lookup_total_insert_ne by lia. done.
Qed.

Lemma lp_probe_sound fuel : ∀ key i (d : lp_dict.t Z) r d',
  lp_wf d → 0 ≤ i < lp_dict.capacity_ d →
  lp_dict.probe fuel key i d = (r, d') → r ≠ Spin →
  d' = d
  ∧ ∃ j, r = Val j ∧ 0 ≤ j < lp_dict.capacity_ d
         ∧ lp_walk d key i j ∧ lp_stop d key j.
Proof.
  induction fuel as [|fuel IH]; intros key i d r d' Hwf Hi Hrun Hr;
    cbn [lp_dict.probe] in Hrun.
  - injection Hrun as <- <-. done.
  - unfold bind, get, ret in Hrun.
    destruct (lp_dict.slot d i) as [e|] eqn:He.
    + destruct (bool_decide (key_ e ≠ key)) eqn:Hk.
      * apply bool_decide_eq_true in Hk.
        destruct (IH key _ d r d' Hwf (lp_next_range _ i (proj1 (proj1 Hwf)) Hi) Hrun Hr)
          as (-> & j & -> & Hj & Hw & Hs).
        split; [done|]. exists j. split; [done|]. split; [done|].
        split; [by eapply lp_walk_step|done].
      * apply bool_decide_eq_false in Hk. injection Hrun as <- <-.
        split; [done|]. exists i. split; [done|]. split; [done|].
        split; [constructor|]. intros e' He'. rewrite He in He'.
        injection He' as <-. by destruct (decide (key_ e = key)).
    + injection Hrun as <- <-. split; [done|]. exists i.
      split; [done|]. split; [done|]. split; [constructor|].
      intros e' He'. by rewrite He in He'.
Qed.

Lemma lp_walk_deterministic (d : lp_dict.t Z) key i j j' :
  lp_walk d key i j → lp_stop d key j →
  lp_walk d key i j' → lp_stop d key j' → j = j'.
Proof.
  intros Hw. revert j'. induction Hw as [i|i j e He Hk Hw IH]; intros j' Hs Hw' Hs'.
  - destruct Hw' as [i|i j' e He Hk Hw']; [done|]. by specialize (Hs e He).
  - destruct Hw' as [i|i j' e' He' Hk' Hw']; [by specialize (Hs' e He)|].
    by apply IH.
Qed.

Lemma lp_walk_insert (d : lp_dict.t Z) key i j k p :
  lp_wf d → 0 ≤ k < lp_dict.capacity_ d → lp_dict.slot d k = None →
  0 ≤ i < lp_dict.capacity_ d →
  lp_walk d key i j →
  lp_walk (lp_dict.mk (<[Z.to_nat k := p]> (lp_dict.entries d))
             (lp_dict.hashFunction d) (lp_dict.capacity_ d)) key i j.
Proof.
  intros Hwf Hk Hnone Hi Hw. induction Hw as [i|i j e He Hne Hw IH]; [constructor|].
  eapply lp_walk_step; [|exact Hne|].
  - rewrite lp_slot_insert by (done || lia).
    destruct (decide (i = k)) as [->|]; [congruence|done].
  - apply IH. apply lp_next_range; [apply Hwf|done].
Qed.

Lemma lp_search_sound fuel k g (d : lp_dict.t Z) r w' :
  lp_inv d → search fuel k (g, d) = (r, w') → r ≠ Spin →
  w' = (g, d)
  ∧ match r with
    | Val v => lp_stored d (Entry k v)
    | Throw e => e = out_of_range ∧ ∀ x, lp_stored d x → key_ x ≠ k
    | Spin => False
    end.
Proof.
  intros [Hwf Hinv]. cbn [search lp_abstract_dict].
  unfold on_object, lp_dict.search, bind, get. cbn [fst snd].
  pose proof (lp_probe_sound fuel k (lp_dict.home d k) d) as Hp.
  destruct (lp_dict.probe fuel k (lp_dict.home d k) d) as [[j|e|] d'] eqn:Hrun;
    [specialize (Hp _ _ Hwf (lp_home_range d k Hwf) eq_refl)
       as (-> & j' & [= <-] & Hj & Hw & Hs); [done|]
    |by destruct (Hp _ _ Hwf (lp_home_range d k Hwf) eq_refl) as (_ & ? & ? & _)
    |by intros [= <- <-]].
  unfold ret, throw. destruct (lp_dict.slot d j) as [e|] eqn:He.
  - rewrite bool_decide_true by (by apply Hs). intros [= <- <-] _.
    split; [done|]. exists j. split; [done|]. rewrite He, <- (Hs e He).
    by rewrite entry_eta.
  - intros [= <- <-] _. split; [done|]. split; [done|].
    intros x (i & Hi & Hx) Hk.
    pose proof (Hinv i x Hi Hx) as Hwx. rewrite Hk in Hwx.
    assert (i = j) as ->.
    { apply (lp_walk_deterministic d k (lp_dict.home d k)); try done.
      intros e He'. rewrite Hx in He'. by injection He' as <-. }
    congruence.
Qed.

Lemma lp_set_sound fuel k v g (d : lp_dict.t Z) r w' :
  lp_inv d → (∀ x, lp_stored d x → key_ x ≠ k) →
  set fuel k v (g, d) = (r, w') → r ≠ Spin →
  r = Val tt ∧ lp_inv w'.2
  ∧ ∀ x, lp_stored w'.2 x ↔ lp_stored d x ∨ x = Entry k v.
Proof.
  intros [Hwf Hinv] Hfresh. cbn [set lp_abstract_dict].
  unfold on_object. cbn [fst snd]. rewrite lp_set_result.
  pose proof (lp_probe_sound fuel k (lp_dict.home d k) d) as Hp.
  destruct (lp_dict.probe fuel k (lp_dict.home d k) d) as [[j|e|] d'] eqn:Hrun;
    [specialize (Hp _ _ Hwf (lp_home_range d k Hwf) eq_refl)
       as (-> & j' & [= <-] & Hj & Hw & Hs); [done|]
    |by destruct (Hp _ _ Hwf (lp_home_range d k Hwf) eq_refl) as (_ & ? & ? & _)
    |by intros [= <- <-]].
  intros [= <- <-] _. cbn [snd].
  assert (lp_dict.slot d j = None) as Hnone.
  { destruct (lp_dict.slot d j) as [e|] eqn:He; [|done].
    exfalso. apply (Hfresh e); [by exists j|by apply Hs]. }
  set (d' := lp_dict.mk _ _ _).
  assert (lp_wf d') as Hwf'.
  { destruct Hwf as [Hc Hl]. split; [done|]. unfold d'. cbn [lp_dict.entries lp_dict.capacity_].
    by rewrite length_insert. }
  assert (∀ i, 0 ≤ i → lp_dict.slot d' i
                       = if decide (i = j) then Some (Entry k v) else lp_dict.slot d i)
    as Hslot by (intros i Hi; by apply lp_slot_insert).
  split; [done|]. split; [split; [done|]|].
  - intros i e Hi He. change (lp_dict.home d' (key_ e)) with (lp_dict.home d (key_ e)).
    change (lp_dict.capacity_ d') with (lp_dict.capacity_ d) in Hi.
    apply lp_walk_insert; try done; [apply lp_home_range; done|].
    rewrite Hslot in He by lia. destruct (decide (i = j)) as [->|Hne].
    + by injection He as <-.
    + by apply Hinv.
  - intros x. unfold lp_stored. change (lp_dict.capacity_ d') with (lp_dict.capacity_ d).
    split.
    + intros (i & Hi & Hx). rewrite Hslot in Hx by lia.
      destruct (decide (i = j)) as [->|Hne]; [right; congruence|left; eauto].
    + intros [(i & Hi & Hx) | ->].
      * exists i. split; [done|]. rewrite Hslot by lia.
        destruct (decide (i = j)) as [->|Hne]; [congruence|done].
      * exists j. split; [done|]. rewrite Hslot by lia. by rewrite decide_True.
Qed.

(** ** The contract of [abstract_dict]: [cuckoo_dict] *)

Lemma for_each_no_throw {S A} (f : A → M S unit) (l : list A) :
  (∀ x s e, (f x s).1 ≠ Throw e) → ∀ s e, (for_each f l s).1 ≠ Throw e.
Proof.
  intros Hf. induction l as [|x l IH]; intros s e; cbn [for_each]; [done|].
  unfold bind. specialize (Hf x s).
  destruct (f x s) as [[[]|e'|] s1]; [apply IH|by specialize (Hf e')|done].
Qed.

Lemma cuckoo_rehash_no_throw set_ key val (w : cuckoo_dict.world) e :
  (∀ k v w e, (set_ k v w).1 ≠ Throw e) →
  (cuckoo_dict.rehash set_ key val w).1 ≠ Throw e.
Proof.
  intros Hset. unfold cuckoo_dict.rehash, bind, get, put.
  destruct (new_tabular_pair w.1) as [hs g'].
  destruct (cuckoo_dict.collect _) as [previousKeys d'].
  apply for_each_no_throw. intros x. apply Hset.
Qed.

Lemma cuckoo_set_loop_no_throw fuel : ∀ key val i temp (w : cuckoo_dict.world) e,
  (cuckoo_dict.set_loop fuel key val i temp w).1 ≠ Throw e.
Proof.
  induction fuel as [|fuel IH]; intros key val i temp w e;
    cbn [cuckoo_dict.set_loop]; [done|].
  unfold bind, get, put.
  destruct (cuckoo_dict.slot w.2 i _) as [x|]; [|done].
  destruct (_ && _).
  - apply cuckoo_rehash_no_throw. intros k v w0 e0. apply IH.
  - apply IH.
Qed.

Lemma cuckoo_search_sound fuel k g (d : cuckoo_dict.t) r w' :
  cuckoo_inv d → search fuel k (g, d) = (r, w') → r ≠ Spin →
  w' = (g, d)
  ∧ match r with
    | Val v => cuckoo_stored d (Entry k v)
    | Throw e => e = out_of_range ∧ ∀ x, cuckoo_stored d x → key_ x ≠ k
    | Spin => False
    end.
Proof.
  intros Hinv. cbn [search cuckoo_abstract_dict].
  rewrite cuckoo_search_two_probe. cbn [snd]. intros [= <- <-] _. split; [done|].
  assert (∀ i e, candidate d i k = Some e → key_ e = k →
                 cuckoo_stored d (Entry k (value_ e))) as Hst.
  { intros i e Hc <-. rewrite entry_eta. exists i, (Z.to_nat (cuckoo_dict.index_of d i (key_ e))).
    unfold candidate in Hc. by rewrite cuckoo_slot_cell in Hc. }
  assert (∀ x, cuckoo_stored d x → key_ x = k →
               two_probe (candidate d 0 k) (candidate d 1 k) k ≠ Throw out_of_range)
    as Hfound.
  { intros x Hx <- Hthrow.
    destruct (cuckoo_search_finds (g, d) x Hinv Hx) as [v Hv].
    rewrite cuckoo_search_two_probe in Hv. cbn [snd] in Hv. congruence. }
  unfold two_probe in *.
  destruct (candidate d 0 k) as [e0|] eqn:H0.
  - destruct (bool_decide (key_ e0 = k)) eqn:Hk0.
    + apply bool_decide_eq_true in Hk0. by eapply Hst.
    + destruct (candidate d 1 k) as [e1|] eqn:H1.
      * destruct (bool_decide (key_ e1 = k)) eqn:Hk1.
        -- apply bool_decide_eq_true in Hk1. by eapply Hst.
        -- split; [done|]. intros x Hx Hk. by eapply Hfound.
      * split; [done|]. intros x Hx Hk. by eapply Hfound.
  - destruct (candidate d 1 k) as [e1|] eqn:H1.
    + destruct (bool_decide (key_ e1 = k)) eqn:Hk1.
      * apply bool_decide_eq_true in Hk1. by eapply Hst.
      * split; [done|]. intros x Hx Hk. by eapply Hfound.
    + split; [done|]. intros x Hx Hk. by eapply Hfound.
Qed.

Lemma cuckoo_set_sound fuel k v g (d : cuckoo_dict.t) r w' :
  cuckoo_inv d → is_u32 k → is_u32 v →
  set fuel k v (g, d) = (r, w') → r ≠ Spin →
  r = Val tt ∧ cuckoo_inv w'.2
  ∧ ∀ x, cuckoo_stored w'.2 x ↔ cuckoo_stored d x ∨ x = Entry k v.
Proof.
  intros Hinv Hk Hv. cbn [set cuckoo_abstract_dict]. intros Hrun Hr.
  destruct r as [[]|e|]; [|exfalso|done].
  - destruct (cuckoo_set_spec_holds fuel k v (g, d) w' Hinv Hk Hv Hrun) as (? & _ & ?).
    done.
  - apply (cuckoo_set_loop_no_throw fuel k v 0%nat (to_int k) (g, d) e).
    unfold cuckoo_dict.set in Hrun. by rewrite Hrun.
Qed.

(** ** The four dictionaries keep the contract *)

Lemma chain_new_inv c g :
  capacity_ok c →
  chain_inv (chain_dict.new c g).1 ∧ ∀ x, ¬ chain_stored (chain_dict.new c g).1 x.
Proof.
  intros Hc. destruct (chain_new_shape (T:=Z) c g) as [Hcap Hent]. cbn zeta in *.
  assert (∀ x, ¬ chain_stored (chain_dict.new c g).1 x) as Hempty.
  { intros x (i & j & b & Hb & Hx). rewrite Hent in Hb.
    apply lookup_replicate in Hb as [-> _]. by rewrite lookup_nil in Hx. }
  split; [|done]. unfold chain_inv. rewrite Hcap, (to_u32_capacity c Hc), Hent.
  rewrite length_replicate. unfold capacity_ok in Hc.
  split; [lia|]. split; [lia|].
  intros i j b e Hb He. exfalso. apply (Hempty e). exists i, j, b. by rewrite Hent.
Qed.

Lemma lp_new_inv c g :
  capacity_ok (2 * c) →
  lp_inv (lp_dict.new c g).1 ∧ ∀ x, ¬ lp_stored (lp_dict.new c g).1 x.
Proof.
  intros Hc. destruct (lp_new_shape c g) as [Hcap Hent]. cbn zeta in *.
  assert (∀ i, lp_dict.slot (lp_dict.new (T:=Z) c g).1 i = None) as Hnone.
  { intros i. unfold lp_dict.slot. rewrite Hent, list_lookup_total_alt.
    destruct (replicate _ _ !! _) as [p|] eqn:Hp; [|done].
    by apply lookup_replicate in Hp as [-> _]. }
  split; [split|].
  - unfold lp_wf. rewrite Hcap, Hent, length_replicate.
    rewrite to_int_small by (unfold capacity_ok in Hc; lia).
    split; [done|]. unfold capacity_ok in Hc. lia.
  - intros i e _ He. by rewrite Hnone in He.
  - intros x (i & _ & He). by rewrite Hnone in He.
Qed.

#[global] Instance naive_dict_laws : dict_laws (naive_dict.t Z) := {|
  inv _ := True;
  stored := naive_stored;
  search_sound fuel k g d r w' _ := naive_search_sound fuel k g d r w';
  set_sound fuel k v g d r w' _ _ _ Hfresh Hrun Hr :=
    let '(conj H1 H2) := naive_set_sound fuel k v g d r w' Hfresh Hrun Hr in
    conj H1 (conj I H2)
|}.

#[global] Instance chain_dict_laws : dict_laws (chain_dict.t Z) := {|
  inv := chain_inv;
  stored := chain_stored;
  search_sound := chain_search_sound;
  set_sound fuel k v g d r w' Hinv _ _ _ := chain_set_sound fuel k v g d r w' Hinv
|}.

#[global] Instance lp_dict_laws : dict_laws (lp_dict.t Z) := {|
  inv := lp_inv;
  stored := lp_stored;
  search_sound := lp_search_sound;
  set_sound fuel k v g d r w' Hinv _ _ := lp_set_sound fuel k v g d r w' Hinv
|}.

#[global] Instance cuckoo_dict_laws : dict_laws cuckoo_dict.t := {|
  inv := cuckoo_inv;
  stored := cuckoo_stored;
  search_sound := cuckoo_search_sound;
  set_sound fuel k v g d r w' Hinv Hk Hv _ := cuckoo_set_sound fuel k v g d r w' Hinv Hk Hv
|}.

(** ** What holds of the contract *)

(** A [search] that ends throws exactly when no live entry has the key;
    [search] of [naive_dict], [chain_dict] and [cuckoo_dict] has no loop
    that could go on, and [search] of [lp_dict] ends when a slot is empty. *)
Lemma search_throws_iff_absent {D : Type} `{dict_laws D} fuel k g (d : D) :
  inv d → (search fuel k (g, d)).1 ≠ Spin →
  ((search fuel k (g, d)).1 = Throw out_of_range ↔ ∀ x, stored d x → key_ x ≠ k)
  ∧ ∀ v, (search fuel k (g, d)).1 = Val v → stored d (Entry k v).
Proof.
  intros Hinv Hr. destruct (search fuel k (g, d)) as [r w'] eqn:Hrun. cbn [fst] in *.
  destruct (search_sound fuel k g d r w' Hinv Hrun Hr) as [_ Hres].
  destruct r as [v|e|]; [| |done].
  - split; [|by intros ? [= <-]]. split; [done|].
    intros Hnone. by specialize (Hnone _ Hres).
  - destruct Hres as [-> Hnone]. split; [|done]. by split.
Qed.

Lemma cuckoo_search_never_spins fuel k (w : cuckoo_dict.world) :
  (search fuel k w).1 ≠ Spin.
Proof.
  cbn [search cuckoo_abstract_dict]. rewrite cuckoo_search_two_probe. cbn [fst].
  unfold two_probe.
  destruct (candidate w.2 0 k) as [e0|]; [destruct (bool_decide (key_ e0 = k)); [done|]|];
    (destruct (candidate w.2 1 k) as [e1|];
      [by destruct (bool_decide (key_ e1 = k))|done]).
Qed.

(** [lp_dict::set] never throws: there is no [length_error] in it. *)
Lemma lp_set_never_throws fuel key val (d : lp_dict.t Z) e :
  (lp_dict.set fuel key val d).1 ≠ Throw e.
Proof.
  rewrite lp_set_result.
  assert (∀ fuel i, (lp_dict.probe fuel key i d).1 ≠ Throw e) as Hp.
  { clear fuel. induction fuel as [|fuel IH]; intros i; cbn [lp_dict.probe]; [done|].
    unfold bind, get, ret. destruct (lp_dict.slot d i) as [x|]; [|done].
    destruct (bool_decide _); [apply IH|done]. }
  specialize (Hp fuel (lp_dict.home d key)).
  destruct (lp_dict.probe fuel key (lp_dict.home d key) d) as [[index|e'|] d'];
    cbn [fst] in *; try done.
  intros [= ->]. by apply Hp.
Qed.

(** ** [set] then [search]: the dictionaries that look for the key *)

Lemma find_if_app_found {A} (pred : A → bool) (l : list A) x :
  pred x = true →
  (l ++ [x]) !! naive_dict.find_if pred (l ++ [x])
  = match l !! naive_dict.find_if pred l with
    | Some y => Some y
    | None => Some x
    end.
Proof.
  intros Hx. induction l as [|a l IH]; simpl.
  - by rewrite Hx.
  - destruct (pred a); [done|]. exact IH.
Qed.

Lemma find_if_insert {A} (pred : A → bool) (l : list A) y z :
  l !! naive_dict.find_if pred l = Some y → pred z = true →
  <[naive_dict.find_if pred l := z]> l
    !! naive_dict.find_if pred (<[naive_dict.find_if pred l := z]> l) = Some z.
Proof.
  intros Hy Hz. induction l as [|a l IH]; simpl in *; [done|].
  destruct (pred a) eqn:Ha; simpl.
  - by rewrite Hz.
  - rewrite Ha. simpl. by apply IH.
Qed.

(** [naive_dict]: after [set(k, v)], in any state, [search(k)] returns [v]. *)
Lemma naive_set_then_search (d : naive_dict.t Z) k v :
  (naive_dict.set k v d).1 = Val tt
  ∧ (naive_dict.search k (naive_dict.set k v d).2).1 = Val v.
Proof.
  unfold naive_dict.set, naive_dict.search, naive_dict.search_iterator,
    bind, get, ret, put, throw.
  destruct (naive_dict.entries_ d !! _) as [e|] eqn:He; cbn [fst snd naive_dict.entries_].
  - split; [done|].
    rewrite (find_if_insert _ _ e (set_value v e) He); [done|].
    pose proof (proj1 (find_if_spec (λ e : entry Z, key_ e =? k) (naive_dict.entries_ d))
                  e He) as Hk.
    exact Hk.
  - split; [done|].
    rewrite (find_if_app_found (λ e : entry Z, key_ e =? k) _ (Entry k v)), He; [done|].
    apply Z.eqb_refl.
Qed.

Lemma lp_probe_after_insert fuel key v : ∀ i j (d : lp_dict.t Z),
  lp_wf d → 0 ≤ i < lp_dict.capacity_ d → 0 ≤ j < lp_dict.capacity_ d →
  lp_dict.probe fuel key i d = (Val j, d) →
  (lp_dict.probe fuel key i
     (lp_dict.mk (<[Z.to_nat j := Some (Entry key v)]> (lp_dict.entries d))
        (lp_dict.hashFunction d) (lp_dict.capacity_ d))).1 = Val j.
Proof.
  induction fuel as [|fuel IH]; intros i j d Hwf Hi Hj Hrun;
    cbn [lp_dict.probe] in *; [done|].
  unfold bind, get, ret in *. cbn [fst snd].
  rewrite lp_slot_insert by (done || lia).
  destruct (decide (i = j)) as [->|Hne].
  - by rewrite bool_decide_false by (intros Hk; by apply Hk).
  - destruct (lp_dict.slot d i) as [e|]; [|by injection Hrun].
    destruct (bool_decide (key_ e ≠ key)); [|by injection Hrun].
    cbn [lp_dict.capacity_].
    apply IH; [done|apply lp_next_range; [apply Hwf|done]|done|done].
Qed.

(** [lp_dict]: after a [set(k, v)] that ends, [search(k)] returns [v]. *)
Lemma lp_set_then_search fuel (d d' : lp_dict.t Z) k v :
  lp_wf d → lp_dict.set fuel k v d = (Val tt, d') →
  (lp_dict.search fuel k d').1 = Val v.
Proof.
  intros Hwf. rewrite lp_set_result.
  pose proof (lp_probe_sound fuel k (lp_dict.home d k) d) as Hs.
  destruct (lp_dict.probe fuel k (lp_dict.home d k) d) as [[j|e|] d0] eqn:Hrun; try done.
  destruct (Hs _ _ Hwf (lp_home_range d k Hwf) eq_refl) as (-> & j' & [= <-] & Hj & _);
    [done|].
  intros [= <-].
  pose proof (lp_probe_after_insert fuel k v _ j d Hwf (lp_home_range d k Hwf) Hj Hrun)
    as Hafter.
  set (d' := lp_dict.mk _ _ _) in *.
  unfold lp_dict.search, bind, get.
  change (lp_dict.home d' k) with (lp_dict.home d k).
  pose proof (lp_probe_pure fuel d' k (lp_dict.home d k)) as Hpure.
  destruct (lp_dict.probe fuel k (lp_dict.home d k) d') as [r d1].
  cbn [fst snd] in *. subst r d1.
  unfold d' at 1. rewrite lp_slot_insert by (done || lia).
  rewrite decide_True by done. by rewrite bool_decide_true.
Qed.

(** ** The driver on a dictionary that keeps the contract *)

Section driver.
Context {D : Type} `{dict_laws D}.

Lemma check_all_absent_passes fuel vec : ∀ g (d : D) L r w',
  holds d L → (∀ x, x ∈ vec → x ∉ L) →
  benchmark.check_all_absent fuel vec (g, d) = (r, w') → r ≠ Spin →
  r = Val false ∧ w' = (g, d).
Proof.
  induction vec as [|x vec IH]; intros g d L r w' Hd Hvec Hrun Hr;
    cbn [benchmark.check_all_absent] in Hrun.
  - by injection Hrun as <- <-.
  - unfold bind at 1 in Hrun. unfold benchmark.try_catch_out_of_range in Hrun.
    unfold bind at 1 in Hrun.
    destruct (search fuel x (g, d)) as [r0 w0] eqn:Hs.
    destruct Hd as [Hinv Hst].
    assert (r0 ≠ Spin) as Hr0.
    { intros ->. injection Hrun as <- _. done. }
    destruct (search_sound fuel x g d r0 w0 Hinv Hs Hr0) as [-> Hres].
    destruct r0 as [v|e|]; [| |done].
    + exfalso. apply Hst in Hres as [Hin _]. apply (Hvec x); [by left|done].
    + destruct Hres as [-> _]. unfold ret in Hrun.
      eapply IH; [by split| |exact Hrun|done].
      intros y Hy. apply Hvec. by right.
Qed.

Lemma check_all_present_passes fuel vec : ∀ g (d : D) L r w',
  holds d L → (∀ x, x ∈ vec → x ∈ L) →
  benchmark.check_all_present fuel vec (g, d) = (r, w') → r ≠ Spin →
  r = Val false ∧ w' = (g, d).
Proof.
  induction vec as [|x vec IH]; intros g d L r w' Hd Hvec Hrun Hr;
    cbn [benchmark.check_all_present] in Hrun.
  - by injection Hrun as <- <-.
  - unfold bind at 1 in Hrun. unfold benchmark.try_catch_out_of_range in Hrun.
    unfold bind at 1 in Hrun.
    destruct (search fuel x (g, d)) as [r0 w0] eqn:Hs.
    destruct Hd as [Hinv Hst].
    assert (r0 ≠ Spin) as Hr0.
    { intros ->. injection Hrun as <- _. done. }
    destruct (search_sound fuel x g d r0 w0 Hinv Hs Hr0) as [-> Hres].
    destruct r0 as [v|e|]; [| |done].
    + apply Hst in Hres as [_ Hv]. cbn [key_ value_] in Hv.
      rewrite bool_decide_false in Hrun by (intros Hne; by apply Hne).
      unfold ret in Hrun.
      eapply IH; [by split| |exact Hrun|done].
      intros y Hy. apply Hvec. by right.
    + exfalso. destruct Hres as [_ Hnone].
      apply (Hnone (Entry x (to_u32 (x + 1)))); [|done].
      apply Hst. split; [apply Hvec; by left|done].
Qed.

Lemma insert_all_inserts fuel vec : ∀ g (d : D) L r w',
  holds d L → NoDup vec → (∀ x, x ∈ vec → x ∉ L) → Forall is_u32 vec →
  benchmark.insert_all fuel vec (g, d) = (r, w') → r ≠ Spin →
  r = Val tt ∧ holds w'.2 (L ++ vec).
Proof.
  unfold benchmark.insert_all.
  induction vec as [|x vec IH]; intros g d L r w' Hd Hnd Hvec Hu Hrun Hr;
    cbn [for_each] in Hrun.
  - injection Hrun as <- <-. by rewrite app_nil_r.
  - unfold bind in Hrun.
    destruct (set fuel x (to_u32 (x + 1)) (g, d)) as [r0 [g1 d1]] eqn:Hs.
    destruct Hd as [Hinv Hst].
    assert (r0 ≠ Spin) as Hr0.
    { intros ->. injection Hrun as <- _. done. }
    apply NoDup_cons in Hnd as [Hx Hnd].
    inversion Hu as [|? ? Hux Hu']; subst.
    destruct (set_sound fuel x (to_u32 (x + 1)) g d r0 (g1, d1) Hinv Hux)
      as (-> & Hinv1 & Hst1); try done.
    { apply to_u32_range. }
    { intros e He Hk. apply Hst in He as [Hin _]. rewrite Hk in Hin.
      apply (Hvec x); [by left|done]. }
    cbn [snd] in *.
    rewrite (cons_middle x L vec), app_assoc.
    eapply IH; [|done| |done|exact Hrun|done].
    + split; [done|]. intros e. rewrite Hst1, Hst, elem_of_app, list_elem_of_singleton.
      split.
      * intros [[? ?] | ->]; [by split; [left|]|by split; [right|]].
      * intros [[?|Hk] Hv]; [by left|]. right.
        destruct e as [k v]. cbn [key_ value_] in *. by subst.
    + intros y Hy. rewrite elem_of_app, list_elem_of_singleton.
      intros [HyL | ->]; [|done]. apply (Hvec y); [by right|done].
Qed.

Lemma return_1_if_passes (check : M (rand_state * D) bool) rest w r w' :
  (∀ r0 w0, check w = (r0, w0) → r0 ≠ Spin → r0 = Val false ∧ w0 = w) →
  benchmark.return_1_if check rest w = (r, w') → r ≠ Spin →
  rest w = (r, w').
Proof.
  intros Hcheck Hrun Hr. unfold benchmark.return_1_if, bind in Hrun.
  destruct (check w) as [r0 w0] eqn:Hc.
  assert (r0 ≠ Spin) as Hr0.
  { intros ->. injection Hrun as <- _. done. }
  by destruct (Hcheck r0 w0 eq_refl Hr0) as [-> ->].
Qed.
End driver.

(** ** The workload *)

Lemma workload_split shuffle n :
  (∀ seed l, shuffle seed l ≡ₚ l) → 0 ≤ n < 2 ^ 31 →
  let '(first_half, second_half, absent) := benchmark.workload shuffle n in
  first_half ++ second_half ++ absent
    = shuffle benchmark.SEED (seqZ 0 (n / 2 * 3))
  ∧ NoDup (first_half ++ second_half ++ absent)
  ∧ Forall is_u32 (first_half ++ second_half ++ absent).
Proof.
  intros Hperm Hn. unfold benchmark.workload, benchmark.sub_vector.
  assert (0 ≤ n / 2 < 2 ^ 30) as Hh.
  { split; [apply Z.div_pos; lia|]. apply Z.div_lt_upper_bound; lia. }
  set (h := n / 2) in *. clearbody h.
  rewrite (to_u32_small (h * 3)), (to_u32_small (h * 2)) by lia.
  set (r := shuffle benchmark.SEED (seqZ 0 (h * 3))).
  assert (take (Z.to_nat (h - 0)) (drop (Z.to_nat 0) r)
          ++ take (Z.to_nat (h * 2 - h)) (drop (Z.to_nat h) r)
          ++ take (Z.to_nat (Z.of_nat (length r) - h * 2))
               (drop (Z.to_nat (h * 2)) r) = r) as Heq.
  { replace (Z.to_nat (h - 0)) with (Z.to_nat h) by lia.
    replace (Z.to_nat (h * 2 - h)) with (Z.to_nat h) by lia.
    replace (Z.to_nat (h * 2)) with (Z.to_nat h + Z.to_nat h)%nat by lia.
    change (Z.to_nat 0) with 0%nat. rewrite drop_0.
    rewrite (take_ge (drop (Z.to_nat h + Z.to_nat h) r)) by (rewrite length_drop; lia).
    rewrite <- drop_drop, !take_drop. done. }
  rewrite Heq. split; [done|]. split.
  - unfold r. rewrite (Hperm _ _). apply NoDup_seqZ.
  - apply List.Forall_forall. intros x Hx. apply list_elem_of_In in Hx.
    unfold r in Hx. rewrite (Hperm _ _) in Hx. apply elem_of_seqZ in Hx.
    unfold is_u32. lia.
Qed.

Lemma insert_and_search_passes {D : Type} `{dict_laws D} shuffle fuel n g (d : D) r w' :
  (∀ seed l, shuffle seed l ≡ₚ l) → 0 ≤ n < 2 ^ 31 →
  holds d [] →
  benchmark.insert_and_search shuffle fuel n (g, d) = (r, w') → r ≠ Spin →
  r = Val 0.
Proof.
  intros Hperm Hn Hd Hrun Hr. unfold benchmark.insert_and_search in Hrun.
  pose proof (workload_split shuffle n Hperm Hn) as Hw.
  destruct (benchmark.workload shuffle n) as [[first_half second_half] absent].
  destruct Hw as (_ & Hnd & Hu).
  apply NoDup_app in Hnd as (Hnd1 & Hdis1 & Hnd23).
  apply NoDup_app in Hnd23 as (Hnd2 & Hdis2 & Hnd3).
  apply Forall_app in Hu as [Hu1 Hu23]. apply Forall_app in Hu23 as [Hu2 Hu3].
  assert (∀ x, x ∈ first_half → x ∉ second_half) as H12.
  { intros x Hx Hx'. apply (Hdis1 x Hx). apply elem_of_app. by left. }
  assert (∀ x, x ∈ first_half → x ∉ absent) as H13.
  { intros x Hx Hx'. apply (Hdis1 x Hx). apply elem_of_app. by right. }
  (* nothing is present *)
  apply return_1_if_passes in Hrun; [|intros r0 w0; eapply check_all_absent_passes;
    [exact Hd|intros x _ Hx; by apply elem_of_nil in Hx]|done].
  apply return_1_if_passes in Hrun; [|intros r0 w0; eapply check_all_absent_passes;
    [exact Hd|intros x _ Hx; by apply elem_of_nil in Hx]|done].
  apply return_1_if_passes in Hrun; [|intros r0 w0; eapply check_all_absent_passes;
    [exact Hd|intros x _ Hx; by apply elem_of_nil in Hx]|done].
  (* insert first_half *)
  unfold bind at 1 in Hrun.
  destruct (benchmark.insert_all fuel first_half (g, d)) as [r1 [g1 d1]] eqn:Hins1.
  assert (r1 ≠ Spin) as Hr1 by (intros ->; injection Hrun as <- _; done).
  destruct (insert_all_inserts fuel first_half g d [] r1 (g1, d1) Hd Hnd1) as [-> Hd1];
    [intros x _ Hx; by apply elem_of_nil in Hx|done|done|done|].
  cbn [snd app] in Hd1.
  apply return_1_if_passes in Hrun; [|intros r0 w0; eapply check_all_present_passes;
    [exact Hd1|done]|done].
  apply return_1_if_passes in Hrun; [|intros r0 w0; eapply check_all_absent_passes;
    [exact Hd1|intros x Hx Hx'; by apply (H12 x)]|done].
  apply return_1_if_passes in Hrun; [|intros r0 w0; eapply check_all_absent_passes;
    [exact Hd1|intros x Hx Hx'; by apply (H13 x)]|done].
  (* insert second_half *)
  unfold bind at 1 in Hrun.
  destruct (benchmark.insert_all fuel second_half (g1, d1)) as [r2 [g2 d2]] eqn:Hins2.
  assert (r2 ≠ Spin) as Hr2 by (intros ->; injection Hrun as <- _; done).
  destruct (insert_all_inserts fuel second_half g1 d1 first_half r2 (g2, d2) Hd1 Hnd2)
    as [-> Hd2]; [intros x Hx Hx'; by apply (H12 x)|done|done|done|].
  cbn [snd] in Hd2.
  apply return_1_if_passes in Hrun; [|intros r0 w0; eapply check_all_present_passes;
    [exact Hd2|intros x Hx; apply elem_of_app; by left]|done].
  apply return_1_if_passes in Hrun; [|intros r0 w0; eapply check_all_present_passes;
    [exact Hd2|intros x Hx; apply elem_of_app; by right]|done].
  apply return_1_if_passes in Hrun; [|intros r0 w0; eapply check_all_absent_passes;
    [exact Hd2|]|done].
  - by injection Hrun as <- _.
  - intros x Hx Hx'. apply elem_of_app in Hx' as [Hx'|Hx'].
    + by apply (H13 x).
    + by apply (Hdis2 x Hx').
Qed.

(** ** Runs of the driver *)

Lemma holds_new_naive n : holds (naive_dict.new (T:=Z) n) [].
Proof.
  split; [done|]. intros e. cbn [stored naive_dict_laws]. unfold naive_stored.
  cbn [naive_dict.new naive_dict.entries_]. split.
  - intros He. by apply elem_of_nil in He.
  - intros [He _]. by apply elem_of_nil in He.
Qed.

Lemma holds_new_chain n g : capacity_ok n → holds (chain_dict.new (T:=Z) n g).1 [].
Proof.
  intros Hn. destruct (chain_new_inv n g Hn) as [Hinv Hempty].
  split; [done|]. intros e. split.
  - intros He. by apply Hempty in He.
  - intros [He _]. by apply elem_of_nil in He.
Qed.

Lemma holds_new_lp n g : capacity_ok (2 * n) → holds (lp_dict.new (T:=Z) n g).1 [].
Proof.
  intros Hn. destruct (lp_new_inv n g Hn) as [Hinv Hempty].
  split; [done|]. intros e. split.
  - intros He. by apply Hempty in He.
  - intros [He _]. by apply elem_of_nil in He.
Qed.

Lemma holds_new_cuckoo n g : capacity_ok n → holds (cuckoo_dict.new n g).2 [].
Proof.
  intros Hn. split; [by apply cuckoo_new_inv|]. intros e. split.
  - intros (i & j & He). by rewrite cuckoo_new_empty in He.
  - intros [He _]. by apply elem_of_nil in He.
Qed.

Lemma run_outcome shuffle srand fuel now structure n :
  (∀ seed l, shuffle seed l ≡ₚ l) → 0 < n < 2 ^ 30 →
  benchmark.run shuffle srand fuel now structure n ≠ Spin →
  benchmark.run shuffle srand fuel now structure n
  = if bool_decide (structure ∈ ["naive"; "chain"; "lp"; "cuckoo"]%string)
    then Val 0 else Val 1.
Proof.
  intros Hperm Hn. unfold benchmark.run.
  assert (0 ≤ n < 2 ^ 31) as Hn' by lia.
  assert (capacity_ok n ∧ capacity_ok (2 * n)) as [Hc Hc2] by (unfold capacity_ok; lia).
  destruct (bool_decide (structure = "naive"%string)) eqn:E1.
  { apply bool_decide_eq_true in E1 as ->.
    destruct (benchmark.insert_and_search _ _ _ _) as [r w'] eqn:Hrun. cbn [fst].
    intros Hr.
    by rewrite (insert_and_search_passes _ _ _ _ _ _ _ Hperm Hn' (holds_new_naive n) Hrun Hr). }
  destruct (bool_decide (structure = "chain"%string)) eqn:E2.
  { apply bool_decide_eq_true in E2 as ->.
    pose proof (holds_new_chain n (srand now) Hc) as Hd.
    destruct (chain_dict.new n (srand now)) as [d g'].
    destruct (benchmark.insert_and_search _ _ _ _) as [r w'] eqn:Hrun. cbn [fst].
    intros Hr.
    by rewrite (insert_and_search_passes _ _ _ _ _ _ _ Hperm Hn' Hd Hrun Hr). }
  destruct (bool_decide (structure = "lp"%string)) eqn:E3.
  { apply bool_decide_eq_true in E3 as ->.
    pose proof (holds_new_lp n (srand now) Hc2) as Hd.
    destruct (lp_dict.new n (srand now)) as [d g'].
    destruct (benchmark.insert_and_search _ _ _ _) as [r w'] eqn:Hrun. cbn [fst].
    intros Hr.
    by rewrite (insert_and_search_passes _ _ _ _ _ _ _ Hperm Hn' Hd Hrun Hr). }
  destruct (bool_decide (structure = "cuckoo"%string)) eqn:E4.
  { apply bool_decide_eq_true in E4 as ->.
    pose proof (holds_new_cuckoo n (srand now) Hc) as Hd.
    destruct (cuckoo_dict.new n (srand now)) as [g' d].
    destruct (benchmark.insert_and_search _ _ _ _) as [r w'] eqn:Hrun. cbn [fst].
    intros Hr.
    by rewrite (insert_and_search_passes _ _ _ _ _ _ _ Hperm Hn' Hd Hrun Hr). }
  intros _. rewrite bool_decide_false; [done|].
  apply bool_decide_eq_false in E1, E2, E3, E4.
  rewrite !elem_of_cons. intros [?|[?|[?|[?|Hnil]]]]; try done.
  by apply elem_of_nil in Hnil.
Qed.

Lemma main_outcome stoi shuffle srand fuel now arguments :
  (∀ seed l, shuffle seed l ≡ₚ l) → size_fits stoi arguments →
  benchmark.main stoi shuffle srand fuel now arguments ≠ Spin →
  benchmark.main stoi shuffle srand fuel now arguments = expected_exit stoi arguments.
Proof.
  intros Hperm Hfits. unfold benchmark.main, expected_exit.
  destruct arguments as [|a0 [|structure [|n_string [|a3 rest]]]]; try done.
  specialize (Hfits n_string). destruct (stoi n_string) as [parsed| |]; try done.
  destruct (bool_decide (parsed ≤ 0)) eqn:Hp; [done|].
  apply bool_decide_eq_false in Hp. intros Hr.
  apply run_outcome; [done| |done]. specialize (Hfits parsed eq_refl eq_refl). lia.
Qed.

(** ** Calls that end: [lp_dict] with an empty slot *)

Lemma lp_probe_ends (d : lp_dict.t Z) key j :
  lp_wf d → 0 ≤ j < lp_dict.capacity_ d → lp_dict.slot d j = None →
  ∀ fuel i, 0 ≤ i < lp_dict.capacity_ d →
    lp_distance (lp_dict.capacity_ d) i j < Z.of_nat fuel →
    (lp_dict.probe fuel key i d).1 ≠ Spin.
Proof.
  intros Hwf Hj Hnone fuel.
  induction fuel as [|fuel IH]; intros i Hi Hdist; cbn [lp_dict.probe].
  - unfold lp_distance in Hdist. destruct (decide (i ≤ j)); lia.
  - unfold bind, get, ret. destruct (lp_dict.slot d i) as [e|] eqn:He; [|done].
    destruct (bool_decide (key_ e ≠ key)); [|done].
    assert (i ≠ j) as Hne by congruence.
    assert (Z.rem (i + 1) (lp_dict.capacity_ d)
            = if decide (i + 1 = lp_dict.capacity_ d) then 0 else i + 1) as Hnext.
    { destruct (decide _) as [->|]; [apply Z.rem_same; lia|apply Z.rem_small; lia]. }
    apply IH.
    + apply lp_next_range; [apply Hwf|done].
    + rewrite Hnext. unfold lp_distance in *.
      destruct (decide (i + 1 = _)), (decide (i ≤ j)); destruct (decide (_ ≤ j)); lia.
Qed.

Lemma omap_id_insert_le {A} (l : list (option A)) j p :
  (length (omap id (<[j := Some p]> l)) ≤ S (length (omap id l)))%nat.
Proof.
  unfold omap. revert j. induction l as [|s l IH]; intros j; [simpl; lia|].
  destruct j as [|j]; simpl.
  - destruct s; simpl; lia.
  - specialize (IH j). destruct s; simpl; lia.
Qed.

Lemma omap_id_room {A} (l : list (option A)) :
  (length (omap id l) < length l)%nat → ∃ j, l !! j = Some None.
Proof.
  unfold omap. induction l as [|s l IH]; simpl; [lia|]. destruct s as [a|]; simpl.
  - intros Hl. destruct IH as [j Hj]; [lia|]. by exists (S j).
  - intros _. by exists 0%nat.
Qed.

Lemma lp_empty_slot (d : lp_dict.t Z) :
  lp_wf d → lp_can_take d 0 →
  ∃ j, 0 ≤ j < lp_dict.capacity_ d ∧ lp_dict.slot d j = None.
Proof.
  intros [Hc Hl] Hroom. destruct (omap_id_room (lp_dict.entries d)) as [j Hj].
  { unfold lp_can_take, lp_occupied in Hroom. lia. }
  exists (Z.of_nat j). pose proof (lookup_lt_Some _ _ _ Hj).
  split; [lia|]. unfold lp_dict.slot. rewrite Nat2Z.id.
  by apply list_lookup_total_correct.
Qed.

Lemma lp_distance_bound c i j : 0 ≤ i < c → 0 ≤ j < c → lp_distance c i j < c.
Proof. intros. unfold lp_distance. destruct (decide _); lia. Qed.

Lemma lp_search_ends fuel k g (d : lp_dict.t Z) :
  lp_inv d → lp_can_take d 0 → lp_enough d fuel → (search fuel k (g, d)).1 ≠ Spin.
Proof.
  intros [Hwf _] Hroom Hfuel. destruct (lp_empty_slot d Hwf Hroom) as (j & Hj & Hnone).
  pose proof (lp_home_range d k Hwf) as Hh.
  pose proof (lp_probe_ends d k j Hwf Hj Hnone fuel _ Hh) as Hends.
  pose proof (lp_probe_pure fuel d k (lp_dict.home d k)) as Hpure.
  cbn [search lp_abstract_dict]. unfold on_object, lp_dict.search, bind, get.
  cbn [fst snd].
  destruct (lp_dict.probe fuel k (lp_dict.home d k) d) as [[index|e|] d'];
    cbn [fst snd] in *.
  - unfold ret, throw. destruct (lp_dict.slot d' index) as [e|]; [|done].
    by destruct (bool_decide _).
  - done.
  - exfalso. apply Hends; [|done].
    pose proof (lp_distance_bound _ _ _ Hh Hj). unfold lp_enough in Hfuel. lia.
Qed.

Lemma lp_set_ends fuel k v g (d : lp_dict.t Z) m :
  lp_inv d → lp_can_take d (S m) → lp_enough d fuel →
  (set fuel k v (g, d)).1 ≠ Spin
  ∧ lp_can_take (set fuel k v (g, d)).2.2 m
  ∧ lp_enough (set fuel k v (g, d)).2.2 fuel.
Proof.
  intros [Hwf _] Hroom Hfuel.
  assert (lp_can_take d 0) as Hroom0 by (unfold lp_can_take in *; lia).
  destruct (lp_empty_slot d Hwf Hroom0) as (j & Hj & Hnone).
  pose proof (lp_home_range d k Hwf) as Hh.
  pose proof (lp_probe_ends d k j Hwf Hj Hnone fuel _ Hh) as Hends.
  pose proof (lp_probe_pure fuel d k (lp_dict.home d k)) as Hpure.
  cbn [set lp_abstract_dict]. unfold on_object. cbn [fst snd].
  rewrite lp_set_result.
  destruct (lp_dict.probe fuel k (lp_dict.home d k) d) as [[index|e|] d'];
    cbn [fst snd] in *; subst d'.
  - split; [done|]. split; [|done].
    unfold lp_can_take, lp_occupied in *. cbn [lp_dict.entries].
    rewrite length_insert.
    pose proof (omap_id_insert_le (lp_dict.entries d) (Z.to_nat index) (Entry k v)). lia.
  - split; [done|]. split; [|done]. unfold lp_can_take in *. lia.
  - exfalso. apply Hends; [|done].
    pose proof (lp_distance_bound _ _ _ Hh Hj). unfold lp_enough in Hfuel. lia.
Qed.

(** ** Calls that end: the three dictionaries without relocation *)

Lemma naive_never_spins fuel k v g (d : naive_dict.t Z) :
  (search fuel k (g, d)).1 ≠ Spin ∧ (set fuel k v (g, d)).1 ≠ Spin.
Proof.
  cbn [search set naive_abstract_dict].
  unfold on_object, naive_dict.search, naive_dict.set, naive_dict.search_iterator,
    bind, get, ret, put, throw. cbn [fst snd].
  by destruct (naive_dict.entries_ d !! _).
Qed.

Lemma chain_never_spins fuel k v g (d : chain_dict.t Z) :
  (search fuel k (g, d)).1 ≠ Spin ∧ (set fuel k v (g, d)).1 ≠ Spin.
Proof.
  cbn [search set chain_abstract_dict].
  unfold on_object, chain_dict.search, chain_dict.set, bind, get, ret, put, throw.
  cbn [fst snd]. by destruct (chain_dict.scan _ _).
Qed.

#[global] Instance naive_dict_ends : dict_ends (naive_dict.t Z) := {|
  can_take _ _ := True;
  enough _ _ := True;
  can_take_less _ _ _ := I;
  search_ends fuel k g d _ _ _ := proj1 (naive_never_spins fuel k 0 g d);
  set_ends fuel k v g d _ _ _ _ _ :=
    conj (proj2 (naive_never_spins fuel k v g d)) (conj I I)
|}.

#[global] Instance chain_dict_ends : dict_ends (chain_dict.t Z) := {|
  can_take _ _ := True;
  enough _ _ := True;
  can_take_less _ _ _ := I;
  search_ends fuel k g d _ _ _ := proj1 (chain_never_spins fuel k 0 g d);
  set_ends fuel k v g d _ _ _ _ _ :=
    conj (proj2 (chain_never_spins fuel k v g d)) (conj I I)
|}.

Lemma lp_can_take_less (d : lp_dict.t Z) m : lp_can_take d (S m) → lp_can_take d m.
Proof. unfold lp_can_take. lia. Qed.

#[global] Instance lp_dict_ends : dict_ends (lp_dict.t Z) := {|
  can_take := lp_can_take;
  enough := lp_enough;
  can_take_less := lp_can_take_less;
  search_ends := lp_search_ends;
  set_ends fuel k v g d m Hinv Hroom Hfuel _ := lp_set_ends fuel k v g d m Hinv Hroom Hfuel
|}.

(** ** The driver on a dictionary whose calls end *)

Section driver_ends.
Context {D : Type} `{dict_ends D}.

Lemma can_take_le (d : D) m m' : can_take d m → (m' ≤ m)%nat → can_take d m'.
Proof.
  intros Hm Hle. induction Hle as [|m Hle IH]; [done|].
  apply IH. by apply can_take_less.
Qed.

Lemma check_all_absent_ends fuel vec : ∀ g (d : D) L,
  holds d L → (∀ x, x ∈ vec → x ∉ L) → can_take d 0 → enough d fuel →
  benchmark.check_all_absent fuel vec (g, d) = (Val false, (g, d)).
Proof.
  intros g d L Hd Hvec Hroom Hfuel.
  assert ((benchmark.check_all_absent fuel vec (g, d)).1 ≠ Spin) as Hends.
  { clear Hvec. induction vec as [|x vec IH]; cbn [benchmark.check_all_absent]; [done|].
    unfold bind at 1. unfold benchmark.try_catch_out_of_range. unfold bind at 1.
    pose proof (search_ends fuel x g d (proj1 Hd) Hroom Hfuel) as Hs.
    destruct (search fuel x (g, d)) as [r0 w0] eqn:Hrun. cbn [fst] in Hs.
    destruct (search_sound fuel x g d r0 w0 (proj1 Hd) Hrun Hs) as [-> Hres].
    destruct r0 as [v|e|]; [done| |done]. by destruct Hres as [-> _]. }
  destruct (benchmark.check_all_absent fuel vec (g, d)) as [r w'] eqn:Hrun.
  by destruct (check_all_absent_passes fuel vec g d L r w' Hd Hvec Hrun Hends) as [-> ->].
Qed.

Lemma check_all_present_ends fuel vec : ∀ g (d : D) L,
  holds d L → (∀ x, x ∈ vec → x ∈ L) → can_take d 0 → enough d fuel →
  benchmark.check_all_present fuel vec (g, d) = (Val false, (g, d)).
Proof.
  intros g d L Hd Hvec Hroom Hfuel.
  assert ((benchmark.check_all_present fuel vec (g, d)).1 ≠ Spin) as Hends.
  { clear Hvec. induction vec as [|x vec IH]; cbn [benchmark.check_all_present]; [done|].
    unfold bind at 1. unfold benchmark.try_catch_out_of_range. unfold bind at 1.
    pose proof (search_ends fuel x g d (proj1 Hd) Hroom Hfuel) as Hs.
    destruct (search fuel x (g, d)) as [r0 w0] eqn:Hrun. cbn [fst] in Hs.
    destruct (search_sound fuel x g d r0 w0 (proj1 Hd) Hrun Hs) as [-> Hres].
    destruct r0 as [v|e|]; [|by destruct Hres as [-> _]|done].
    by destruct (bool_decide _). }
  destruct (benchmark.check_all_present fuel vec (g, d)) as [r w'] eqn:Hrun.
  by destruct (check_all_present_passes fuel vec g d L r w' Hd Hvec Hrun Hends) as [-> ->].
Qed.

Lemma insert_all_ends fuel vec : ∀ g (d : D) L m,
  holds d L → NoDup vec → (∀ x, x ∈ vec → x ∉ L) → Forall is_u32 vec →
  can_take d (length vec + m) → enough d fuel →
  ∃ g' d', benchmark.insert_all fuel vec (g, d) = (Val tt, (g', d'))
           ∧ holds d' (L ++ vec) ∧ can_take d' m ∧ enough d' fuel.
Proof.
  induction vec as [|x vec IH]; intros g d L m Hd Hnd Hvec Hu Hroom Hfuel.
  - exists g, d. by rewrite app_nil_r.
  - apply NoDup_cons in Hnd as [Hx Hnd].
    inversion Hu as [|? ? Hux Hu']; subst.
    assert (∀ e, stored d e → key_ e ≠ x) as Hfresh.
    { intros e He Hk. apply (proj2 Hd) in He as [Hin _]. rewrite Hk in Hin.
      apply (Hvec x); [by left|done]. }
    destruct (set_ends fuel x (to_u32 (x + 1)) g d (length vec + m)
                (proj1 Hd) Hroom Hfuel Hfresh) as (Hends & Hroom1 & Hfuel1).
    destruct (insert_all_inserts fuel [x] g d L
                (benchmark.insert_all fuel [x] (g, d)).1
                (benchmark.insert_all fuel [x] (g, d)).2 Hd) as [Hval Hd1].
    { apply NoDup_singleton. }
    { intros y Hy. apply list_elem_of_singleton in Hy as ->. apply Hvec. by left. }
    { by constructor. }
    { by destruct (benchmark.insert_all fuel [x] (g, d)). }
    { unfold benchmark.insert_all. cbn [for_each]. unfold bind.
      destruct (set fuel x (to_u32 (x + 1)) (g, d)) as [[[]|e|] w1]; done. }
    unfold benchmark.insert_all in *. cbn [for_each] in *. unfold bind at 1.
    unfold bind in Hval, Hd1.
    destruct (set fuel x (to_u32 (x + 1)) (g, d)) as [[[]|e|] [g1 d1]]; try done.
    cbn [fst snd ret] in *.
    destruct (IH g1 d1 (L ++ [x]) m Hd1 Hnd) as (g' & d' & Hrun & Hd' & Hroom' & Hfuel');
      try done.
    { intros y Hy. rewrite elem_of_app, list_elem_of_singleton.
      intros [HyL | ->]; [|done]. apply (Hvec y); [by right|done]. }
    exists g', d'. by rewrite (cons_middle x L vec), app_assoc.
Qed.

Lemma return_1_if_false (check : M (rand_state * D) bool) rest w :
  check w = (Val false, w) → benchmark.return_1_if check rest w = rest w.
Proof. intros Hc. unfold benchmark.return_1_if, bind. by rewrite Hc. Qed.
End driver_ends.

Lemma workload_lengths shuffle n :
  0 ≤ n →
  let '(first_half, second_half, absent) := benchmark.workload shuffle n in
  (length first_half + length second_half ≤ Z.to_nat n)%nat.
Proof.
  intros Hn. unfold benchmark.workload, benchmark.sub_vector.
  assert (0 ≤ n / 2 ∧ 2 * (n / 2) ≤ n) as [Hh Hh2].
  { split; [apply Z.div_pos; lia|]. apply Z.mul_div_le. lia. }
  set (h := n / 2) in *. clearbody h.
  set (r := shuffle _ _).
  pose proof (length_take_le (drop (Z.to_nat 0) r) (Z.to_nat (h - 0))).
  pose proof (length_take_le (drop (Z.to_nat h) r) (Z.to_nat (to_u32 (h * 2) - h))).
  assert (to_u32 (h * 2) ≤ h * 2).
  { unfold to_u32. apply Z.mod_le; lia. }
  rewrite !length_take. lia.
Qed.

Lemma workload_thirds shuffle n :
  (∀ seed l, shuffle seed l ≡ₚ l) → 0 ≤ n < 2 ^ 31 →
  let '(first_half, second_half, absent) := benchmark.workload shuffle n in
  first_half ++ second_half ++ absent
    = shuffle benchmark.SEED (seqZ 0 (n / 2 * 3))
  ∧ Z.of_nat (length first_half) = n / 2
  ∧ Z.of_nat (length second_half) = n / 2
  ∧ Z.of_nat (length absent) = n / 2.
Proof.
  intros Hperm Hn. pose proof (workload_split shuffle n Hperm Hn) as Hw.
  unfold benchmark.workload, benchmark.sub_vector in *.
  assert (0 ≤ n / 2 < 2 ^ 30) as Hh.
  { split; [apply Z.div_pos; lia|]. apply Z.div_lt_upper_bound; lia. }
  set (h := n / 2) in *. clearbody h.
  rewrite (to_u32_small (h * 3)), (to_u32_small (h * 2)) in * by lia.
  set (r := shuffle benchmark.SEED (seqZ 0 (h * 3))) in *.
  assert (length r = Z.to_nat (h * 3)) as Hlen.
  { unfold r. rewrite (Hperm _ _). apply length_seqZ. }
  destruct Hw as (Heq & _). split; [exact Heq|].
  rewrite !length_take, !length_drop. lia.
Qed.

Lemma insert_and_search_ends {D : Type} `{dict_ends D} shuffle fuel n g (d : D) :
  (∀ seed l, shuffle seed l ≡ₚ l) → 0 ≤ n < 2 ^ 31 →
  holds d [] → can_take d (Z.to_nat n) → enough d fuel →
  (benchmark.insert_and_search shuffle fuel n (g, d)).1 = Val 0.
Proof.
  intros Hperm Hn Hd Hroom Hfuel. unfold benchmark.insert_and_search.
  pose proof (workload_split shuffle n Hperm Hn) as Hw.
  pose proof (workload_lengths shuffle n (proj1 Hn)) as Hlen.
  destruct (benchmark.workload shuffle n) as [[first_half second_half] absent].
  destruct Hw as (_ & Hnd & Hu).
  apply NoDup_app in Hnd as (Hnd1 & Hdis1 & Hnd23).
  apply NoDup_app in Hnd23 as (Hnd2 & Hdis2 & Hnd3).
  apply Forall_app in Hu as [Hu1 Hu23]. apply Forall_app in Hu23 as [Hu2 Hu3].
  assert (∀ x, x ∈ first_half → x ∉ second_half) as H12.
  { intros x Hx Hx'. apply (Hdis1 x Hx). apply elem_of_app. by left. }
  assert (∀ x, x ∈ first_half → x ∉ absent) as H13.
  { intros x Hx Hx'. apply (Hdis1 x Hx). apply elem_of_app. by right. }
  assert (∀ (vec : list Z) (x : Z), x ∈ vec → x ∉ @nil Z) as Hnil.
  { intros vec x _ Hx. by apply elem_of_nil in Hx. }
  pose proof (can_take_le d _ 0 Hroom (Nat.le_0_l _)) as Hroom0.
  rewrite !return_1_if_false
    by (apply (check_all_absent_ends fuel _ g d []); [done|apply Hnil|done|done]).
  destruct (insert_all_ends fuel first_half g d [] (length second_half) Hd Hnd1)
    as (g1 & d1 & Hrun1 & Hd1 & Hroom1 & Hfuel1); try done.
  { by apply Hnil. }
  { apply (can_take_le d _ _ Hroom). lia. }
  unfold bind at 1. rewrite Hrun1. cbn [app] in Hd1.
  pose proof (can_take_le d1 _ 0 Hroom1 (Nat.le_0_l _)) as Hroom10.
  rewrite return_1_if_false
    by (by apply (check_all_present_ends fuel _ g1 d1 first_half)).
  rewrite return_1_if_false
    by (apply (check_all_absent_ends fuel _ g1 d1 first_half); try done;
        intros x Hx Hx'; by apply (H12 x)).
  rewrite return_1_if_false
    by (apply (check_all_absent_ends fuel _ g1 d1 first_half); try done;
        intros x Hx Hx'; by apply (H13 x)).
  destruct (insert_all_ends fuel second_half g1 d1 first_half 0 Hd1 Hnd2)
    as (g2 & d2 & Hrun2 & Hd2 & Hroom2 & Hfuel2); try done.
  { intros x Hx Hx'. by apply (H12 x). }
  { by rewrite Nat.add_0_r. }
  unfold bind at 1. rewrite Hrun2.
  rewrite return_1_if_false
    by (apply (check_all_present_ends fuel _ g2 d2 (first_half ++ second_half));
        try done; intros x Hx; apply elem_of_app; by left).
  rewrite return_1_if_false
    by (apply (check_all_present_ends fuel _ g2 d2 (first_half ++ second_half));
        try done; intros x Hx; apply elem_of_app; by right).
  rewrite return_1_if_false; [done|].
  apply (check_all_absent_ends fuel _ g2 d2 (first_half ++ second_half)); try done.
  intros x Hx Hx'. apply elem_of_app in Hx' as [Hx'|Hx'].
  - by apply (H13 x).
  - by apply (Hdis2 x Hx').
Qed.

(** ** Runs that end, and runs that agree *)

Lemma lp_new_can_take n g :
  capacity_ok (2 * n) → lp_can_take (lp_dict.new (T:=Z) n g).1 (Z.to_nat n).
Proof.
  intros Hc. destruct (lp_new_shape n g) as [_ Hent]. cbn zeta in Hent.
  unfold lp_can_take, lp_occupied. rewrite Hent, length_replicate.
  assert (∀ m, omap id (replicate m (@None (entry Z))) = []) as ->.
  { induction m as [|m IH]; [done|]. simpl. exact IH. }
  unfold capacity_ok in Hc. simpl. lia.
Qed.

Lemma run_ends shuffle srand fuel now structure n :
  (∀ seed l, shuffle seed l ≡ₚ l) → 0 < n < 2 ^ 30 → 2 * n < Z.of_nat fuel →
  always_ends structure →
  benchmark.run shuffle srand fuel now structure n = Val 0.
Proof.
  intros Hperm Hn Hfuel Hs. unfold benchmark.run.
  assert (0 ≤ n < 2 ^ 31) as Hn' by lia.
  assert (capacity_ok n ∧ capacity_ok (2 * n)) as [Hc Hc2] by (unfold capacity_ok; lia).
  unfold always_ends in Hs. rewrite !elem_of_cons in Hs.
  destruct Hs as [-> | [-> | [-> | Hs]]]; [| | |by apply elem_of_nil in Hs].
  - rewrite bool_decide_true by done.
    by apply insert_and_search_ends; [done|done|apply holds_new_naive| |].
  - rewrite bool_decide_false, bool_decide_true by done.
    pose proof (holds_new_chain n (srand now) Hc) as Hd.
    destruct (chain_dict.new n (srand now)) as [d g'].
    by apply insert_and_search_ends.
  - rewrite !bool_decide_false, bool_decide_true by done.
    pose proof (holds_new_lp n (srand now) Hc2) as Hd.
    pose proof (lp_new_can_take n (srand now) Hc2) as Hroom.
    assert (lp_enough (lp_dict.new (T:=Z) n (srand now)).1 fuel) as Hen.
    { unfold lp_enough. destruct (lp_new_shape n (srand now)) as [-> _].
      rewrite to_int_small; unfold capacity_ok in Hc2; lia. }
    destruct (lp_dict.new n (srand now)) as [d g'].
    by apply insert_and_search_ends.
Qed.

Lemma main_ends stoi shuffle srand fuel now arguments :
  (∀ seed l, shuffle seed l ≡ₚ l) → size_fits stoi arguments →
  structure_always_ends arguments → fuel_covers stoi arguments fuel →
  benchmark.main stoi shuffle srand fuel now arguments = expected_exit stoi arguments.
Proof.
  intros Hperm Hfits Hs Hfuel. unfold benchmark.main, expected_exit.
  destruct arguments as [|a0 [|structure [|n_string [|a3 rest]]]]; try done.
  specialize (Hfits n_string). specialize (Hfuel n_string).
  specialize (Hs structure eq_refl).
  destruct (stoi n_string) as [parsed| |]; try done.
  destruct (bool_decide (parsed ≤ 0)) eqn:Hp; [done|].
  apply bool_decide_eq_false in Hp.
  specialize (Hfits parsed eq_refl eq_refl). specialize (Hfuel parsed eq_refl eq_refl).
  rewrite run_ends by (done || lia).
  rewrite bool_decide_true; [done|].
  unfold always_ends in Hs. rewrite !elem_of_cons in *. tauto.
Qed.

(** C8: two runs of the driver on the same arguments, at any two times (the
    seed of [rand()] is [time(0)]) and with any fuel, end alike whenever
    both end: with the same exit code, or in the same exception of [stoi].
    For [naive], [chain] and [lp], with fuel for one test of each slot, both
    runs do end. The partition into [first_half], [second_half] and
    [absent] is the same in every run: the three thirds of the range
    [[0, 3 * (n / 2))] as [std::shuffle] orders it with [mt19937 gen(SEED)],
    [SEED] being the constant 0; neither the time nor the dictionary occurs
    in it. Two runs with the same seed are the case [now1 = now2]. *)
Theorem benchmark_runs_agree stoi shuffle srand (fuel1 fuel2 : nat) (now1 now2 : Z)
    (arguments : list string) :
  (∀ seed l, shuffle seed l ≡ₚ l) → size_fits stoi arguments →
  let run1 := benchmark.main stoi shuffle srand fuel1 now1 arguments in
  let run2 := benchmark.main stoi shuffle srand fuel2 now2 arguments in
  (run1 ≠ Spin → run2 ≠ Spin → run1 = run2)
  ∧ (structure_always_ends arguments →
     fuel_covers stoi arguments fuel1 → fuel_covers stoi arguments fuel2 →
     run1 ≠ Spin ∧ run1 = run2)
  ∧ (∀ n, 0 ≤ n < 2 ^ 31 →
     let '(first_half, second_half, absent) := benchmark.workload shuffle n in
     first_half ++ second_half ++ absent
       = shuffle benchmark.SEED (seqZ 0 (n / 2 * 3))
     ∧ Z.of_nat (length first_half) = n / 2
     ∧ Z.of_nat (length second_half) = n / 2
     ∧ Z.of_nat (length absent) = n / 2).
Proof.
  intros Hperm Hfits run1 run2. subst run1 run2. split; [|split].
  - intros Hr1 Hr2.
    rewrite (main_outcome stoi shuffle srand fuel1 now1 arguments Hperm Hfits Hr1).
    by rewrite (main_outcome stoi shuffle srand fuel2 now2 arguments Hperm Hfits Hr2).
  - intros Hs Hf1 Hf2.
    rewrite (main_ends stoi shuffle srand fuel1 now1 arguments Hperm Hfits Hs Hf1).
    rewrite (main_ends stoi shuffle srand fuel2 now2 arguments Hperm Hfits Hs Hf2).
    split; [|done]. unfold expected_exit.
    destruct arguments as [|a0 [|structure [|n_string [|a3 rest]]]]; try done.
    destruct (stoi n_string); try done. by repeat destruct (bool_decide _).
  - intros n Hn. by apply workload_thirds.
Qed.

Lemma example_shuffle_permutes seed l : example_shuffle seed l ≡ₚ l.
Proof. apply reverse_Permutation. Qed.

Lemma example_size_fits arguments : size_fits example_stoi arguments.
Proof.
  intros n_string parsed _. unfold example_stoi.
  destruct (bool_decide _); [|done]. intros [= <-]. lia.
Qed.

Lemma example_fuel_covers arguments : fuel_covers example_stoi arguments 13.
Proof.
  intros n_string parsed _. unfold example_stoi.
  destruct (bool_decide _); [|done]. intros [= <-]. lia.
Qed.

Lemma benchmark_runs_agree_witness :
  benchmark.main example_stoi example_shuffle example_srand 50 1
    ["benchmark"; "cuckoo"; "6"]%string
  = benchmark.main example_stoi example_shuffle example_srand 60 2
      ["benchmark"; "cuckoo"; "6"]%string
  ∧ benchmark.main example_stoi example_shuffle example_srand 13 1
      ["benchmark"; "lp"; "6"]%string
    = benchmark.main example_stoi example_shuffle example_srand 13 2
        ["benchmark"; "lp"; "6"]%string.
Proof.
  split.
  - apply (proj1 (benchmark_runs_agree example_stoi example_shuffle example_srand
                    50 60 1 2 _ example_shuffle_permutes (example_size_fits _))).
    + vm_compute. discriminate.
    + vm_compute. discriminate.
  - apply (proj1 (proj2 (benchmark_runs_agree example_stoi example_shuffle example_srand
                    13 13 1 2 _ example_shuffle_permutes (example_size_fits _)))).
    + intros structure Hs. injection Hs as <-.
      unfold always_ends. rewrite !elem_of_cons. tauto.
    + apply example_fuel_covers.
    + apply example_fuel_covers.
Defined.

(** * Part IV: the dictionaries as maps, and the rest of the code *)

(** ** [naive_dict] *)

Lemma first_value_last k ops op :
  last_value k (ops ++ [op])
  = if op.1 =? k then Some op.2 else last_value k ops.
Proof. unfold last_value. by rewrite reverse_snoc. Qed.

Lemma naive_search_first_entry (d : naive_dict.t Z) k :
  (naive_dict.search k d).1 = answer (first_entry k (naive_dict.entries_ d)).
Proof.
  unfold naive_dict.search, naive_dict.search_iterator, bind, get, ret, throw.
  cbn [fst snd]. induction (naive_dict.entries_ d) as [|e l IH]; [done|].
  cbn [naive_dict.find_if first_entry]. destruct (key_ e =? k); [done|].
  cbn [lookup list_lookup]. exact IH.
Qed.

Lemma naive_set_update (d : naive_dict.t Z) k v :
  naive_dict.set k v d = (Val tt, naive_dict.mk (naive_update k v (naive_dict.entries_ d))).
Proof.
  unfold naive_dict.set, naive_dict.search_iterator, bind, get, ret, put.
  assert (∀ l : list (entry Z),
    match l !! naive_dict.find_if (λ e : entry Z, key_ e =? k) l with
    | Some e => <[naive_dict.find_if (λ e : entry Z, key_ e =? k) l := set_value v e]> l
    | None => l ++ [Entry k v]
    end = naive_update k v l) as Hl.
  { induction l as [|e l IH]; [done|].
    cbn [naive_dict.find_if naive_update]. destruct (key_ e =? k); [done|].
    cbn [lookup list_lookup]. rewrite <- IH.
    by destruct (l !! _). }
  specialize (Hl (naive_dict.entries_ d)).
  destruct (naive_dict.entries_ d !! _); by rewrite <- Hl.
Qed.

Lemma first_entry_update k v k' l :
  first_entry k' (naive_update k v l)
  = if k =? k' then Some v else first_entry k' l.
Proof.
  induction l as [|e l IH]; cbn [naive_update first_entry key_ value_]; [done|].
  destruct (key_ e =? k) eqn:Hk; cbn [first_entry set_value key_ value_].
  - apply Z.eqb_eq in Hk as ->. by destruct (k =? k').
  - destruct (key_ e =? k') eqn:Hk'; [|exact IH].
    apply Z.eqb_eq in Hk' as <-. by rewrite Z.eqb_sym, Hk.
Qed.

Lemma keys_update k v (l : list (entry Z)) :
  key_ <$> naive_update k v l
  = if decide (k ∈ key_ <$> l) then key_ <$> l else (key_ <$> l) ++ [k].
Proof.
  induction l as [|e l IH]; cbn [naive_update fmap list_fmap].
  - rewrite decide_False; [done|]. apply not_elem_of_nil.
  - destruct (key_ e =? k) eqn:Hk.
    + apply Z.eqb_eq in Hk as <-. rewrite decide_True by left. done.
    + apply Z.eqb_neq in Hk. cbn [fmap list_fmap]. rewrite IH.
      destruct (decide (k ∈ key_ <$> l)) as [Hin|Hin].
      * rewrite decide_True by (by right). done.
      * rewrite decide_False; [done|]. intros Hc.
        apply elem_of_cons in Hc as [->|Hc]; done.
Qed.

(** X1: in any state of [naive_dict], [set(k, v)] returns, and afterwards
    [search(k)] returns [v] while [search] of every other key answers as
    before: a value, or [out_of_range]. *)
Theorem naive_set_updates_one_key (d : naive_dict.t Z) (k v k' : Z) :
  (naive_dict.set k v d).1 = Val tt
  ∧ (naive_dict.search k' (naive_dict.set k v d).2).1
    = if bool_decide (k' = k) then Val v else (naive_dict.search k' d).1.
Proof.
  rewrite naive_set_update. cbn [fst snd]. split; [done|].
  rewrite !naive_search_first_entry. cbn [naive_dict.entries_].
  rewrite first_entry_update. case_bool_decide as Hk.
  - subst k'. by rewrite Z.eqb_refl.
  - destruct (k =? k') eqn:E; [|done]. apply Z.eqb_eq in E. by subst.
Qed.

(** X2: after any sequence of calls of [set] on a new [naive_dict], no two
    entries have the same key, and [search(k)] returns the value of the last
    call for [k], or throws [out_of_range] when there was none. *)
Theorem naive_dict_is_a_map (capacity : Z) (ops : list (Z * Z)) (k : Z) :
  let d := naive_sets ops (naive_dict.new capacity) in
  NoDup (key_ <$> naive_dict.entries_ d)
  ∧ (naive_dict.search k d).1 = answer (last_value k ops).
Proof.
  induction ops as [|op ops IH] using rev_ind; cbn zeta in *.
  - split; [constructor|done].
  - unfold naive_sets in *. rewrite foldl_app. cbn [foldl].
    set (d := foldl _ _ ops) in *. destruct IH as [Hnd Hs].
    rewrite naive_set_update. cbn [snd naive_dict.entries_]. split.
    + rewrite keys_update. destruct (decide _) as [Hin|Hin]; [done|].
      apply NoDup_app. split; [done|]. split; [|apply NoDup_singleton].
      intros x Hx Hx'. apply list_elem_of_singleton in Hx' as ->. done.
    + rewrite naive_search_first_entry in *. cbn [naive_dict.entries_].
      rewrite first_entry_update, first_value_last.
      destruct (op.1 =? k); [done|]. exact Hs.
Qed.

(** ** [chain_dict] *)

Lemma chain_set_inv (d : chain_dict.t Z) k v :
  chain_inv d → chain_inv (chain_dict.set k v d).2.
Proof.
  intros (Hc & Hl & Hp). destruct (chain_set_fields d k v) as (_ & Hcap & Hlen).
  cbn zeta in *. split; [by rewrite Hcap|]. split; [by rewrite Hcap, Hlen|].
  by apply chain_set_placed.
Qed.

Lemma chain_scan_answer (d : chain_dict.t Z) k :
  chain_inv d →
  (chain_dict.search k d).1
  = answer (chain_dict.scan k (chain_dict.bucket d (chain_dict.bucket_index d k))).
Proof.
  intros Hinv. rewrite (chain_search_scan d k _ (chain_bucket_lookup d k Hinv)).
  by destruct (chain_dict.scan _ _).
Qed.

Lemma chain_bucket_after_set (d : chain_dict.t Z) k v k' :
  chain_inv d →
  chain_dict.bucket (chain_dict.set k v d).2 (chain_dict.bucket_index d k')
  = if decide (chain_dict.bucket_index d k' = chain_dict.bucket_index d k)
    then chain_dict.bucket d (chain_dict.bucket_index d k') ++ [Entry k v]
    else chain_dict.bucket d (chain_dict.bucket_index d k').
Proof.
  intros Hinv. pose proof (chain_bucket_lookup d k' Hinv) as Hb'.
  destruct Hinv as (Hc & _ & _).
  pose proof (chain_bucket_index_range d k Hc).
  pose proof (chain_bucket_index_range d k' Hc).
  unfold chain_dict.bucket at 1. rewrite chain_set_entries.
  apply list_lookup_total_correct.
  destruct (decide _) as [He|Hne].
  - by rewrite <- He, list_lookup_alter_eq, Hb'.
  - rewrite list_lookup_alter_ne by lia. exact Hb'.
Qed.

Lemma chain_search_after_set (d : chain_dict.t Z) k v k' :
  chain_inv d →
  (chain_dict.search k' (chain_dict.set k v d).2).1
  = if bool_decide (k' = k)
    then match (chain_dict.search k d).1 with
         | Val v0 => Val v0
         | _ => Val v
         end
    else (chain_dict.search k' d).1.
Proof.
  intros Hinv. rewrite (chain_scan_answer _ k' (chain_set_inv d k v Hinv)).
  rewrite chain_set_bucket_index, (chain_bucket_after_set d k v k' Hinv).
  rewrite !chain_scan_answer by done.
  case_bool_decide as Hk.
  - subst k'. rewrite decide_True by done. rewrite chain_scan_app.
    destruct (chain_dict.scan k (chain_dict.bucket d _)); [done|].
    simpl. by rewrite Z.eqb_refl.
  - destruct (decide _); [|done]. rewrite chain_scan_app.
    destruct (chain_dict.scan k' (chain_dict.bucket d _)); [done|].
    simpl. destruct (k =? k') eqn:E; [|done]. apply Z.eqb_eq in E. by subst.
Qed.

Lemma concat_alter_snoc {A} (l : list (list A)) i x :
  (i < length l)%nat →
  length (concat (alter (λ b, b ++ [x]) i l)) = S (length (concat l)).
Proof.
  revert i. induction l as [|b l IH]; intros i Hi; [simpl in Hi; lia|].
  destruct i as [|i].
  - change (alter (λ b, b ++ [x]) 0%nat (b :: l)) with ((b ++ [x]) :: l).
    cbn [concat]. rewrite !length_app. simpl. lia.
  - change (alter (λ b, b ++ [x]) (S i) (b :: l))
      with (b :: alter (λ b, b ++ [x]) i l).
    cbn [concat]. rewrite !length_app, IH by (simpl in Hi; lia). lia.
Qed.

Lemma chain_set_size (d : chain_dict.t Z) k v :
  chain_inv d → chain_size (chain_dict.set k v d).2 = S (chain_size d).
Proof.
  intros (Hc & Hl & _). pose proof (chain_bucket_index_range d k Hc).
  unfold chain_size. rewrite chain_set_entries. apply concat_alter_snoc. lia.
Qed.

(** X3: in a well-formed [chain_dict], [set(k, v)] returns and adds one
    entry; afterwards [search(k)] returns the value it returned before, or
    [v] if it threw, and [search] of every other key answers as before. *)
Theorem chain_set_first_value_stays (d : chain_dict.t Z) (k v k' : Z) :
  chain_inv d →
  (chain_dict.set k v d).1 = Val tt
  ∧ chain_inv (chain_dict.set k v d).2
  ∧ chain_size (chain_dict.set k v d).2 = S (chain_size d)
  ∧ (chain_dict.search k' (chain_dict.set k v d).2).1
    = if bool_decide (k' = k)
      then match (chain_dict.search k d).1 with
           | Val v0 => Val v0
           | _ => Val v
           end
      else (chain_dict.search k' d).1.
Proof.
  intros Hinv. split; [done|]. split; [by apply chain_set_inv|].
  split; [by apply chain_set_size|by apply chain_search_after_set].
Qed.

Lemma chain_new_is_inv c g : capacity_ok c → chain_inv (chain_dict.new (T:=Z) c g).1.
Proof. intros Hc. by destruct (chain_new_inv c g Hc). Qed.

Lemma chain_set_first_value_stays_witness :
  let d := (chain_dict.new (T:=Z) 4 example_rand).1 in
  (chain_dict.set 1 10 d).1 = Val tt
  ∧ chain_inv (chain_dict.set 1 10 d).2
  ∧ chain_size (chain_dict.set 1 10 d).2 = S (chain_size d)
  ∧ (chain_dict.search 5 (chain_dict.set 1 10 d).2).1
    = if bool_decide (5 = 1)
      then match (chain_dict.search 1 d).1 with
           | Val v0 => Val v0
           | _ => Val 10
           end
      else (chain_dict.search 5 d).1.
Proof.
  apply (chain_set_first_value_stays _ 1 10 5).
  apply chain_new_is_inv. unfold capacity_ok. lia.
Defined.

Lemma first_value_app k ops op :
  first_value k (ops ++ [op])
  = match first_value k ops with
    | Some v => Some v
    | None => if op.1 =? k then Some op.2 else None
    end.
Proof.
  induction ops as [|o ops IH]; cbn [app first_value]; [done|].
  by destruct (o.1 =? k).
Qed.

(** X4: after any sequence of calls of [set] on a new [chain_dict], the
    table holds one entry for each call, and [search(k)] returns the value
    of the first call for [k], or throws [out_of_range] when there was none. *)
Theorem chain_dict_first_set_wins (capacity : Z) (g : rand_state)
    (ops : list (Z * Z)) (k : Z) :
  capacity_ok capacity →
  let d := chain_sets ops (chain_dict.new capacity g).1 in
  chain_size d = length ops
  ∧ (chain_dict.search k d).1 = answer (first_value k ops).
Proof.
  intros Hc. cbn zeta.
  assert (chain_inv (chain_sets ops (chain_dict.new (T:=Z) capacity g).1)
          ∧ chain_size (chain_sets ops (chain_dict.new (T:=Z) capacity g).1) = length ops
          ∧ ∀ k, (chain_dict.search k (chain_sets ops (chain_dict.new (T:=Z) capacity g).1)).1
                 = answer (first_value k ops)) as (_ & Hsize & Hsearch).
  { induction ops as [|op ops IH] using rev_ind.
    - destruct (chain_new_inv capacity g Hc) as [Hinv Hempty].
      split; [done|]. split.
      + unfold chain_size, chain_sets. cbn [foldl].
        destruct (chain_new_shape (T:=Z) capacity g) as [_ ->].
        induction (Z.to_nat capacity) as [|n IHn]; [done|exact IHn].
      + intros k0. rewrite chain_scan_answer by done. cbn [chain_sets foldl first_value].
        pose proof (chain_scan_spec k0 (chain_dict.bucket (chain_dict.new (T:=Z) capacity g).1
          (chain_dict.bucket_index (chain_dict.new (T:=Z) capacity g).1 k0))) as Hs.
        destruct (chain_dict.scan k0 _) as [v|]; [|done].
        exfalso. apply list_elem_of_lookup in Hs as [j Hj].
        apply (Hempty (Entry k0 v)). eexists _, j, _. split; [|exact Hj].
        by apply chain_bucket_lookup.
    - destruct IH as (Hinv & Hsize & Hsearch).
      unfold chain_sets in *. rewrite foldl_app. cbn [foldl].
      split; [by apply chain_set_inv|]. split.
      + rewrite chain_set_size, Hsize, length_app by done. simpl. lia.
      + intros k0. rewrite chain_search_after_set, first_value_app by done.
        case_bool_decide as Hk.
        * subst k0. rewrite Hsearch, Z.eqb_refl.
          by destruct (first_value op.1 ops).
        * rewrite Hsearch. destruct (first_value k0 ops); [done|].
          destruct (op.1 =? k0) eqn:E; [|done]. apply Z.eqb_eq in E. by subst. }
  split; [done|apply Hsearch].
Qed.

Lemma chain_dict_first_set_wins_witness :
  let d := chain_sets [(1, 10); (5, 50); (1, 20)] (chain_dict.new 4 example_rand).1 in
  chain_size d = length [(1, 10); (5, 50); (1, 20)]
  ∧ (chain_dict.search 1 d).1 = answer (first_value 1 [(1, 10); (5, 50); (1, 20)]).
Proof.
  apply (chain_dict_first_set_wins 4 example_rand [(1, 10); (5, 50); (1, 20)] 1).
  unfold capacity_ok. lia.
Defined.

(** ** [lp_dict] *)

Lemma on_object_result {D A} (c : M D A) g d :
  on_object c (g, d) = ((c d).1, (g, (c d).2)).
Proof. unfold on_object. cbn [fst snd]. by destruct (c d). Qed.

Lemma lp_walk_insert_stop (d : lp_dict.t Z) key k v i j a :
  lp_wf d → 0 ≤ a < lp_dict.capacity_ d → lp_stop d k a →
  0 ≤ i < lp_dict.capacity_ d →
  lp_walk d key i j →
  lp_walk (lp_dict.mk (<[Z.to_nat a := Some (Entry k v)]> (lp_dict.entries d))
             (lp_dict.hashFunction d) (lp_dict.capacity_ d)) key i j.
Proof.
  intros Hwf Ha Hstop Hi Hw. induction Hw as [i|i j e He Hne Hw IH]; [constructor|].
  destruct (decide (i = a)) as [->|Hia].
  - eapply (lp_walk_step _ _ _ _ (Entry k v)).
    + rewrite lp_slot_insert by (done || lia). by rewrite decide_True.
    + cbn [key_]. by rewrite <- (Hstop e He).
    + apply IH. apply lp_next_range; [apply Hwf|done].
  - eapply lp_walk_step; [|exact Hne|].
    + rewrite lp_slot_insert by (done || lia). by rewrite decide_False.
    + apply IH. apply lp_next_range; [apply Hwf|done].
Qed.

Lemma lp_inv_unique (d : lp_dict.t Z) i i' e e' :
  lp_inv d → 0 ≤ i < lp_dict.capacity_ d → 0 ≤ i' < lp_dict.capacity_ d →
  lp_dict.slot d i = Some e → lp_dict.slot d i' = Some e' → key_ e = key_ e' →
  i = i'.
Proof.
  intros [Hwf Hinv] Hi Hi' He He' Hk.
  apply (lp_walk_deterministic d (key_ e) (lp_dict.home d (key_ e))).
  - by apply Hinv.
  - intros x Hx. rewrite He in Hx. by injection Hx as <-.
  - rewrite Hk. by apply Hinv.
  - intros x Hx. rewrite He' in Hx. by injection Hx as <-.
Qed.

Lemma lp_stored_unique (d : lp_dict.t Z) k v v' :
  lp_inv d → lp_stored d (Entry k v) → lp_stored d (Entry k v') → v = v'.
Proof.
  intros Hinv (i & Hi & He) (i' & Hi' & He').
  assert (i = i') as -> by (by eapply (lp_inv_unique d i i' _ _ Hinv)).
  congruence.
Qed.

(** What a call of [lp_dict::set] that returns has done. *)
Lemma lp_set_keeps_inv fuel k v (d d' : lp_dict.t Z) :
  lp_inv d → lp_dict.set fuel k v d = (Val tt, d') →
  lp_inv d'
  ∧ lp_dict.capacity_ d' = lp_dict.capacity_ d
  ∧ length (lp_dict.entries d') = length (lp_dict.entries d)
  ∧ (lp_occupied d' ≤ S (lp_occupied d))%nat
  ∧ ∀ x, lp_stored d' x ↔ x = Entry k v ∨ (lp_stored d x ∧ key_ x ≠ k).
Proof.
  intros [Hwf Hinv]. rewrite lp_set_result.
  pose proof (lp_probe_sound fuel k (lp_dict.home d k) d) as Hp.
  destruct (lp_dict.probe fuel k (lp_dict.home d k) d) as [[j|e|] d0] eqn:Hrun; try done.
  destruct (Hp _ _ Hwf (lp_home_range d k Hwf) eq_refl) as (-> & j' & [= <-] & Hj & Hw & Hs);
    [done|].
  intros [= <-].
  set (d' := lp_dict.mk _ _ _).
  assert (lp_wf d') as Hwf'.
  { destruct Hwf as [Hc Hl]. split; [done|]. unfold d'.
    cbn [lp_dict.entries lp_dict.capacity_]. by rewrite length_insert. }
  assert (∀ i, 0 ≤ i → lp_dict.slot d' i
                       = if decide (i = j) then Some (Entry k v) else lp_dict.slot d i)
    as Hslot by (intros i Hi; by apply lp_slot_insert).
  split; [split; [done|]|].
  - intros i e Hi He. change (lp_dict.home d' (key_ e)) with (lp_dict.home d (key_ e)).
    change (lp_dict.capacity_ d') with (lp_dict.capacity_ d) in Hi.
    apply lp_walk_insert_stop; try done; [by apply lp_home_range|].
    rewrite Hslot in He by lia. destruct (decide (i = j)) as [->|Hne].
    + by injection He as <-.
    + by apply Hinv.
  - split; [done|]. split; [apply length_insert|]. split; [apply omap_id_insert_le|].
    intros x. unfold lp_stored. change (lp_dict.capacity_ d') with (lp_dict.capacity_ d).
    split.
    + intros (i & Hi & Hx). rewrite Hslot in Hx by lia.
      destruct (decide (i = j)) as [->|Hne]; [left; congruence|right].
      split; [eauto|]. intros Hk. apply Hne.
      apply (lp_walk_deterministic d k (lp_dict.home d k)); try done.
      * rewrite <- Hk. by apply Hinv.
      * intros y Hy. rewrite Hx in Hy. by injection Hy as <-.
    + intros [-> | [(i & Hi & Hx) Hk]].
      * exists j. split; [done|]. rewrite Hslot by lia. by rewrite decide_True.
      * exists i. split; [done|]. rewrite Hslot by lia.
        destruct (decide (i = j)) as [->|Hne]; [|done].
        by specialize (Hs x Hx).
Qed.

Lemma lp_search_sound' fuel k (d : lp_dict.t Z) :
  lp_inv d → (lp_dict.search fuel k d).1 ≠ Spin →
  match (lp_dict.search fuel k d).1 with
  | Val v => lp_stored d (Entry k v)
  | Throw e => e = out_of_range ∧ ∀ x, lp_stored d x → key_ x ≠ k
  | Spin => False
  end.
Proof.
  intros Hinv Hr.
  destruct (lp_search_sound fuel k (λ _, 0) d (lp_dict.search fuel k d).1
              (λ _, 0, (lp_dict.search fuel k d).2) Hinv) as [_ H]; [|done|done].
  cbn [search lp_abstract_dict]. apply on_object_result.
Qed.

Lemma lp_search_ends' fuel k (d : lp_dict.t Z) :
  lp_inv d → lp_can_take d 0 → lp_enough d fuel → (lp_dict.search fuel k d).1 ≠ Spin.
Proof.
  intros Hinv Hroom Hfuel.
  pose proof (lp_search_ends fuel k (λ _, 0) d Hinv Hroom Hfuel) as H.
  cbn [search lp_abstract_dict] in H. by rewrite on_object_result in H.
Qed.

Lemma lp_set_ends' fuel k v (d : lp_dict.t Z) m :
  lp_inv d → lp_can_take d (S m) → lp_enough d fuel →
  ∃ d', lp_dict.set fuel k v d = (Val tt, d') ∧ lp_can_take d' m ∧ lp_enough d' fuel.
Proof.
  intros Hinv Hroom Hfuel.
  destruct (lp_set_ends fuel k v (λ _, 0) d m Hinv Hroom Hfuel) as (Hr & Hroom' & Hfuel').
  cbn [set lp_abstract_dict] in *. rewrite on_object_result in *. cbn [fst snd] in *.
  pose proof (lp_set_never_throws fuel k v d) as Hthrow.
  destruct (lp_dict.set fuel k v d) as [[[]|e|] d'] eqn:Hset; cbn [fst snd] in *.
  - by exists d'.
  - by specialize (Hthrow e).
  - done.
Qed.

(** The answers of [search] before and after a [set], both ending. *)
Lemma lp_search_after_set fuel k v k' (d d' : lp_dict.t Z) :
  lp_inv d → lp_dict.set fuel k v d = (Val tt, d') →
  (lp_dict.search fuel k' d).1 ≠ Spin → (lp_dict.search fuel k' d').1 ≠ Spin →
  (lp_dict.search fuel k' d').1
  = if bool_decide (k' = k) then Val v else (lp_dict.search fuel k' d).1.
Proof.
  intros Hinv Hset Hr Hr'.
  destruct (lp_set_keeps_inv fuel k v d d' Hinv Hset) as (Hinv' & _ & _ & _ & Hst).
  pose proof (lp_search_sound' fuel k' d Hinv Hr) as Hs.
  pose proof (lp_search_sound' fuel k' d' Hinv' Hr') as Hs'.
  case_bool_decide as Hk.
  - subst k'. destruct (lp_dict.search fuel k d').1 as [v'|e|]; [| |done].
    + apply Hst in Hs' as [[= ->]|[_ Hne]]; done.
    + destruct Hs' as [_ Hnone]. exfalso. apply (Hnone (Entry k v)); [|done].
      apply Hst. by left.
  - destruct (lp_dict.search fuel k' d').1 as [v'|e'|]; [| |done];
      destruct (lp_dict.search fuel k' d).1 as [v0|e|]; try done.
    + apply Hst in Hs' as [[= -> _]|[Hs' _]]; [done|].
      by rewrite (lp_stored_unique d k' v' v0 Hinv Hs' Hs).
    + apply Hst in Hs' as [[= -> _]|[Hs' _]]; [done|].
      destruct Hs as [_ Hnone]. by specialize (Hnone _ Hs').
    + destruct Hs' as [_ Hnone]. exfalso. apply (Hnone (Entry k' v0)); [|done].
      apply Hst. right. by split.
    + destruct Hs as [-> _], Hs' as [-> _]. done.
Qed.

(** X5: in an [lp_dict] with two empty slots, and with fuel for one test of
    each slot, [set(k, v)] returns; afterwards [search(k)] returns [v] and
    [search] of every other key answers as before, each live key is in one
    slot only, and a slot is still empty. *)
Theorem lp_set_updates_one_key (fuel : nat) (d : lp_dict.t Z) (k v k' : Z) :
  lp_inv d → lp_can_take d 1 → lp_enough d fuel →
  ∃ d', lp_dict.set fuel k v d = (Val tt, d')
        ∧ lp_inv d' ∧ lp_can_take d' 0
        ∧ (lp_dict.search fuel k' d').1
          = if bool_decide (k' = k) then Val v else (lp_dict.search fuel k' d).1.
Proof.
  intros Hinv Hroom Hfuel.
  destruct (lp_set_ends' fuel k v d 0 Hinv Hroom Hfuel) as (d' & Hset & Hroom' & Hfuel').
  destruct (lp_set_keeps_inv fuel k v d d' Hinv Hset) as (Hinv' & _).
  exists d'. split; [done|]. split; [done|]. split; [done|].
  apply (lp_search_after_set fuel k v k' d d' Hinv Hset).
  - apply lp_search_ends'; [done| |done]. unfold lp_can_take in *. lia.
  - by apply lp_search_ends'.
Qed.

Lemma lp_new_is_inv c g : capacity_ok (2 * c) → lp_inv (lp_dict.new c g).1.
Proof. intros Hc. by destruct (lp_new_inv c g Hc). Qed.

Lemma lp_set_updates_one_key_witness :
  ∃ d', lp_dict.set 5 7 70 (lp_dict.new 2 example_rand).1 = (Val tt, d')
        ∧ lp_inv d' ∧ lp_can_take d' 0
        ∧ (lp_dict.search 5 7 d').1
          = if bool_decide (7 = 7) then Val 70
            else (lp_dict.search 5 7 (lp_dict.new 2 example_rand).1).1.
Proof.
  apply (lp_set_updates_one_key 5 _ 7 70 7).
  - apply lp_new_is_inv. unfold capacity_ok. lia.
  - apply lp_can_take_less. apply (lp_new_can_take 2). unfold capacity_ok. lia.
  - unfold lp_enough. destruct (lp_new_shape 2 example_rand) as [-> _].
    vm_compute. reflexivity.
Defined.

Lemma lp_sets_invariant fuel c g ops :
  capacity_ok (2 * c) → Z.of_nat (length ops) < 2 * c → 2 * c < Z.of_nat fuel →
  let d := lp_sets fuel ops (lp_dict.new c g).1 in
  lp_inv d
  ∧ lp_dict.capacity_ d = 2 * c
  ∧ Z.of_nat (length (lp_dict.entries d)) = 2 * c
  ∧ (lp_occupied d ≤ length ops)%nat
  ∧ ∀ k v, lp_stored d (Entry k v) ↔ last_value k ops = Some v.
Proof.
  intros Hc. induction ops as [|op ops IH] using rev_ind; intros Hlen Hfuel; cbn zeta.
  - destruct (lp_new_inv c g Hc) as [Hinv Hempty].
    destruct (lp_new_shape c g) as [Hcap Hent]. cbn zeta in *.
    unfold lp_sets. cbn [foldl]. split; [done|].
    split; [rewrite Hcap; apply to_int_small; unfold capacity_ok in Hc; lia|].
    split; [rewrite Hent, length_replicate; unfold capacity_ok in Hc; lia|].
    split.
    + pose proof (lp_new_can_take c g Hc) as Hroom. unfold lp_can_take in Hroom.
      unfold lp_occupied. rewrite Hent.
      assert (∀ m, omap id (replicate m (@None (entry Z))) = []) as ->; [|done].
      induction m as [|m IHm]; [done|exact IHm].
    + intros k v. split; [intros Hs; by apply Hempty in Hs|done].
  - rewrite length_app in Hlen. cbn [length] in Hlen.
    destruct IH as (Hinv & Hcap & Hl & Hocc & Hst); [lia|done|].
    unfold lp_sets in *. rewrite foldl_app. cbn [foldl].
    set (d := foldl _ _ ops) in *.
    destruct (lp_set_ends' fuel op.1 op.2 d 0 Hinv) as (d' & Hset & _).
    { unfold lp_can_take. lia. }
    { unfold lp_enough. lia. }
    rewrite Hset. cbn [snd].
    destruct (lp_set_keeps_inv fuel _ _ d d' Hinv Hset) as (Hinv' & Hcap' & Hl' & Hocc' & Hst').
    split; [done|]. split; [congruence|]. split; [lia|].
    split; [rewrite length_app; simpl; lia|].
    intros k v. rewrite Hst', first_value_last, Hst. cbn [key_].
    destruct (op.1 =? k) eqn:E.
    + apply Z.eqb_eq in E. split.
      * intros [[= _ ->]|[_ Hne]]; [done|]. by destruct Hne.
      * intros [= ->]. left. by rewrite E.
    + apply Z.eqb_neq in E. split.
      * intros [[= Hk _]|[H _]]; [by destruct E|done].
      * intros H. right. split; [done|]. by intros ->.
Qed.

Lemma for_each_snoc {S A} (f : A → M S unit) (l : list A) (x : A) : ∀ s,
  for_each f (l ++ [x]) s = (for_each f l ;; f x) s.
Proof.
  induction l as [|y l IH]; intros s; cbn [for_each app].
  - unfold bind, ret. by destruct (f x s) as [[[]|e|] s'].
  - unfold bind in *. destruct (f y s) as [[[]|e|] s1]; [apply IH|done..].
Qed.

(** Every call of the sequence returns. *)
Lemma lp_run_sets_returns fuel c g ops :
  capacity_ok (2 * c) → Z.of_nat (length ops) < 2 * c → 2 * c < Z.of_nat fuel →
  lp_run_sets fuel ops (lp_dict.new c g).1
  = (Val tt, lp_sets fuel ops (lp_dict.new c g).1).
Proof.
  intros Hc. induction ops as [|op ops IH] using rev_ind; intros Hlen Hfuel; [done|].
  rewrite length_app in Hlen. cbn [length] in Hlen.
  destruct (lp_sets_invariant fuel c g ops Hc) as (Hinv & Hcap & Hl & Hocc & _);
    [lia|done|]. cbn zeta in *.
  unfold lp_run_sets in *. rewrite for_each_snoc. unfold bind.
  rewrite IH by (done || lia).
  unfold lp_sets. rewrite foldl_app. cbn [foldl].
  fold (lp_sets fuel ops (lp_dict.new (T:=Z) c g).1).
  destruct (lp_set_ends' fuel op.1 op.2 _ 0 Hinv) as (d' & Hset & _).
  { unfold lp_can_take. lia. }
  { unfold lp_enough. lia. }
  by rewrite Hset.
Qed.

(** X6: a new [lp_dict(capacity)] takes any sequence of fewer than
    [2 * capacity] calls of [set], each with fuel for one test of each slot:
    every call returns, and in the table [d] they leave each live key is in
    one slot only, the live entries are no more than the calls, and
    [search(k)] returns the value of the last call for [k], or throws
    [out_of_range] when there was none. *)
Theorem lp_dict_is_a_map (fuel : nat) (capacity : Z) (g : rand_state)
    (ops : list (Z * Z)) (k : Z) :
  capacity_ok (2 * capacity) →
  Z.of_nat (length ops) < 2 * capacity → 2 * capacity < Z.of_nat fuel →
  ∃ d,
    lp_run_sets fuel ops (lp_dict.new capacity g).1 = (Val tt, d)
    ∧ lp_inv d
    ∧ (lp_occupied d ≤ length ops)%nat
    ∧ (∀ i i' e e', 0 ≤ i < 2 * capacity → 0 ≤ i' < 2 * capacity →
         lp_dict.slot d i = Some e → lp_dict.slot d i' = Some e' →
         key_ e = key_ e' → i = i')
    ∧ (lp_dict.search fuel k d).1 = answer (last_value k ops).
Proof.
  intros Hc Hlen Hfuel.
  exists (lp_sets fuel ops (lp_dict.new capacity g).1).
  split; [by apply lp_run_sets_returns|].
  destruct (lp_sets_invariant fuel capacity g ops Hc Hlen Hfuel)
    as (Hinv & Hcap & Hl & Hocc & Hst). cbn zeta in *.
  set (d := lp_sets fuel ops (lp_dict.new capacity g).1) in *.
  split; [done|]. split; [done|]. split.
  - intros i i' e e' Hi Hi'. rewrite <- Hcap in Hi, Hi'. by apply lp_inv_unique.
  - assert ((lp_dict.search fuel k d).1 ≠ Spin) as Hr.
    { apply lp_search_ends'; [done|unfold lp_can_take; lia|unfold lp_enough; lia]. }
    pose proof (lp_search_sound' fuel k d Hinv Hr) as Hs.
    destruct (lp_dict.search fuel k d).1 as [v|e|]; [| |done].
    + apply Hst in Hs. by rewrite Hs.
    + destruct Hs as [-> Hnone]. destruct (last_value k ops) as [v|] eqn:E; [|done].
      apply Hst in E. by specialize (Hnone _ E).
Qed.

Lemma lp_dict_is_a_map_witness :
  ∃ d,
    lp_run_sets 5 [(7, 70); (8, 80); (7, 71)] (lp_dict.new 2 example_rand).1
    = (Val tt, d)
    ∧ (lp_dict.search 5 7 d).1 = answer (last_value 7 [(7, 70); (8, 80); (7, 71)]).
Proof.
  destruct (lp_dict_is_a_map 5 2 example_rand [(7, 70); (8, 80); (7, 71)] 7)
    as (d & Hrun & _ & _ & _ & Hsearch).
  - unfold capacity_ok. lia.
  - simpl. lia.
  - lia.
  - exists d. split; [exact Hrun|exact Hsearch].
Defined.

(** ** [cuckoo_dict]: the entries, counted *)

Lemma omap_id_insert_perm {A} (l : list (option A)) j p q :
  l !! j = Some q →
  option_list q ++ omap id (<[j := p]> l) ≡ₚ option_list p ++ omap id l.
Proof.
  unfold omap. revert j. induction l as [|s l IH]; intros j Hj; [done|].
  destruct j as [|j]; simpl in Hj.
  - injection Hj as ->. simpl. destruct p, q; simpl; try done. apply perm_swap.
  - specialize (IH j Hj). simpl. destruct s as [a|]; simpl; [|exact IH].
    rewrite <- !Permutation_middle. by constructor.
Qed.

Lemma entries_alter_perm {A} (t : list (list (option A))) i j row p q :
  t !! i = Some row → row !! j = Some q →
  option_list q ++ omap id (concat (alter (λ r, <[j := p]> r) i t))
  ≡ₚ option_list p ++ omap id (concat t).
Proof.
  revert i. induction t as [|r t IH]; intros i Hi Hj; [done|].
  destruct i as [|i]; simpl in Hi.
  - injection Hi as ->.
    change (alter (λ r, <[j := p]> r) 0%nat (row :: t)) with (<[j := p]> row :: t).
    cbn [concat]. rewrite !omap_app, !app_assoc.
    by rewrite (omap_id_insert_perm row j p q Hj).
  - change (alter (λ r, <[j := p]> r) (S i) (r :: t))
      with (r :: alter (λ r, <[j := p]> r) i t).
    cbn [concat]. rewrite !omap_app.
    rewrite !(Permutation_app_swap_app _ (omap id r)).
    by rewrite (IH i Hi Hj).
Qed.

Lemma cuckoo_cell_lookup d i j :
  cuckoo_wf d → (i < 2)%nat → 0 ≤ Z.of_nat j < cuckoo_dict.capacity_ d →
  ∃ row, cuckoo_dict.tables d !! i = Some row ∧ row !! j = Some (cell d i j).
Proof.
  intros (Hc & Hl & Hrows) Hi Hj. unfold cell.
  destruct (lookup_lt_is_Some_2 (cuckoo_dict.tables d) i) as [row Hrow]; [lia|].
  pose proof (Forall_lookup_1 _ _ _ _ Hrows Hrow) as Hlen. simpl in Hlen.
  destruct (lookup_lt_is_Some_2 row j) as [p Hp]; [lia|].
  exists row. by rewrite Hrow, Hp.
Qed.

Lemma cuckoo_entries_store d i index p :
  cuckoo_wf d → (i < 2)%nat → 0 ≤ index < cuckoo_dict.capacity_ d →
  option_list (cell d i (Z.to_nat index)) ++ cuckoo_entries (cuckoo_dict.store d i index p)
  ≡ₚ option_list p ++ cuckoo_entries d.
Proof.
  intros Hwf Hi Hindex.
  destruct (cuckoo_cell_lookup d i (Z.to_nat index) Hwf Hi) as (row & Hrow & Hp); [lia|].
  unfold cuckoo_entries, cuckoo_dict.store. cbn [cuckoo_dict.tables].
  by apply (entries_alter_perm _ i _ row).
Qed.

Lemma cuckoo_stored_entries d x :
  cuckoo_stored d x ↔ x ∈ cuckoo_entries d.
Proof.
  unfold cuckoo_stored, cuckoo_entries, cell. rewrite list_elem_of_omap. split.
  - intros (i & j & Hc).
    destruct (cuckoo_dict.tables d !! i) as [row|] eqn:Hrow; [|done].
    destruct (row !! j) as [p|] eqn:Hp; [|done]. subst p.
    exists (Some x). split; [|done]. apply list_elem_of_In, in_concat.
    exists row. split; apply list_elem_of_In; by eapply list_elem_of_lookup_2.
  - intros (p & Hp & Hx). simpl in Hx. subst p.
    apply list_elem_of_In, in_concat in Hp as (row & Hrow & Hx).
    apply list_elem_of_In in Hrow, Hx.
    apply list_elem_of_lookup in Hrow as [i Hi].
    apply list_elem_of_lookup in Hx as [j Hj].
    exists i, j. by rewrite Hi, Hj.
Qed.

Lemma cuckoo_entries_empty d :
  (∀ i j, cell d i j = None) → cuckoo_entries d = [].
Proof.
  intros Hnone. destruct (cuckoo_entries d) as [|x l] eqn:E; [done|].
  assert (x ∈ cuckoo_entries d) as Hx by (rewrite E; left).
  apply cuckoo_stored_entries in Hx as (i & j & Hc). by rewrite Hnone in Hc.
Qed.

Lemma cuckoo_entries_bound d :
  cuckoo_wf d → Z.of_nat (length (cuckoo_entries d)) ≤ 2 * cuckoo_dict.capacity_ d.
Proof.
  intros (Hc & Hl & Hrows). unfold cuckoo_entries.
  assert (∀ {A} (l : list (option A)), (length (omap id l) ≤ length l)%nat) as Hom.
  { intros A l. unfold omap. induction l as [|[a|] l IH]; simpl; lia. }
  pose proof (Hom _ (concat (cuckoo_dict.tables d))) as Hle.
  assert (Z.of_nat (length (concat (cuckoo_dict.tables d)))
          = Z.of_nat (length (cuckoo_dict.tables d)) * cuckoo_dict.capacity_ d) as Hcat.
  { clear Hl Hle. induction Hrows as [|row t Hrow Hrows IH]; [done|].
    cbn [concat length]. rewrite length_app. simpl in Hrow. lia. }
  rewrite Hl in Hcat. lia.
Qed.

Lemma cuckoo_collect_row_perm i js : ∀ prev d,
  cuckoo_wf d → (i < 2)%nat →
  (∀ j, j ∈ js → Z.of_nat j < cuckoo_dict.capacity_ d) →
  let st := foldl (cuckoo_dict.collect_slot i) (prev, d) js in
  cuckoo_wf st.2
  ∧ cuckoo_dict.capacity_ st.2 = cuckoo_dict.capacity_ d
  ∧ st.1 ++ cuckoo_entries st.2 ≡ₚ prev ++ cuckoo_entries d.
Proof.
  induction js as [|j js IH]; intros prev d Hwf Hi Hjs; cbn [foldl]; [done|].
  assert (0 ≤ Z.of_nat j < cuckoo_dict.capacity_ d) as Hj.
  { split; [lia|]. apply Hjs. by left. }
  pose proof (cuckoo_entries_store d i (Z.of_nat j) None Hwf Hi Hj) as Hperm.
  unfold cuckoo_dict.collect_slot. rewrite cuckoo_slot_cell.
  rewrite Nat2Z.id in *. destruct (cell d i j) as [e|] eqn:He.
  - destruct (IH (prev ++ [e]) (cuckoo_dict.store d i (Z.of_nat j) None))
      as (Hwf' & Hc' & Hp'); [by apply cuckoo_store_wf|done| |].
    { intros j' Hj'. apply Hjs. by right. }
    cbn zeta in *. split; [done|]. split; [done|].
    rewrite Hp'. simpl in Hperm. by rewrite <- app_assoc, <- Hperm.
  - apply IH; [done|done|]. intros j' Hj'. apply Hjs. by right.
Qed.

Lemma cuckoo_collect_perm d :
  cuckoo_wf d →
  (cuckoo_dict.collect d).1 ≡ₚ cuckoo_entries d
  ∧ cuckoo_entries (cuckoo_dict.collect d).2 = [].
Proof.
  intros Hwf. destruct (cuckoo_collect_spec d Hwf) as (_ & _ & _ & Hcell & _).
  cbn zeta in Hcell. pose proof (cuckoo_entries_empty _ Hcell) as Hempty.
  split; [|done]. revert Hempty. unfold cuckoo_dict.collect. cbn [seq foldl].
  set (js := seq 0 (Z.to_nat (cuckoo_dict.capacity_ d))).
  assert (∀ c j, j ∈ seq 0 (Z.to_nat c) → Z.of_nat j < c) as Hseq.
  { intros c j. rewrite elem_of_seq. lia. }
  destruct (cuckoo_collect_row_perm 0 js [] d Hwf) as (Hwf0 & Hc0 & Hp0); [lia| |].
  { intros j Hj. by apply Hseq. }
  destruct (foldl (cuckoo_dict.collect_slot 0) ([], d) js) as [prev0 d0].
  cbn [fst snd] in *.
  destruct (cuckoo_collect_row_perm 1 js prev0 d0 Hwf0) as (Hwf1 & Hc1 & Hp1); [lia| |].
  { intros j Hj. rewrite Hc0. by apply Hseq. }
  destruct (foldl (cuckoo_dict.collect_slot 1) (prev0, d0) js) as [prev1 d1].
  cbn [fst snd] in *. intros Hempty. rewrite Hempty, app_nil_r in Hp1.
  by rewrite Hp1, Hp0.
Qed.

Lemma cuckoo_for_each_adds set_ :
  cuckoo_set_spec set_ → cuckoo_adds_one set_ →
  ∀ l (w w' : cuckoo_dict.world),
    cuckoo_inv w.2 →
    Forall (λ e, is_u32 (key_ e) ∧ is_u32 (value_ e)) l →
    for_each (λ e, set_ (key_ e) (value_ e)) l w = (Val tt, w') →
    cuckoo_entries w'.2 ≡ₚ l ++ cuckoo_entries w.2.
Proof.
  intros Hset Hadd. induction l as [|e l IH]; intros w w' Hinv Hl Hrun.
  - by injection Hrun as <-.
  - cbn [for_each] in Hrun. unfold bind in Hrun.
    destruct (set_ (key_ e) (value_ e) w) as [[[]|?|] w1] eqn:Hstep; try done.
    inversion Hl as [|? ? [Hk Hv] Hl']; subst.
    destruct (Hset _ _ _ _ Hinv Hk Hv Hstep) as (Hinv1 & _).
    rewrite (IH _ _ Hinv1 Hl' Hrun), (Hadd _ _ _ _ Hinv Hk Hv Hstep), entry_eta.
    symmetry. apply Permutation_middle.
Qed.

Lemma cuckoo_rehash_adds set_ :
  cuckoo_set_spec set_ → cuckoo_adds_one set_ →
  ∀ key val (w w' : cuckoo_dict.world),
    cuckoo_wf w.2 → cuckoo_u32 w.2 → is_u32 key → is_u32 val →
    cuckoo_dict.rehash set_ key val w = (Val tt, w') →
    cuckoo_entries w'.2 ≡ₚ Entry key val :: cuckoo_entries w.2.
Proof.
  intros Hset Hadd key val [g d] w' Hwf Hu Hk Hv Hrun. cbn [fst snd] in *.
  unfold cuckoo_dict.rehash, bind, get in Hrun. cbn [fst snd] in Hrun.
  destruct (new_tabular_pair g) as [hs g'].
  set (d1 := cuckoo_dict.mk (cuckoo_dict.tables d) [hs.1; hs.2]
               (cuckoo_dict.capacity_ d)) in *.
  assert (cuckoo_wf d1) as Hwf1 by done.
  destruct (cuckoo_collect_spec d1 Hwf1) as (Hwf2 & _ & _ & Hcell2 & Hprev).
  destruct (cuckoo_collect_perm d1 Hwf1) as [Hperm Hempty].
  destruct (cuckoo_dict.collect d1) as [previousKeys d2]. cbn [fst snd] in *.
  unfold put in Hrun.
  assert (cuckoo_inv d2) as Hinv2.
  { split; [done|]. split.
    - intros i j e He. by rewrite Hcell2 in He.
    - intros e (i & j & He). by rewrite Hcell2 in He. }
  assert (Forall (λ e, is_u32 (key_ e) ∧ is_u32 (value_ e))
            (previousKeys ++ [Entry key val])) as Hall.
  { apply Forall_app. split; [|constructor; [by split|constructor]].
    apply List.Forall_forall. intros e He. apply Hu.
    apply list_elem_of_In in He. by apply Hprev. }
  rewrite (cuckoo_for_each_adds set_ Hset Hadd _ (g', d2) w' Hinv2 Hall Hrun).
  cbn [snd]. rewrite Hempty, app_nil_r, Hperm.
  by rewrite <- Permutation_cons_append.
Qed.

Lemma cuckoo_set_loop_adds fuel : ∀ key val i temp (w w' : cuckoo_dict.world),
  cuckoo_inv w.2 → (i < 2)%nat → is_u32 key → is_u32 val →
  cuckoo_dict.set_loop fuel key val i temp w = (Val tt, w') →
  cuckoo_entries w'.2 ≡ₚ Entry key val :: cuckoo_entries w.2.
Proof.
  induction fuel as [|fuel IH]; intros key val i temp [g d] w' Hinv Hi Hk Hv Hrun;
    cbn [cuckoo_dict.set_loop] in Hrun; [done|].
  unfold bind, get, put in Hrun. cbn [fst snd] in *.
  pose proof Hinv as (Hwf & Hp & Hu).
  pose proof (cuckoo_index_range d i key Hwf) as Hr.
  pose proof (cuckoo_inv_store d i (Entry key val) Hinv Hi Hk Hv) as Hinv1.
  pose proof (cuckoo_entries_store d i _ (Some (Entry key val)) Hwf Hi Hr) as Hperm.
  cbn [key_ value_] in Hinv1.
  set (index := cuckoo_dict.index_of d i key) in *.
  set (d1 := cuckoo_dict.store d i index (Some (Entry key val))) in *.
  rewrite cuckoo_slot_cell in Hrun.
  destruct (cell d i (Z.to_nat index)) as [e|] eqn:He; cbn [option_list app] in Hperm.
  - assert (cuckoo_stored d e) as Hst by (by exists i, (Z.to_nat index)).
    destruct (Hu e Hst) as [Hke Hve].
    rewrite !u32_via_int in Hrun by done.
    assert (cuckoo_entries w'.2 ≡ₚ Entry (key_ e) (value_ e) :: cuckoo_entries d1) as Hw'.
    { destruct (bool_decide (key_ e = to_u32 temp) && bool_decide (i = 1%nat)).
      - apply (cuckoo_rehash_adds
                 (λ k v, cuckoo_dict.set_loop fuel k v 0%nat (to_int k)))
          with (w := (g, d1)); try done; try apply Hinv1.
        + intros k v w0 w0' ? ? ? ?.
          eapply (cuckoo_set_loop_spec fuel k v 0%nat); eauto; lia.
        + intros k v w0 w0' ? ? ? ?. eapply (IH k v 0%nat); eauto; lia.
      - apply (IH _ _ (1 - i)%nat temp (g, d1)); try done. lia. }
    by rewrite Hw', entry_eta, Hperm.
  - injection Hrun as <-. exact Hperm.
Qed.

(** ** [cuckoo_dict] *)

(** X7: in a well-formed [cuckoo_dict], [search(k)] throws [out_of_range]
    exactly when no live entry has key [k], and otherwise returns the value
    of a live entry with key [k]; it has no other outcome. *)
Theorem cuckoo_search_contract (w : cuckoo_dict.world) (k : Z) :
  cuckoo_inv w.2 →
  ((cuckoo_dict.search k w).1 = Throw out_of_range
   ↔ ∀ x, cuckoo_stored w.2 x → key_ x ≠ k)
  ∧ ((∃ v, (cuckoo_dict.search k w).1 = Val v)
     ↔ ∃ x, cuckoo_stored w.2 x ∧ key_ x = k)
  ∧ (∀ v, (cuckoo_dict.search k w).1 = Val v → cuckoo_stored w.2 (Entry k v))
  ∧ (cuckoo_dict.search k w).1 ≠ Spin
  ∧ (cuckoo_dict.search k w).1 ≠ Throw length_error.
Proof.
  intros Hinv. destruct w as [g d]. cbn [snd] in *.
  pose proof (cuckoo_search_never_spins 0 k (g, d)) as Hr.
  cbn [search cuckoo_abstract_dict] in Hr.
  pose proof (cuckoo_search_sound 0 k g d (cuckoo_dict.search k (g, d)).1
                (cuckoo_dict.search k (g, d)).2 Hinv) as Hs.
  cbn [search cuckoo_abstract_dict] in Hs.
  destruct Hs as [_ Hs]; [by destruct (cuckoo_dict.search k (g, d))|done|].
  destruct (cuckoo_dict.search k (g, d)).1 as [v|e|]; [| |done].
  - split; [split; [done|]|].
    { intros Hnone. by specialize (Hnone _ Hs). }
    split; [|split; [by intros ? [= <-]|done]].
    split; [|by exists v]. intros _. by exists (Entry k v).
  - destruct Hs as [-> Hnone]. split; [done|].
    split; [|done]. split; [by intros [v ?]|].
    intros (x & Hx & Hk). by specialize (Hnone x Hx).
Qed.

Lemma cuckoo_search_contract_witness :
  (cuckoo_dict.search 9 two_colliding_keys).1 = Throw out_of_range
  ↔ ∀ x, cuckoo_stored two_colliding_keys.2 x → key_ x ≠ 9.
Proof.
  apply (cuckoo_search_contract two_colliding_keys 9).
  apply two_colliding_keys_inv.
Defined.

(** X8: a call of [cuckoo_dict::set] on a well-formed table that returns
    has kept the capacity and the place of every entry under the hash
    function of its table, has lost no entry and has added exactly one,
    counting an entry once for each slot it is in. *)
Theorem cuckoo_set_adds_one_entry (fuel : nat) (w w' : cuckoo_dict.world) (k v : Z) :
  cuckoo_inv w.2 → is_u32 k → is_u32 v →
  cuckoo_dict.set fuel k v w = (Val tt, w') →
  cuckoo_inv w'.2
  ∧ cuckoo_dict.capacity_ w'.2 = cuckoo_dict.capacity_ w.2
  ∧ cuckoo_entries w'.2 ≡ₚ Entry k v :: cuckoo_entries w.2.
Proof.
  intros Hinv Hk Hv Hrun.
  destruct (cuckoo_set_spec_holds fuel k v w w' Hinv Hk Hv Hrun) as (Hinv' & Hc & _).
  split; [done|]. split; [done|].
  apply (cuckoo_set_loop_adds fuel k v 0%nat (to_int k) w w'); try done. lia.
Qed.

Lemma cuckoo_set_adds_one_entry_witness :
  cuckoo_entries (cuckoo_dict.set 50 9 90 two_colliding_keys).2.2
  ≡ₚ Entry 9 90 :: cuckoo_entries two_colliding_keys.2.
Proof.
  assert (cuckoo_dict.set 50 9 90 two_colliding_keys
          = (Val tt, (cuckoo_dict.set 50 9 90 two_colliding_keys).2)) as Hrun.
  { assert ((cuckoo_dict.set 50 9 90 two_colliding_keys).1 = Val tt) as Hr
      by (vm_compute; reflexivity).
    rewrite <- Hr. apply surjective_pairing. }
  apply (cuckoo_set_adds_one_entry 50 two_colliding_keys _ 9 90
           two_colliding_keys_inv); [unfold is_u32; lia..|exact Hrun].
Defined.

Lemma cuckoo_sets_adds fuel ops : ∀ (w w' : cuckoo_dict.world),
  cuckoo_inv w.2 → Forall (λ op, is_u32 op.1 ∧ is_u32 op.2) ops →
  cuckoo_sets fuel ops w = (Val tt, w') →
  cuckoo_inv w'.2
  ∧ cuckoo_dict.capacity_ w'.2 = cuckoo_dict.capacity_ w.2
  ∧ cuckoo_entries w'.2 ≡ₚ (to_entry <$> ops) ++ cuckoo_entries w.2.
Proof.
  unfold cuckoo_sets.
  induction ops as [|op ops IH]; intros w w' Hinv Hu Hrun.
  - by injection Hrun as <-.
  - cbn [for_each] in Hrun. unfold bind in Hrun.
    destruct (cuckoo_dict.set fuel op.1 op.2 w) as [[[]|?|] w1] eqn:Hstep; try done.
    inversion Hu as [|? ? [Hk Hv] Hu']; subst.
    destruct (cuckoo_set_spec_holds fuel _ _ w w1 Hinv Hk Hv Hstep) as (Hinv1 & Hc1 & _).
    pose proof (cuckoo_set_loop_adds fuel _ _ 0%nat _ w w1 Hinv
                  (ltac:(lia) : (0 < 2)%nat) Hk Hv Hstep) as Hp1.
    destruct (IH _ _ Hinv1 Hu' Hrun) as (Hinv' & Hc' & Hp').
    split; [done|]. split; [congruence|].
    rewrite Hp', Hp1. cbn [fmap list_fmap app]. symmetry. apply Permutation_middle.
Qed.

Lemma first_value_elem k v ops : first_value k ops = Some v → (k, v) ∈ ops.
Proof.
  induction ops as [|[k' v'] ops IH]; cbn [first_value fst snd]; [done|].
  destruct (k' =? k) eqn:E.
  - apply Z.eqb_eq in E as ->. intros [= ->]. by left.
  - intros H. right. by apply IH.
Qed.

Lemma first_value_NoDup k v ops :
  NoDup ops.*1 → (k, v) ∈ ops → first_value k ops = Some v.
Proof.
  induction ops as [|[k' v'] ops IH]; cbn [first_value fst snd fmap list_fmap].
  - intros _ H. by apply elem_of_nil in H.
  - intros Hnd Hin. apply NoDup_cons in Hnd as [Hk Hnd].
    apply elem_of_cons in Hin as [[= -> ->]|Hin]; [by rewrite Z.eqb_refl|].
    destruct (k' =? k) eqn:E; [|by apply IH].
    apply Z.eqb_eq in E as ->. exfalso. apply Hk.
    apply list_elem_of_fmap. by exists (k, v).
Qed.

(** X9: when the calls of [set] on a new [cuckoo_dict], for keys that are
    all different, have all returned, each key is in one slot only, in the
    slot that the hash function of its table gives, and [search(k)] returns
    the value that was set for [k], or throws [out_of_range] when [k] was
    not set. *)
Theorem cuckoo_dict_is_a_map (fuel : nat) (capacity : Z) (g : rand_state)
    (ops : list (Z * Z)) (w' : cuckoo_dict.world) (k : Z) :
  capacity_ok capacity → NoDup ops.*1 →
  Forall (λ op, is_u32 op.1 ∧ is_u32 op.2) ops →
  cuckoo_sets fuel ops (cuckoo_dict.new capacity g) = (Val tt, w') →
  cuckoo_placed w'.2
  ∧ cuckoo_entries w'.2 ≡ₚ to_entry <$> ops
  ∧ NoDup (key_ <$> cuckoo_entries w'.2)
  ∧ (cuckoo_dict.search k w').1 = answer (first_value k ops).
Proof.
  intros Hc Hnd Hu Hrun.
  destruct (cuckoo_sets_adds fuel ops _ w' (cuckoo_new_inv capacity g Hc) Hu Hrun)
    as (Hinv' & _ & Hp).
  rewrite (cuckoo_entries_empty (cuckoo_dict.new capacity g).2), app_nil_r in Hp
    by apply cuckoo_new_empty.
  split; [apply Hinv'|]. split; [done|]. split.
  { rewrite Hp, <- list_fmap_compose. exact Hnd. }
  assert (∀ v, cuckoo_stored w'.2 (Entry k v) ↔ (k, v) ∈ ops) as Hst.
  { intros v. rewrite cuckoo_stored_entries, Hp, list_elem_of_fmap. split.
    - intros ([k0 v0] & [= -> ->] & Hin). done.
    - intros Hin. by exists (k, v). }
  destruct w' as [g' d']. cbn [snd] in *.
  pose proof (cuckoo_search_never_spins 0 k (g', d')) as Hr.
  cbn [search cuckoo_abstract_dict] in Hr.
  pose proof (cuckoo_search_sound 0 k g' d' (cuckoo_dict.search k (g', d')).1
                (cuckoo_dict.search k (g', d')).2 Hinv') as Hs.
  cbn [search cuckoo_abstract_dict] in Hs.
  destruct Hs as [_ Hs]; [by destruct (cuckoo_dict.search k (g', d'))|done|].
  destruct (cuckoo_dict.search k (g', d')).1 as [v|e|]; [| |done].
  - apply Hst in Hs. by rewrite (first_value_NoDup k v ops Hnd Hs).
  - destruct Hs as [-> Hnone]. destruct (first_value k ops) as [v|] eqn:E; [|done].
    apply first_value_elem, Hst in E. by specialize (Hnone _ E).
Qed.

Lemma cuckoo_dict_is_a_map_witness :
  (cuckoo_dict.search 8
     (cuckoo_sets 50 [(7, 70); (8, 80); (9, 90)]
        (cuckoo_dict.new 2 colliding_rand)).2).1
  = answer (first_value 8 [(7, 70); (8, 80); (9, 90)]).
Proof.
  assert (cuckoo_sets 50 [(7, 70); (8, 80); (9, 90)] (cuckoo_dict.new 2 colliding_rand)
          = (Val tt, (cuckoo_sets 50 [(7, 70); (8, 80); (9, 90)]
                        (cuckoo_dict.new 2 colliding_rand)).2)) as Hrun.
  { assert ((cuckoo_sets 50 [(7, 70); (8, 80); (9, 90)]
               (cuckoo_dict.new 2 colliding_rand)).1 = Val tt) as Hr
      by (vm_compute; reflexivity).
    rewrite <- Hr. apply surjective_pairing. }
  apply (cuckoo_dict_is_a_map 50 2 colliding_rand [(7, 70); (8, 80); (9, 90)] _ 8).
  - unfold capacity_ok. lia.
  - cbn. repeat constructor; rewrite ?elem_of_cons, ?elem_of_nil; lia.
  - repeat constructor; unfold is_u32; simpl; lia.
  - exact Hrun.
Defined.

(** X10: on a well-formed [cuckoo_dict] whose [2 * capacity] slots are all
    occupied, [set] neither returns nor throws: it evicts and rehashes for
    as long as it is given fuel. *)
Theorem cuckoo_set_on_full_table_spins (fuel : nat) (w : cuckoo_dict.world) (k v : Z) :
  cuckoo_inv w.2 → is_u32 k → is_u32 v →
  Z.of_nat (length (cuckoo_entries w.2)) = 2 * cuckoo_dict.capacity_ w.2 →
  (cuckoo_dict.set fuel k v w).1 = Spin.
Proof.
  intros Hinv Hk Hv Hfull.
  pose proof (cuckoo_set_loop_no_throw fuel k v 0%nat (to_int k) w) as Hthrow.
  fold (cuckoo_dict.set fuel k v w) in Hthrow.
  destruct (cuckoo_dict.set fuel k v w) as [[[]|e|] w'] eqn:Hrun; cbn [fst] in *.
  - exfalso.
    destruct (cuckoo_set_spec_holds fuel k v w w' Hinv Hk Hv Hrun) as (Hinv' & Hc & _).
    pose proof (cuckoo_set_loop_adds fuel k v 0%nat (to_int k) w w' Hinv
                  (ltac:(lia) : (0 < 2)%nat) Hk Hv Hrun) as Hp.
    pose proof (cuckoo_entries_bound w'.2 (proj1 Hinv')) as Hb.
    rewrite Hp, Hc in Hb. cbn [length] in Hb. lia.
  - by specialize (Hthrow e).
  - done.
Qed.

Lemma full_cuckoo_is_full :
  cuckoo_inv full_cuckoo.2
  ∧ Z.of_nat (length (cuckoo_entries full_cuckoo.2))
    = 2 * cuckoo_dict.capacity_ full_cuckoo.2.
Proof.
  assert (cuckoo_sets 10 [(7, 70); (8, 80)] (cuckoo_dict.new 1 example_rand)
          = (Val tt, full_cuckoo)) as Hrun.
  { assert ((cuckoo_sets 10 [(7, 70); (8, 80)] (cuckoo_dict.new 1 example_rand)).1
            = Val tt) as Hr by (vm_compute; reflexivity).
    rewrite <- Hr. apply surjective_pairing. }
  assert (Forall (λ op : Z * Z, is_u32 op.1 ∧ is_u32 op.2) [(7, 70); (8, 80)]) as Hu
    by (repeat constructor; unfold is_u32; simpl; lia).
  assert (capacity_ok 1) as Hok by (unfold capacity_ok; lia).
  destruct (cuckoo_sets_adds 10 _ _ _ (cuckoo_new_inv 1 example_rand Hok) Hu Hrun)
    as (Hinv & Hc & Hp).
  split; [done|]. rewrite Hp, Hc.
  destruct (cuckoo_new_shape 1 example_rand) as [_ ->].
  rewrite (cuckoo_entries_empty (cuckoo_dict.new 1 example_rand).2)
    by apply cuckoo_new_empty. done.
Qed.

Lemma cuckoo_set_on_full_table_spins_witness :
  (cuckoo_dict.set 30 9 90 full_cuckoo).1 = Spin.
Proof.
  apply cuckoo_set_on_full_table_spins;
    [apply full_cuckoo_is_full|unfold is_u32; lia..|apply full_cuckoo_is_full].
Defined.

(** ** The hash functions, from the values of [rand()] *)

Lemma draws_spec n : ∀ g,
  (draws n g).1 = (λ j, draw_of (g j)) <$> seq 0 n
  ∧ ∀ m, (draws n g).2 m = g (n + m)%nat.
Proof.
  induction n as [|n IH]; intros g; cbn [draws]; [done|].
  change (draw g) with (draw_of (g 0%nat), λ n, g (S n)). cbn iota.
  destruct (IH (λ n, g (S n))) as [IH1 IH2].
  destruct (draws n (λ n, g (S n))) as [xs g2]. cbn [fst snd] in *. split.
  - rewrite IH1. change (seq 0 (S n)) with (0%nat :: seq 1 n).
    by rewrite fmap_cons, <- fmap_S_seq, <- list_fmap_compose.
  - intros m. by rewrite IH2.
Qed.

Lemma fill_rows_spec rows : ∀ g,
  (fill_rows rows g).1
  = (λ i, (λ j, draw_of (g (i * 256 + j)%nat)) <$> seq 0 256) <$> seq 0 rows
  ∧ ∀ m, (fill_rows rows g).2 m = g (rows * 256 + m)%nat.
Proof.
  induction rows as [|rows IH]; intros g; cbn [fill_rows]; [done|].
  destruct (draws_spec 256 g) as [Hrow Hg1].
  destruct (draws 256 g) as [row g1]. cbn [fst snd] in *.
  destruct (IH g1) as [IH1 IH2].
  destruct (fill_rows rows g1) as [rest g2]. cbn [fst snd] in *. split.
  - change (seq 0 (S rows)) with (0%nat :: seq 1 rows).
    rewrite fmap_cons, <- fmap_S_seq, <- list_fmap_compose, Hrow, IH1.
    f_equal. apply list_fmap_ext. intros _ i _. cbn [compose].
    apply list_fmap_ext. intros _ j _. rewrite Hg1. f_equal; lia.
  - intros m. rewrite IH2, Hg1. f_equal; lia.
Qed.

Lemma lookup_total_fmap_seq {A} `{Inhabited A} (f : nat → A) n j :
  (j < n)%nat → (f <$> seq 0 n) !!! j = f j.
Proof.
  intros Hj. apply list_lookup_total_correct.
  rewrite list_lookup_fmap, lookup_seq_lt by done. done.
Qed.

Lemma to_u32_add_l a b : to_u32 (to_u32 a + b) = to_u32 (a + b).
Proof. unfold to_u32. apply Zplus_mod_idemp_l. Qed.

Lemma to_u32_add_r a b : to_u32 (a + to_u32 b) = to_u32 (a + b).
Proof. unfold to_u32. apply Zplus_mod_idemp_r. Qed.

Lemma to_u32_mul_r a b : to_u32 (a * to_u32 b) = to_u32 (a * b).
Proof. unfold to_u32. apply Zmult_mod_idemp_r. Qed.

(** X11: the two coefficients of a constructed [poly2_hash_func] are the
    first two values of [rand()], reduced modulo [LARGE_PRIME - 1], the
    constructor reads no other value, and [hash(key)] is
    [a0 + a1 * key] modulo [2^32]. *)
Theorem poly2_hash_polynomial (g : rand_state) (key : Z) :
  let h := (new_poly2 g).1 in
  p2_a0 h = draw_of (g 0%nat) ∧ p2_a1 h = draw_of (g 1%nat)
  ∧ (∀ m, (new_poly2 g).2 m = g (2 + m)%nat)
  ∧ hash h key = (p2_a0 h + p2_a1 h * key) mod 2 ^ 32.
Proof.
  cbn zeta. split; [done|]. split; [done|]. split; [done|].
  unfold hash, poly2_hash.
  rewrite to_u32_mul_r, to_u32_add_l, to_u32_add_r.
  unfold to_u32. f_equal. lia.
Qed.

Lemma horner_step a key y :
  to_u32 (key * to_u32 (to_u32 a + to_u32 y)) = to_u32 (key * (a + y)).
Proof. by rewrite to_u32_add_l, to_u32_add_r, to_u32_mul_r. Qed.

Lemma poly5_horner a0 a1 a2 a3 a4 key :
  hash (Poly5 [a0; a1; a2; a3; a4]) key
  = (a0 + a1 * key + a2 * key ^ 2 + a3 * key ^ 3 + a4 * key ^ 4) mod 2 ^ 32.
Proof.
  unfold hash, poly5_hash, coeff. cbn [p5_a lookup_total list_lookup_total].
  rewrite (to_u32_mul_r key a4).
  rewrite (horner_step a3), (horner_step a2), (horner_step a1).
  rewrite to_u32_add_l, to_u32_add_r.
  unfold to_u32. f_equal. ring.
Qed.

(** X12: the five coefficients of a constructed [poly5_hash_func] are the
    first five values of [rand()], reduced modulo [LARGE_PRIME - 1], the
    constructor reads no other value, and [hash(key)] is the polynomial
    [a0 + a1 key + a2 key^2 + a3 key^3 + a4 key^4] modulo [2^32]. *)
Theorem poly5_hash_polynomial (g : rand_state) (key : Z) :
  let h := (new_poly5 g).1 in
  let a i := draw_of (g i) in
  p5_a h = [a 0%nat; a 1%nat; a 2%nat; a 3%nat; a 4%nat]
  ∧ (∀ m, (new_poly5 g).2 m = g (5 + m)%nat)
  ∧ hash h key
    = (a 0%nat + a 1%nat * key + a 2%nat * key ^ 2 + a 3%nat * key ^ 3
       + a 4%nat * key ^ 4) mod 2 ^ 32.
Proof.
  cbn zeta. split; [done|]. split; [done|].
  apply (poly5_horner (draw_of (g 0%nat)) (draw_of (g 1%nat)) (draw_of (g 2%nat))
           (draw_of (g 3%nat)) (draw_of (g 4%nat))).
Qed.

Lemma byte_of_lt key i : (byte_of key i < 256)%nat.
Proof.
  unfold byte_of. pose proof (Z.mod_pos_bound (key / 256 ^ Z.of_nat i) 256). lia.
Qed.

Lemma tab_word_byte t i key :
  tab_word t i key = to_u32 ((t !!! i) !!! byte_of key i).
Proof.
  unfold tab_word, byte_of. rewrite Z.shiftr_div_pow2 by lia.
  change 255 with (Z.ones 8). rewrite Z.land_ones by lia.
  replace (2 ^ (Z.of_nat i * 8)) with (256 ^ Z.of_nat i); [done|].
  rewrite (Z.mul_comm (Z.of_nat i) 8), Z.pow_mul_r by lia. done.
Qed.

Lemma draw_of_u32 r : to_u32 (draw_of r) = draw_of r.
Proof.
  apply to_u32_small. unfold draw_of, LARGE_PRIME.
  pose proof (Z.mod_pos_bound (to_u32 r) (2147483647 - 1)). lia.
Qed.

Lemma table_of_word g offset i key :
  (i < 4)%nat →
  tab_word (table_of g offset) i key
  = draw_of (g (offset + i * 256 + byte_of key i)%nat).
Proof.
  intros Hi. rewrite tab_word_byte. unfold table_of.
  rewrite (lookup_total_fmap_seq _ 4 i Hi).
  rewrite (lookup_total_fmap_seq _ 256 _ (byte_of_lt key i)).
  apply draw_of_u32.
Qed.

Lemma new_tabular_spec g :
  tab_t (new_tabular g).1 = table_of g 0
  ∧ ∀ m, (new_tabular g).2 m = g (1024 + m)%nat.
Proof.
  destruct (fill_rows_spec 4 g) as [Ht Hg]. unfold new_tabular.
  destruct (fill_rows 4 g) as [t g']. cbn [fst snd tab_t] in *.
  split; [exact Ht|]. intros m. rewrite Hg. f_equal.
Qed.

Lemma tabular_hash_words t key :
  hash (Tabular t) key
  = Z.lxor (Z.lxor (Z.lxor (tab_word t 0 key) (tab_word t 1 key))
              (tab_word t 2 key)) (tab_word t 3 key).
Proof.
  unfold hash, tabular_hash. cbn [tab_t].
  change (seq 0 4) with [0; 1; 2; 3]%nat. cbn [foldl]. unfold tab_round.
  by rewrite Z.lxor_0_l.
Qed.

(** X13: the constructor of [tabular_hash_func] reads 1024 values of
    [rand()]: word [j] of row [i] is value number [256 * i + j], reduced
    modulo [LARGE_PRIME - 1]. The hash of a key is the XOR of four of them,
    one for each row, chosen by the four low bytes of the key. *)
Theorem tabular_hash_of_draws (g : rand_state) (key : Z) :
  let h := (new_tabular g).1 in
  let word i := draw_of (g (i * 256 + byte_of key i)%nat) in
  tab_t h = table_of g 0
  ∧ (∀ m, (new_tabular g).2 m = g (1024 + m)%nat)
  ∧ hash h key
    = Z.lxor (Z.lxor (Z.lxor (word 0%nat) (word 1%nat)) (word 2%nat)) (word 3%nat).
Proof.
  cbn zeta. destruct (new_tabular_spec g) as [Ht Hg].
  split; [exact Ht|]. split; [exact Hg|].
  destruct (new_tabular g).1 as [t]. cbn [tab_t] in Ht. subst t.
  rewrite tabular_hash_words.
  by rewrite !table_of_word by lia.
Qed.

(** X14: a new [cuckoo_dict] has two tables of [capacity] empty slots and
    two hash functions made from disjoint runs of [rand()]: the table of
    the first from the values 0 to 1023, that of the second from the values
    1024 to 2047; the constructor reads no other value. *)
Theorem cuckoo_new_hash_functions (capacity : Z) (g : rand_state) :
  let w := cuckoo_dict.new capacity g in
  cuckoo_dict.tables w.2 = replicate 2 (replicate (Z.to_nat capacity) None)
  ∧ tab_t <$> cuckoo_dict.hashFunctions w.2 = [table_of g 0; table_of g 1024]
  ∧ ∀ m, w.1 m = g (2048 + m)%nat.
Proof.
  cbn zeta. unfold cuckoo_dict.new, new_tabular_pair.
  destruct (new_tabular_spec g) as [Ht0 Hg0].
  destruct (new_tabular g) as [h0 g1]. cbn [fst snd] in *.
  destruct (new_tabular_spec g1) as [Ht1 Hg1].
  destruct (new_tabular g1) as [h1 g2]. cbn [fst snd] in *.
  cbn [cuckoo_dict.tables cuckoo_dict.hashFunctions fmap list_fmap].
  split; [done|]. split.
  - rewrite Ht0, Ht1. f_equal. f_equal. unfold table_of.
    apply list_fmap_ext. intros _ i _. apply list_fmap_ext. intros _ j _.
    rewrite Hg0. f_equal; lia.
  - intros m. rewrite Hg1, Hg0. f_equal; lia.
Qed.

(** ** The driver *)

(** X15: with a [std::shuffle] that permutes and a size below [2^30], a run
    of [main] that ends gives the exit code that the arguments alone
    decide, whatever [rand()] returns: 0 for a positive size and one of the
    four structures, so that none of the ten checks of the driver fails,
    and 1 for any other arguments that [stoi] accepts. For [naive], [chain]
    and [lp] the run does end. *)
Theorem benchmark_exit_code stoi shuffle srand (fuel : nat) (now : Z)
    (arguments : list string) :
  (∀ seed l, shuffle seed l ≡ₚ l) → size_fits stoi arguments →
  (benchmark.main stoi shuffle srand fuel now arguments ≠ Spin →
   benchmark.main stoi shuffle srand fuel now arguments
   = expected_exit stoi arguments)
  ∧ (structure_always_ends arguments → fuel_covers stoi arguments fuel →
     benchmark.main stoi shuffle srand fuel now arguments
     = expected_exit stoi arguments).
Proof.
  intros Hperm Hfits. split.
  - by apply main_outcome.
  - by apply main_ends.
Qed.

Lemma benchmark_exit_code_witness :
  benchmark.main example_stoi example_shuffle example_srand 13 1
    ["benchmark"; "chain"; "6"]%string = Val 0.
Proof.
  rewrite (proj2 (benchmark_exit_code example_stoi example_shuffle example_srand
                    13 1 _ example_shuffle_permutes (example_size_fits _))).
  - reflexivity.
  - intros structure Hs. injection Hs as <-.
    unfold always_ends. rewrite !elem_of_cons. tauto.
  - apply example_fuel_covers.
Defined.

(** X16: the three vectors of the workload have no key twice and no key in
    common, and together they hold exactly the integers from 0 to
    [3 * (n / 2) - 1]. *)
Theorem workload_keys_are_distinct shuffle (n : Z) :
  (∀ seed l, shuffle seed l ≡ₚ l) → 0 ≤ n < 2 ^ 31 →
  let '(first_half, second_half, absent) := benchmark.workload shuffle n in
  NoDup first_half ∧ NoDup second_half ∧ NoDup absent
  ∧ (∀ x, x ∈ first_half → ¬ x ∈ second_half ∧ ¬ x ∈ absent)
  ∧ (∀ x, x ∈ second_half → ¬ x ∈ absent)
  ∧ (∀ x, x ∈ first_half ++ second_half ++ absent ↔ 0 ≤ x < n / 2 * 3).
Proof.
  intros Hperm Hn. pose proof (workload_split shuffle n Hperm Hn) as Hw.
  destruct (benchmark.workload shuffle n) as [[first_half second_half] absent].
  destruct Hw as (Heq & Hnd & _).
  apply NoDup_app in Hnd as (Hf & Hfs & Hsa).
  apply NoDup_app in Hsa as (Hs & Hsa & Ha).
  split; [done|]. split; [done|]. split; [done|]. split; [|split].
  - intros x Hx. specialize (Hfs x Hx). rewrite elem_of_app in Hfs. tauto.
  - exact Hsa.
  - intros x. rewrite Heq, (Hperm _ _), elem_of_seqZ. lia.
Qed.

Lemma workload_keys_are_distinct_witness :
  let '(first_half, second_half, absent) := benchmark.workload example_shuffle 6 in
  NoDup first_half ∧ NoDup second_half ∧ NoDup absent
  ∧ (∀ x, x ∈ first_half → ¬ x ∈ second_half ∧ ¬ x ∈ absent)
  ∧ (∀ x, x ∈ second_half → ¬ x ∈ absent)
  ∧ (∀ x, x ∈ first_half ++ second_half ++ absent ↔ 0 ≤ x < 6 / 2 * 3).
Proof.
  apply (workload_keys_are_distinct example_shuffle 6 example_shuffle_permutes).
  lia.
Defined.

(** X17: on a dictionary whose [search] changes nothing, the lambda
    [check_all_present] returns [false] exactly when [search] returns
    [x + 1] for every key [x] of the vector, and [check_all_absent]
    returns [false] exactly when [search] throws [out_of_range] for every
    key of the vector. *)
Theorem checks_report_every_failure {D : Type} `{abstract_dict D} (fuel : nat)
    (vec : list Z) (w : rand_state * D) :
  (∀ k, (search fuel k w).2 = w) →
  ((benchmark.check_all_present fuel vec w).1 = Val false
   ↔ Forall (λ x, (search fuel x w).1 = Val (to_u32 (x + 1))) vec)
  ∧ ((benchmark.check_all_absent fuel vec w).1 = Val false
     ↔ Forall (λ x, (search fuel x w).1 = Throw out_of_range) vec).
Proof.
  intros Hpure. split.
  - induction vec as [|x vec IH]; cbn [benchmark.check_all_present].
    { split; [constructor|done]. }
    rewrite Forall_cons, <- IH. clear IH.
    unfold bind at 1. unfold benchmark.try_catch_out_of_range. unfold bind at 1.
    specialize (Hpure x). destruct (search fuel x w) as [r w0]. cbn [fst snd] in *.
    subst w0. destruct r as [v|[]|]; unfold ret; cbn [fst].
    + destruct (bool_decide (v ≠ to_u32 (x + 1))) eqn:E.
      * apply bool_decide_eq_true in E. split; [done|]. intros [[= ?] _]. done.
      * apply bool_decide_eq_false in E.
        assert (v = to_u32 (x + 1)) as -> by (destruct (decide (v = to_u32 (x + 1))); tauto).
        tauto.
    + split; [done|]. by intros [? _].
    + split; [done|]. by intros [? _].
    + split; [done|]. by intros [? _].
  - induction vec as [|x vec IH]; cbn [benchmark.check_all_absent].
    { split; [constructor|done]. }
    rewrite Forall_cons, <- IH. clear IH.
    unfold bind at 1. unfold benchmark.try_catch_out_of_range. unfold bind at 1.
    specialize (Hpure x). destruct (search fuel x w) as [r w0]. cbn [fst snd] in *.
    subst w0. destruct r as [v|[]|]; unfold ret; cbn [fst].
    + split; [done|]. by intros [? _].
    + tauto.
    + split; [done|]. by intros [? _].
    + split; [done|]. by intros [? _].
Qed.

Lemma naive_search_keeps_world fuel k (w : rand_state * naive_dict.t Z) :
  (search fuel k w).2 = w.
Proof.
  destruct w as [g d]. cbn [search naive_abstract_dict].
  rewrite on_object_result. cbn [snd]. by rewrite naive_search_pure.
Qed.

Lemma checks_report_every_failure_witness :
  (benchmark.check_all_present 0 [1; 5]
     (example_rand, naive_sets [(1, 2); (5, 6)] (naive_dict.new 0))).1 = Val false
  ↔ Forall (λ x, (search 0 x
                    (example_rand, naive_sets [(1, 2); (5, 6)] (naive_dict.new 0))).1
                 = Val (to_u32 (x + 1))) [1; 5].
Proof.
  apply (proj1 (checks_report_every_failure 0 [1; 5]
                  (example_rand, naive_sets [(1, 2); (5, 6)] (naive_dict.new 0))
                  (λ k, naive_search_keeps_world 0 k _))).
Defined.

(** X18: whatever the library functions and [rand()] do, [main] returns 1
    without constructing a dictionary when it is not given exactly two
    arguments, when [stoi] throws [invalid_argument], when the size is not
    positive, and when the structure is none of the four names; the
    [out_of_range] of [stoi] is not caught and ends [main]. *)
Theorem main_rejects_bad_arguments stoi shuffle srand (fuel : nat) (now : Z)
    (arguments : list string) :
  let exit := benchmark.main stoi shuffle srand fuel now arguments in
  (length arguments ≠ 3%nat → exit = Val 1)
  ∧ (∀ structure n_string,
       arguments !! 1%nat = Some structure → arguments !! 2%nat = Some n_string →
       length arguments = 3%nat →
       match stoi n_string with
       | benchmark.invalid_argument => exit = Val 1
       | benchmark.stoi_out_of_range => exit = Throw out_of_range
       | benchmark.parsed_int n =>
           (n ≤ 0 → exit = Val 1)
           ∧ (0 < n → structure ∉ ["naive"; "chain"; "lp"; "cuckoo"]%string →
              exit = Val 1)
       end).
Proof.
  cbn zeta. unfold benchmark.main. split.
  - by destruct arguments as [|a0 [|a1 [|a2 [|a3 rest]]]].
  - intros structure n_string H1 H2 Hlen.
    destruct arguments as [|a0 [|a1 [|a2 [|a3 rest]]]]; try done.
    injection H1 as ->. injection H2 as ->.
    destruct (stoi n_string) as [n| |]; [|done..]. split.
    + intros Hn. by rewrite bool_decide_true.
    + intros Hn Hs. rewrite bool_decide_false by lia. unfold benchmark.run.
      rewrite !elem_of_cons in Hs.
      rewrite !bool_decide_false; [done|intros ->; tauto..].
Qed.

Lemma main_rejects_bad_arguments_witness :
  benchmark.main example_stoi example_shuffle example_srand 10 1
    ["benchmark"; "lp"]%string = Val 1.
Proof.
  apply (proj1 (main_rejects_bad_arguments example_stoi example_shuffle
                  example_srand 10 1 ["benchmark"; "lp"]%string)).
  simpl. lia.
Defined.

(** ** [lp_dict]: a key that is stored *)

Lemma lp_probe_stops (d : lp_dict.t Z) key j :
  lp_wf d → 0 ≤ j < lp_dict.capacity_ d → lp_stop d key j →
  ∀ fuel i, 0 ≤ i < lp_dict.capacity_ d →
    lp_distance (lp_dict.capacity_ d) i j < Z.of_nat fuel →
    (lp_dict.probe fuel key i d).1 ≠ Spin.
Proof.
  intros Hwf Hj Hstop fuel.
  induction fuel as [|fuel IH]; intros i Hi Hdist; cbn [lp_dict.probe].
  - unfold lp_distance in Hdist. destruct (decide (i ≤ j)); lia.
  - unfold bind, get, ret. destruct (lp_dict.slot d i) as [e|] eqn:He; [|done].
    destruct (bool_decide (key_ e ≠ key)) eqn:Hk; [|done].
    apply bool_decide_eq_true in Hk.
    assert (i ≠ j) as Hne.
    { intros ->. by specialize (Hstop e He). }
    assert (Z.rem (i + 1) (lp_dict.capacity_ d)
            = if decide (i + 1 = lp_dict.capacity_ d) then 0 else i + 1) as Hnext.
    { destruct (decide _) as [->|]; [apply Z.rem_same; lia|apply Z.rem_small; lia]. }
    apply IH.
    + apply lp_next_range; [apply Hwf|done].
    + rewrite Hnext. unfold lp_distance in *.
      destruct (decide (i + 1 = _)), (decide (i ≤ j)); destruct (decide (_ ≤ j)); lia.
Qed.

Lemma lp_probe_finds fuel (d : lp_dict.t Z) k j e :
  lp_inv d → lp_enough d fuel →
  0 ≤ j < lp_dict.capacity_ d → lp_dict.slot d j = Some e → key_ e = k →
  lp_dict.probe fuel k (lp_dict.home d k) d = (Val j, d).
Proof.
  intros [Hwf Hinv] Hfuel Hj He Hk.
  assert (lp_stop d k j) as Hstop.
  { intros x Hx. rewrite He in Hx. by injection Hx as <-. }
  pose proof (lp_home_range d k Hwf) as Hh.
  assert ((lp_dict.probe fuel k (lp_dict.home d k) d).1 ≠ Spin) as Hends.
  { apply (lp_probe_stops d k j Hwf Hj Hstop fuel _ Hh).
    pose proof (lp_distance_bound (lp_dict.capacity_ d) _ j Hh Hj).
    unfold lp_enough in Hfuel. lia. }
  destruct (lp_dict.probe fuel k (lp_dict.home d k) d) as [r d'] eqn:Hrun.
  destruct (lp_probe_sound fuel k _ d r d' Hwf Hh Hrun Hends)
    as (-> & j' & -> & Hj' & Hw' & Hs').
  f_equal. f_equal.
  apply (lp_walk_deterministic d k (lp_dict.home d k)); try done.
  rewrite <- Hk. by apply Hinv.
Qed.

Lemma omap_id_insert_same {A} (l : list (option A)) j p q :
  l !! j = Some (Some q) →
  length (omap id (<[j := Some p]> l)) = length (omap id l).
Proof.
  unfold omap. revert j. induction l as [|s l IH]; intros j; [done|].
  destruct j as [|j]; simpl.
  - by intros [= ->].
  - intros Hj. specialize (IH j Hj). destruct s; simpl; lia.
Qed.

(** X19: in an [lp_dict], with fuel for one test of each slot, [search] of a
    key that is stored returns its value, and [set] of that key returns and
    writes the new value in the slot of the key: no slot is taken, and
    [search] then returns the new value. No empty slot is needed: this
    holds on a full table as well. *)
Theorem lp_stored_key_is_found (fuel : nat) (d : lp_dict.t Z) (k v v' : Z) :
  lp_inv d → lp_enough d fuel → lp_stored d (Entry k v) →
  (lp_dict.search fuel k d).1 = Val v
  ∧ ∃ d', lp_dict.set fuel k v' d = (Val tt, d')
          ∧ lp_inv d'
          ∧ lp_occupied d' = lp_occupied d
          ∧ (lp_dict.search fuel k d').1 = Val v'.
Proof.
  intros Hinv Hfuel (j & Hj & He).
  pose proof (lp_probe_finds fuel d k j _ Hinv Hfuel Hj He eq_refl) as Hp.
  assert (∀ d0 v0 j0, lp_inv d0 → lp_enough d0 fuel →
            0 ≤ j0 < lp_dict.capacity_ d0 → lp_dict.slot d0 j0 = Some (Entry k v0) →
            (lp_dict.search fuel k d0).1 = Val v0) as Hsearch.
  { intros d0 v0 j0 Hinv0 Hfuel0 Hj0 He0.
    pose proof (lp_probe_finds fuel d0 k j0 _ Hinv0 Hfuel0 Hj0 He0 eq_refl) as Hp0.
    unfold lp_dict.search, bind, get. rewrite Hp0, He0. cbn [key_ value_].
    rewrite (bool_decide_true (k = k)) by reflexivity. reflexivity. }
  split; [by apply (Hsearch d v j)|].
  pose proof (lp_set_result fuel k v' d) as Hset. rewrite Hp in Hset.
  eexists. split; [exact Hset|].
  destruct (lp_set_keeps_inv fuel k v' d _ Hinv Hset) as (Hinv' & Hcap & _ & _ & Hst).
  split; [done|]. split.
  - unfold lp_occupied. cbn [lp_dict.entries].
    apply (omap_id_insert_same _ _ _ (Entry k v)).
    destruct Hinv as [[Hc Hl] _]. unfold lp_dict.slot in He.
    destruct (lookup_lt_is_Some_2 (lp_dict.entries d) (Z.to_nat j)) as [s Hs]; [lia|].
    by rewrite (list_lookup_total_correct _ _ _ Hs) in He; subst s.
  - destruct (proj2 (Hst (Entry k v')) (or_introl eq_refl)) as (j' & Hj' & He').
    by apply (Hsearch _ v' j').
Qed.

(** [lp_dict(1)] after [set(0, 1)] and [set(1, 2)] is full, and well formed. *)
Lemma lp_two_sets_inv :
  lp_inv (lp_two_sets 3 example_rand)
  ∧ lp_enough (lp_two_sets 3 example_rand) 3
  ∧ lp_stored (lp_two_sets 3 example_rand) (Entry 1 2)
  ∧ lp_full (lp_two_sets 3 example_rand).
Proof.
  assert (capacity_ok (2 * 1)) as Hc by (unfold capacity_ok; lia).
  destruct (lp_sets_invariant 3 1 example_rand [(0, 1)] Hc) as (Hinv & Hcap & _);
    [simpl; lia..|].
  set (d1 := lp_sets 3 [(0, 1)] (lp_dict.new 1 example_rand).1) in *.
  assert (lp_dict.set 3 1 2 d1 = (Val tt, lp_two_sets 3 example_rand)) as Hset.
  { assert ((lp_dict.set 3 1 2 d1).1 = Val tt) as Hr by (vm_compute; reflexivity).
    rewrite <- Hr. apply surjective_pairing. }
  destruct (lp_set_keeps_inv 3 1 2 d1 _ Hinv Hset) as (Hinv' & Hcap' & _ & _ & Hst).
  split; [done|]. split; [unfold lp_enough; rewrite Hcap', Hcap; lia|].
  split; [apply Hst; by left|].
  vm_compute. repeat constructor; by eexists.
Qed.

Lemma lp_stored_key_is_found_witness :
  (lp_dict.search 3 1 (lp_two_sets 3 example_rand)).1 = Val 2.
Proof.
  apply (lp_stored_key_is_found 3 (lp_two_sets 3 example_rand) 1 2 0);
    apply lp_two_sets_inv.
Defined.
